(** * Nonogram solver: a shallow embedding of [solver.py] and of the
      clue parsing and level persistence of [cret_lvl_gui.py]

    Python integers are modelled as [Z], tuples and lists as [list],
    [None] in a board cell as [None : option Z].  Exceptions are values
    of an error type, so that an out-of-range index is visible in the
    model exactly where the interpreter would raise. *)

From Stdlib Require Import ZArith Lia Ascii String.
From stdpp Require Import base tactics option list sorting strings gmap.

Local Open Scope Z_scope.

(** ** Python list primitives used by the source *)

(** [len(l)] *)
Definition py_len {A} (l : list A) : Z := Z.of_nat (length l).

(** [sum(l)] *)
Definition py_sum (l : list Z) : Z := foldr Z.add 0 l.

(** [range(n)]: empty when [n <= 0]. *)
Definition py_range (n : Z) : list Z := Z.of_nat <$> seq 0 (Z.to_nat n).

(** [[x] * n]: empty when [n <= 0]. *)
Definition py_repeat {A} (x : A) (n : Z) : list A := replicate (Z.to_nat n) x.

(** [l[n:]], a negative [n] counts from the end. *)
Definition slice_from {A} (l : list A) (n : Z) : list A :=
  if 0 <=? n then drop (Z.to_nat n) l else drop (Z.to_nat (py_len l + n)) l.

(** [l[:n]], a negative [n] counts from the end. *)
Definition slice_to {A} (l : list A) (n : Z) : list A :=
  if 0 <=? n then take (Z.to_nat n) l else take (Z.to_nat (py_len l + n)) l.

(** ** The line possibility generator *)

Module Generator.

(** The inner function [build(pos, clue_index, acc)] of
    [line_possibilities].  The argument [rest] is [clues[clue_index:]]:
    [clue_index == len(clues)] is [rest = []], [clues[clue_index]] is the
    head [k], [len(clues) - clue_index - 1] is [len(rest) - 1] and
    [clue_index < len(clues) - 1] says that the tail is not empty.  The
    argument [pos] of the source is never read.  The appends to [results]
    are returned in order. *)
Fixpoint build (L : Z) (rest : list Z) (acc : list Z) : list (list Z) :=
  match rest with
  | [] =>
      if (py_len acc <=? L) && forallb (λ v, v =? 0) (slice_from acc L)
      then [ if py_len acc >=? L then slice_to acc L
             else acc ++ py_repeat 0 (L - py_len acc) ]
      else []
  | k :: rest' =>
      let remaining_space := L - py_len acc in
      let remaining_blocks := py_sum rest in
      let min_spaces := py_len rest - 1 in
      let max_pos := remaining_space - (remaining_blocks + min_spaces) in
      py_range (max_pos + 1) ≫= λ i,
        let new_acc := (acc ++ py_repeat 0 i) ++ py_repeat 1 k in
        let new_acc := match rest' with [] => new_acc | _ => new_acc ++ [0] end in
        build L rest' new_acc
  end.

(** [line_possibilities(length, clues)].  The [lru_cache] decorator only
    memoises a pure function and is not modelled. *)
Definition line_possibilities (L : Z) (clues : list Z) : list (list Z) :=
  match clues with
  | [] => [(λ _, 0) <$> py_range L]
  | _ =>
      let total_blocks := py_sum clues in
      let min_required := total_blocks + (py_len clues - 1) in
      if min_required >? L then [] else build L clues []
  end.

End Generator.

Import Generator.

(** ** What the claims say about a line, in the spec's words *)

(** A cell value of a possibility: empty or filled. *)
Definition is_bit (v : Z) : Prop := v = 0 ∨ v = 1.

(** The lengths of the maximal runs of 1s of a line, left to right.
    [cur] is the length of the run that is open at the current cell. *)
Fixpoint runs_from (cur : Z) (s : list Z) : list Z :=
  match s with
  | [] => if 0 <? cur then [cur] else []
  | v :: s' =>
      if v =? 1 then runs_from (cur + 1) s'
      else (if 0 <? cur then [cur] else []) ++ runs_from 0 s'
  end.

Definition runs (s : list Z) : list Z := runs_from 0 s.

(** The block and gap structure that [build] lays down after [acc]:
    some empty cells, the block, one mandatory empty cell unless the
    block is the last one, and so on; all empty after the last block. *)
Fixpoint fits (c : list Z) (s : list Z) : Prop :=
  match c with
  | [] => s = replicate (length s) 0
  | k :: c' =>
      ∃ (i : nat) (s' : list Z),
        s = replicate i 0 ++ replicate (Z.to_nat k) 1 ++
            match c' with [] => s' | _ => 0 :: s' end
        ∧ fits c' s'
  end.


(** ** Exceptions *)

Inductive exn := IndexError | ValueError | TypeError | OSError.

(** The outcome of a call: a value, or an exception that propagates. *)
Inductive result (A : Type) : Type :=
  | Ok (a : A)
  | Raise (e : exn).
Global Arguments Ok {A} a.
Global Arguments Raise {A} e.

Global Instance result_ret : MRet result := λ A x, Ok x.
Global Instance result_bind : MBind result := λ A B f m,
  match m with Ok a => f a | Raise e => Raise e end.

(** [l[i]] for an index [i >= 0]. *)
Definition index {A} (l : list A) (i : nat) : result A :=
  match l !! i with Some x => Ok x | None => Raise IndexError end.
Global Arguments index : simpl never.

(** A loop that returns [False] at the first element whose test fails
    and [True] after the last one. *)
Fixpoint allM {A} (f : A → result bool) (l : list A) : result bool :=
  match l with
  | [] => Ok true
  | x :: l' => b ← f x; if b : bool then allM f l' else Ok false
  end.

(** A loop that stops with [True] at the first element whose test
    succeeds and gives [False] after the last one. *)
Fixpoint anyM {A} (f : A → result bool) (l : list A) : result bool :=
  match l with
  | [] => Ok false
  | x :: l' => b ← f x; if b : bool then Ok true else anyM f l'
  end.

(** A list comprehension with a condition. *)
Fixpoint filterM {A} (f : A → result bool) (l : list A) : result (list A) :=
  match l with
  | [] => Ok []
  | x :: l' => b ← f x; l'' ← filterM f l'; Ok (if b : bool then x :: l'' else l'')
  end.

(** A loop that updates a variable. *)
Fixpoint foldM {A S} (f : S → A → result S) (s : S) (l : list A) : result S :=
  match l with
  | [] => Ok s
  | x :: l' => s' ← f s x; foldM f s' l'
  end.

(** ** The solver *)

Module Solver.

(** Stable sort by key, as [sorted(..., key=...)]: an element goes
    before the elements of the already sorted rest whose key is not
    smaller, so equal keys keep their input order. *)
Fixpoint insert_by (key : nat → Z) (x : nat) (l : list nat) : list nat :=
  match l with
  | [] => [x]
  | y :: l' => if key x <=? key y then x :: l else y :: insert_by key x l'
  end.

Definition sorted (l : list nat) (key : nat → Z) : list nat :=
  foldr (insert_by key) [] l.

(** The attributes of a [NonogramSolver] object.  A board cell is
    [None] (unknown), [Some 0] (empty) or [Some 1] (filled).  The rows of
    the board are distinct list objects ([__init__] builds each with its
    own [[None] * C]), so a list of lists models them. *)
Record NonogramSolver := {
  R : nat;
  C : nat;
  row_clues : list (list Z);
  col_clues : list (list Z);
  row_poss : list (list (list Z));
  col_poss : list (list (list Z));
  board : list (list (option Z));
  row_order : list nat;
  start_time : option Z;
  nodes : Z
}.

(** [NonogramSolver.__init__(self, row_clues, col_clues)].  The key of
    the sort reads [self.row_poss[r]] for [r] in [range(self.R)], and
    [self.row_poss] has [self.R] entries. *)
Definition init (row_clues col_clues : list (list Z)) : NonogramSolver :=
  let R := length row_clues in
  let C := length col_clues in
  let row_poss := line_possibilities (Z.of_nat C) <$> row_clues in
  let col_poss := line_possibilities (Z.of_nat R) <$> col_clues in
  {| R := R; C := C;
     row_clues := row_clues; col_clues := col_clues;
     row_poss := row_poss; col_poss := col_poss;
     board := replicate R (replicate C None);
     row_order := sorted (seq 0 R) (λ r, py_len (row_poss !!! r));
     start_time := None;
     nodes := 0 |}.

(** [self.board[r][c] = v] *)
Definition board_set (b : list (list (option Z))) (r c : nat) (v : option Z)
    : result (list (list (option Z))) :=
  row ← index b r;
  if decide (c < length row)%nat then Ok (<[r := <[c := v]> row]> b)
  else Raise IndexError.

(** [for c in range(C): self.board[r][c] = vals[c]] *)
Definition write_row (C : nat) (b : list (list (option Z))) (r : nat)
    (vals : list (option Z)) : result (list (list (option Z))) :=
  foldM (λ b c, v ← index vals c; board_set b r c v) b (seq 0 C).

(** One cell test of the two compatibility loops: the loop goes on
    unless [val is not None and val != line[i]]; the line is only
    indexed when the cell is known. *)
Definition cell_agrees (val : option Z) (line : list Z) (i : nat) : result bool :=
  match val with
  | None => Ok true
  | Some v => x ← index line i; Ok (bool_decide (v = x))
  end.

(** [self.is_consistent_with_partial_row(r, candidate)] *)
Definition is_consistent_with_partial_row (C : nat) (b : list (list (option Z)))
    (r : nat) (candidate : list Z) : result bool :=
  allM (λ c, row ← index b r; val ← index row c; cell_agrees val candidate c)
       (seq 0 C).

(** [col_candidate_compatible_with_partial_col(c, col_candidate)] *)
Definition col_candidate_compatible_with_partial_col (R : nat)
    (b : list (list (option Z))) (c : nat) (col_candidate : list Z) : result bool :=
  allM (λ rr, row ← index b rr; val ← index row c; cell_agrees val col_candidate rr)
       (seq 0 R).

(** The column check of the candidate loop: the value of [ok] after
    [for c in range(self.C): ...]. *)
Definition columns_ok (R C : nat) (col_poss_lists : list (list (list Z)))
    (b : list (list (option Z))) : result bool :=
  allM (λ c, cands ← index col_poss_lists c;
             anyM (col_candidate_compatible_with_partial_col R b c) cands)
       (seq 0 C).

(** What [backtrack] reads and writes besides the solver's fixed
    attributes: [self.board], [self.nodes] and the number of calls of
    [time.time()] made so far. *)
Record frame := {
  f_board : list (list (option Z));
  f_nodes : Z;
  f_reads : nat
}.

Definition with_board (fr : frame) (b : list (list (option Z))) : frame :=
  {| f_board := b; f_nodes := f_nodes fr; f_reads := f_reads fr |}.

Section search.
(** [clock n] is the value of the [n]-th call of [time.time()] made
    during the call of [solve], in a fixed unit. *)
Context (clock : nat → Z).
Context (self : NonogramSolver) (time_limit : option Z) (start : Z).
Context (col_poss_lists : list (list (list Z))).

(** [time_limit and (time.time() - self.start_time) > time_limit]:
    the clock is read only when [time_limit] is neither [None] nor 0. *)
Definition timeout (fr : frame) : bool * frame :=
  match time_limit with
  | None => (false, fr)
  | Some t =>
      if decide (t = 0) then (false, fr)
      else (bool_decide (clock (f_reads fr) - start > t),
            {| f_board := f_board fr; f_nodes := f_nodes fr;
               f_reads := S (f_reads fr) |})
  end.

(** [for candidate in candidates: ...] at row [r]; [rec] is the call
    [backtrack(idx + 1)].  The loop ends in [return False]. *)
Fixpoint try_candidates (rec : frame → result (bool * frame)) (r : nat)
    (candidates : list (list Z)) (fr : frame) : result (bool * frame) :=
  match candidates with
  | [] => Ok (false, fr)
  | candidate :: candidates' =>
      old_row ← index (f_board fr) r;
      b ← write_row (C self) (f_board fr) r (Some <$> candidate);
      ok ← columns_ok (R self) (C self) col_poss_lists b;
      '(found, fr') ← (if ok : bool then rec (with_board fr b)
                        else Ok (false, with_board fr b));
      if found : bool then Ok (true, fr')
      else
        b' ← write_row (C self) (f_board fr') r old_row;
        try_candidates rec r candidates' (with_board fr' b')
  end.

(** [backtrack(idx)], with [order] standing for
    [self.row_order[idx:]]: [idx == len(self.row_order)] is
    [order = []] and [self.row_order[idx]] is its head. *)
Fixpoint backtrack_from (order : list nat) (fr : frame) : result (bool * frame) :=
  let '(expired, fr) := timeout fr in
  if expired then Ok (false, fr)
  else
    match order with
    | [] => Ok (true, fr)
    | r :: order' =>
        let fr := {| f_board := f_board fr; f_nodes := f_nodes fr + 1;
                     f_reads := f_reads fr |} in
        poss ← index (row_poss self) r;
        candidates ← filterM (is_consistent_with_partial_row (C self) (f_board fr) r) poss;
        match candidates with
        | [] => Ok (false, fr)
        | _ => try_candidates (backtrack_from order') r candidates fr
        end
    end.

Definition backtrack (idx : nat) (fr : frame) : result (bool * frame) :=
  backtrack_from (drop idx (row_order self)) fr.
End search.

(** [not poss] for some [poss] of the list, in order. *)
Definition some_empty (poss : list (list (list Z))) : bool :=
  existsb (λ p, bool_decide (p = [])) poss.

(** [self.start_time = time.time(); self.nodes = 0] *)
Definition started (self : NonogramSolver) (now : Z) : NonogramSolver :=
  {| R := R self; C := C self;
     row_clues := row_clues self; col_clues := col_clues self;
     row_poss := row_poss self; col_poss := col_poss self;
     board := board self; row_order := row_order self;
     start_time := Some now; nodes := 0 |}.

(** The solver object when [backtrack] has returned with the frame
    [fr]: the board and the node counter are what the search left. *)
Definition searched (self : NonogramSolver) (fr : frame) : NonogramSolver :=
  {| R := R self; C := C self;
     row_clues := row_clues self; col_clues := col_clues self;
     row_poss := row_poss self; col_poss := col_poss self;
     board := f_board fr; row_order := row_order self;
     start_time := start_time self; nodes := f_nodes fr |}.

(** [NonogramSolver.solve(self, time_limit, allow_partial, debug)]: the
    returned value and the solver afterwards.  The [debug] prints have
    no effect on either and are left out.  [clock 0] is the reading
    stored in [self.start_time]. *)
Definition solve (clock : nat → Z) (self : NonogramSolver)
    (time_limit : option Z) (allow_partial : bool)
    : result (bool * NonogramSolver) :=
  let self := started self (clock 0%nat) in
  if negb allow_partial && (some_empty (row_poss self) || some_empty (col_poss self))
  then Ok (false, self)
  else
    let col_poss_lists := col_poss self in
    '(found, fr) ← backtrack clock self time_limit (clock 0%nat) col_poss_lists 0
                     {| f_board := board self; f_nodes := nodes self; f_reads := 1 |};
    Ok (found, searched self fr).

End Solver.

(** ** What the claims say about a board, in the spec's words *)

Module Puzzle.
Import Solver.

(** Column [c] of a grid of 0s and 1s with at least [c + 1] cells in
    every row. *)
Definition column (G : list (list Z)) (c : nat) : list Z :=
  (λ row, row !!! c) <$> G.

(** A grid of 0s and 1s that satisfies all the clues: every row and
    every column has exactly the run lengths of its clue sequence. *)
Definition satisfies (row_clues col_clues : list (list Z)) (G : list (list Z)) : Prop :=
  Forall (λ row, length row = length col_clues ∧ Forall is_bit row) G ∧
  Forall2 (λ row clues, runs row = clues) G row_clues ∧
  (∀ c clues, col_clues !! c = Some clues → runs (column G c) = clues).

(** Row [r] of the board holds the line [p], no cell unknown. *)
Definition row_is (b : list (list (option Z))) (r : nat) (p : list Z) : Prop :=
  b !! r = Some (Some <$> p).

(** Column [c] of the board holds the line [p], no cell unknown. *)
Definition column_is (b : list (list (option Z))) (c : nat) (p : list Z) : Prop :=
  Forall2 (λ row v, row !! c = Some (Some v)) b p.

(** Every cell of the board is 0 or 1. *)
Definition filled (b : list (list (option Z))) : Prop :=
  Forall (Forall (λ cell, cell = Some 0 ∨ cell = Some 1)) b.

(** The board is a matrix of [R] rows and [C] columns. *)
Definition board_shape (R C : nat) (b : list (list (option Z))) : Prop :=
  length b = R ∧ Forall (λ row, length row = C) b.

(** Every known cell of the board has the value of the grid [G]. *)
Definition agrees_with (b : list (list (option Z))) (G : list (list Z)) : Prop :=
  Forall2 (Forall2 (λ (cell : option Z) (g : Z), ∀ v, cell = Some v → v = g)) b G.

(** The state of a solver object between calls: the attributes set by
    [__init__] from its clues, and any board of the right shape. *)
Definition constructed (s : NonogramSolver) : Prop :=
  R s = R (init (row_clues s) (col_clues s)) ∧
  C s = C (init (row_clues s) (col_clues s)) ∧
  row_poss s = row_poss (init (row_clues s) (col_clues s)) ∧
  col_poss s = col_poss (init (row_clues s) (col_clues s)) ∧
  row_order s = row_order (init (row_clues s) (col_clues s)) ∧
  board_shape (R s) (C s) (board s).

(** The conclusion of the soundness claim for the solver [s] after a
    call: no cell unknown, every row among the possibilities of that
    row, every column among the possibilities of that column. *)
Definition solved (s : NonogramSolver) : Prop :=
  filled (board s) ∧
  (∀ r, (r < R s)%nat →
     ∃ poss p, row_poss s !! r = Some poss ∧ p ∈ poss ∧ row_is (board s) r p) ∧
  (∀ c, (c < C s)%nat →
     ∃ poss p, col_poss s !! c = Some poss ∧ p ∈ poss ∧ column_is (board s) c p).

End Puzzle.

(** ** Text: the [str] methods and [int] used by the two clue parsers *)

(** A Python [str] is modelled as the list of its characters, with code
    points below 256.  On these, [str.isspace] holds for the twelve
    characters below and the decimal digits are ['0'] to ['9']. *)
Module Text.

Definition is_space (c : ascii) : bool :=
  let n := N_of_ascii c in
  ((9 <=? n) && (n <=? 13) || (28 <=? n) && (n <=? 32) || (n =? 133) || (n =? 160))%N.

Definition is_comma (c : ascii) : bool := (N_of_ascii c =? 44)%N.

(** [s.lstrip()] *)
Fixpoint lstrip (s : list ascii) : list ascii :=
  match s with
  | [] => []
  | c :: s' => if is_space c then lstrip s' else s
  end.

(** [s.rstrip()] *)
Fixpoint rstrip (s : list ascii) : list ascii :=
  match s with
  | [] => []
  | c :: s' =>
      match rstrip s' with
      | [] => if is_space c then [] else [c]
      | t => c :: t
      end
  end.

(** [s.strip()] *)
Definition strip (s : list ascii) : list ascii := rstrip (lstrip s).

(** [s.replace(',', ' ')] *)
Definition replace_commas (s : list ascii) : list ascii :=
  (λ c, if is_comma c then " "%char else c) <$> s.

(** The fields of [s] between the characters that satisfy [sep]: one
    more field than separators, empty fields included. *)
Fixpoint fields (sep : ascii → bool) (s : list ascii) : list (list ascii) :=
  match s with
  | [] => [[]]
  | c :: s' =>
      if sep c then [] :: fields sep s'
      else match fields sep s' with
           | w :: ws => (c :: w) :: ws
           | [] => [[c]]
           end
  end.

Definition nonempty (s : list ascii) : bool :=
  match s with [] => false | _ => true end.

(** [s.split(',')] *)
Definition split_commas (s : list ascii) : list (list ascii) := fields is_comma s.

(** [s.split()]: the maximal runs of characters that are not white
    space. *)
Definition split (s : list ascii) : list (list ascii) :=
  List.filter nonempty (fields is_space s).

Definition digit (c : ascii) : option Z :=
  let n := N_of_ascii c in
  if ((48 <=? n) && (n <=? 57))%N then Some (Z.of_N n - 48) else None.

Definition is_underscore (c : ascii) : bool := (N_of_ascii c =? 95)%N.

(** Decimal digits, with single underscores allowed between two digits.
    [after_digit] says that the previous character was a digit. *)
Fixpoint digits (acc : Z) (after_digit : bool) (s : list ascii) : option Z :=
  match s with
  | [] => if after_digit then Some acc else None
  | c :: s' =>
      match digit c with
      | Some d => digits (10 * acc + d) true s'
      | None =>
          if is_underscore c && after_digit then digits acc false s' else None
      end
  end.

(** An optional sign and digits. *)
Definition signed (s : list ascii) : option Z :=
  match s with
  | c :: s' =>
      if (N_of_ascii c =? 43)%N then digits 0 false s'
      else if (N_of_ascii c =? 45)%N then Z.opp <$> digits 0 false s'
      else digits 0 false s
  | [] => None
  end.

(** [int(s)] for a [str]: surrounding white space is ignored; anything
    but a decimal integer literal raises [ValueError].  The
    interpreter's limit on the number of digits is not modelled. *)
Definition int (s : list ascii) : result Z :=
  match signed (strip s) with
  | Some z => Ok z
  | None => Raise ValueError
  end.

(** [[f(p) for p in parts]] *)
Fixpoint mapM {A B} (f : A → result B) (l : list A) : result (list B) :=
  match l with
  | [] => Ok []
  | x :: l' => y ← f x; ys ← mapM f l'; Ok (y :: ys)
  end.

(** [parse_clue_line(line)] of [solver.py] *)
Definition parse_clue_line (line : string) : result (list Z) :=
  let line := strip (list_ascii_of_string line) in
  match line with
  | [] => Ok []
  | _ =>
      let parts := List.filter nonempty (split (replace_commas line)) in
      mapM int parts
  end.

(** [CreateLevelGUI.parse_clue_text(self, text)] of [cret_lvl_gui.py]:
    [None] is the value returned when [int] raises [ValueError]. *)
Definition parse_clue_text (text : string) : option (list Z) :=
  let text := strip (list_ascii_of_string text) in
  match text with
  | [] => Some []
  | _ =>
      let parts := List.filter nonempty (strip <$> split_commas text) in
      match mapM int parts with
      | Ok l => Some l
      | Raise _ => None
      end
  end.

End Text.

(** *** Integer tokens separated by white space *)

(** Nothing but white space. *)
Definition white (s : list ascii) : Prop := forallb Text.is_space s = true.

(** A first token followed by further tokens, each after its separator:
    [rest] holds the pairs of a separator and the token after it. *)
Definition spaced (tok : list ascii) (rest : list (list ascii * list ascii))
    : list ascii :=
  tok ++ flat_map (λ st, st.1 ++ st.2) rest.

(** [text] is a string of several integer tokens separated by white
    space alone, and [l] holds their values in order: two or more
    tokens without white space inside, each of them an integer literal
    for [int], with a non-empty run of white space between one token
    and the next, and possibly white space before the first and after
    the last. *)
Definition separated_by_white_space (text : string) (l : list Z) : Prop :=
  ∃ pre tok rest post,
    list_ascii_of_string text = pre ++ spaced tok rest ++ post ∧
    white pre ∧ white post ∧
    rest ≠ [] ∧
    Forall (λ st, st.1 ≠ [] ∧ white st.1) rest ∧
    Forall (λ t, forallb (λ c, negb (Text.is_space c)) t = true) (tok :: rest.*2) ∧
    Text.mapM Text.int (tok :: rest.*2) = Ok l.

(** ** Level persistence of the level editor *)

Module Levels.

(** A decoded JSON value, as [json.load] returns it; a JSON object is a
    [dict] with [str] keys. *)
#[local] Set Warnings "-register-all".
Inductive json :=
  | JNull
  | JBool (b : bool)
  | JInt (z : Z)
  | JFloat (repr : string)
  | JStr (s : string)
  | JList (l : list json)
  | JDict (d : gmap string json).
#[local] Set Warnings "register-all".

(** What is at the path [custom-levels.json] when [save_level] runs. *)
Inductive file :=
  | Missing                 (** [os.path.exists] is false, or the file is
                                gone when it is opened *)
  | Unreadable              (** opening or reading raises another error *)
  | Malformed               (** [json.load] raises [JSONDecodeError] *)
  | Holds (doc : json).     (** [json.load] returns [doc] *)

(** What [save_level] did when it returned. *)
Inductive outcome :=
  | NotSaved                          (** an early [return], nothing written *)
  | WriteFailed                       (** the write raised, which is swallowed *)
  | Saved (doc : gmap string json).   (** [json.dump] wrote this document *)

(** [CreateLevelGUI.collect_clues(self)], from the texts of the row and
    column entries: the triple [(rows, cols, err)]. *)
Fixpoint parse_entries (entries : list string) : option (list (list Z)) :=
  match entries with
  | [] => Some []
  | e :: entries' =>
      match Text.parse_clue_text e with
      | None => None
      | Some parsed => (parsed ::.) <$> parse_entries entries'
      end
  end.

Definition collect_clues (row_entries col_entries : list string)
    : option (list (list Z)) * option (list (list Z)) * option string :=
  match parse_entries row_entries with
  | None => (None, None, Some "Invalid row clues: must be comma-separated integers")
  | Some rows =>
      match parse_entries col_entries with
      | None => (None, None, Some "Invalid column clues: must be comma-separated integers")
      | Some cols => (Some rows, Some cols, None)
      end
  end.

(** [{'rows': rows, 'cols': cols}] *)
Definition level (rows cols : list (list Z)) : json :=
  JDict (<["rows" := JList ((λ r, JList (JInt <$> r)) <$> rows)]>
         (<["cols" := JList ((λ c, JList (JInt <$> c)) <$> cols)]> ∅)).

(** The value of [data] after the [if os.path.exists(LEVELS_FILE)]
    block. *)
Definition load (f : file) : result json :=
  match f with
  | Missing => Ok (JDict ∅)
  | Unreadable => Raise OSError
  | Malformed => Ok (JDict ∅)
  | Holds doc => Ok doc
  end.

(** [data[name] = value] for a [str] name: only a [dict] accepts it. *)
Definition setitem (data : json) (name : string) (value : json) : result (gmap string json) :=
  match data with
  | JDict d => Ok (<[name := value]> d)
  | _ => Raise TypeError
  end.

(** [self.name_var.get().strip()] *)
Definition stripped (s : string) : string :=
  string_of_list_ascii (Text.strip (list_ascii_of_string s)).

(** [CreateLevelGUI.save_level(self)]: [name_var] is the text of the
    name entry, [row_entries] and [col_entries] the texts of the clue
    entries, [f] the file at the levels path, and [write_ok] says
    whether opening the file for writing and [json.dump] run without an
    exception. *)
Definition save_level (name_var : string) (row_entries col_entries : list string)
    (f : file) (write_ok : bool) : result outcome :=
  let name := stripped name_var in
  if bool_decide (name = "") then Ok NotSaved
  else
    match collect_clues row_entries col_entries with
    | (Some rows, Some cols, None) =>
        if bool_decide (length rows = 0%nat ∨ length cols = 0%nat) then Ok NotSaved
        else
          data ← load f;
          data ← setitem data name (level rows cols);
          if write_ok then Ok (Saved data) else Ok WriteFailed
    | _ => Ok NotSaved
    end.

(** The pre-existing document that [save_level] merges into: the
    object in the file, and the empty object when there is no readable
    JSON at the path. *)
Definition existing (f : file) : gmap string json :=
  match f with
  | Holds (JDict d) => d
  | _ => ∅
  end.

End Levels.

(** ** Boards and grids *)

(** The board that holds the grid [G], no cell unknown. *)
Definition board_of (G : list (list Z)) : list (list (option Z)) :=
  (λ row : list Z, Some <$> row) <$> G.

(** The values on a board, an unknown cell read as 0. *)
Definition values_of (b : list (list (option Z))) : list (list Z) :=
  (λ row : list (option Z), default 0 <$> row) <$> b.

(** ** Clue texts *)

(** Between two commas of the text there is at most one token: white
    space stands only around a token, never inside a field. *)
Definition one_token_per_field (text : string) : Prop :=
  Forall (λ p, forallb (λ c, negb (Text.is_space c)) (Text.strip p) = true)
         (Text.split_commas (Text.strip (list_ascii_of_string text))).

(** The text has nothing but white space and commas. *)
Definition blank (text : string) : Prop :=
  forallb (λ c, Text.is_space c || Text.is_comma c) (list_ascii_of_string text) = true.

(** ** The level editor: its fields and the solve button *)

Module Editor.
Import Solver Levels.

(** The background of a solution cell. *)
Inductive colour := White | Black.

(** The widgets that [generate_fields] creates: the texts of the row and
    column entries and the backgrounds of the solution cells.  The user
    edits the texts; the number of entries and cells changes only in
    [generate_fields]. *)
Record fields := {
  row_entries : list string;
  col_entries : list string;
  solution_cells : list (list colour)
}.

(** [max(1, int(var.get()))], and 1 when reading the variable raises
    ([None]). *)
Definition count (var : option Z) : Z :=
  match var with
  | Some n => Z.max 1 n
  | None => 1
  end.

(** [CreateLevelGUI.generate_fields(self)]: [C] empty column entries,
    [R] empty row entries and [R] rows of [C] white cells. *)
Definition generate_fields (rows_var cols_var : option Z) : fields :=
  let R := count rows_var in
  let C := count cols_var in
  {| col_entries := (λ _, "") <$> py_range C;
     row_entries := (λ _, "") <$> py_range R;
     solution_cells := (λ _, (λ _, White) <$> py_range C) <$> py_range R |}.

(** [cell.config(bg='black')] when [val == 1], else [bg='white']. *)
Definition colour_of (val : option Z) : colour :=
  match val with
  | Some v => if v =? 1 then Black else White
  | None => White
  end.

(** One round of the drawing loop of [on_solve]; an index out of range
    raises inside the [try] and the cell is skipped. *)
Definition paint_cell (board : list (list (option Z)))
    (cells : list (list colour)) (r c : nat) : list (list colour) :=
  match cells !! r ≫= (.!! c), board !! r ≫= (.!! c) with
  | Some _, Some val => alter (<[c := colour_of val]>) r cells
  | _, _ => cells
  end.

(** [for r in range(R): for c in range(C): ...] *)
Definition paint (board : list (list (option Z))) (R C : nat)
    (cells : list (list colour)) : list (list colour) :=
  foldl (λ cells r, foldl (λ cells c, paint_cell board cells r c) cells (seq 0 C))
        cells (seq 0 R).

(** What the user sees when [on_solve] returns. *)
Inductive shown :=
  | Nothing                                   (** the clues did not parse *)
  | NoSolution                                (** the message box *)
  | Solution (cells : list (list colour)) (nodes : Z).
                                              (** the painted cells and the
                                                  node count of the label *)

(** [CreateLevelGUI.on_solve(self)]: what [save_level] did and what is
    shown.  The cursor changes and the elapsed time in the label are
    left out; [clock] is the clock of the call of [solve], in
    seconds. *)
Definition on_solve (clock : nat → Z) (name_var : string) (g : fields)
    (f : file) (write_ok : bool) : result (outcome * shown) :=
  saved ← save_level name_var (row_entries g) (col_entries g) f write_ok;
  match collect_clues (row_entries g) (col_entries g) with
  | (Some rows, Some cols, None) =>
      let solver := init rows cols in
      '(solved, solver) ← solve clock solver (Some 10) true;
      if solved : bool then
        Ok (saved, Solution (paint (board solver) (length rows) (length cols)
                                   (solution_cells g))
                            (nodes solver))
      else Ok (saved, NoSolution)
  | _ => Ok (saved, Nothing)
  end.

End Editor.

(** The fields as [generate_fields] leaves them, whatever the user has
    typed into the entries since: at least one row entry and one column
    entry, and one solution cell for every row and column. *)
Definition laid_out (g : Editor.fields) : Prop :=
  Editor.row_entries g ≠ [] ∧ Editor.col_entries g ≠ [] ∧
  length (Editor.solution_cells g) = length (Editor.row_entries g) ∧
  Forall (λ row, length row = length (Editor.col_entries g)) (Editor.solution_cells g).

(** The colours of a grid of 0s and 1s: black for 1. *)
Definition colours_of (G : list (list Z)) : list (list Editor.colour) :=
  (λ row : list Z, (λ v : Z, if v =? 1 then Editor.Black else Editor.White) <$> row) <$> G.

(** ** The search without its clock *)

(** A frame of the search with the count of clock readings forgotten. *)
Definition erase (fr : Solver.frame) : Solver.frame :=
  {| Solver.f_board := Solver.f_board fr; Solver.f_nodes := Solver.f_nodes fr;
     Solver.f_reads := 0 |}.

(** The result of a call of [backtrack], the clock readings forgotten. *)
Definition erase_result (res : result (bool * Solver.frame)) : result (bool * Solver.frame) :=
  match res with
  | Ok (found, fr) => Ok (found, erase fr)
  | Raise e => Raise e
  end.

(** * Theorems *)

(** ** Facts about the Python list primitives *)

Lemma py_len_app {A} (l1 l2 : list A) : py_len (l1 ++ l2) = py_len l1 + py_len l2.
Proof. unfold py_len. rewrite length_app. lia. Qed.

Lemma py_len_repeat {A} (x : A) (n : Z) : py_len (py_repeat x n) = Z.max 0 n.
Proof. unfold py_len, py_repeat. rewrite length_replicate. lia. Qed.

Lemma py_len_nonneg {A} (l : list A) : 0 ≤ py_len l.
Proof. unfold py_len. lia. Qed.

Lemma elem_of_py_range (i n : Z) : i ∈ py_range n ↔ 0 ≤ i < n.
Proof.
  unfold py_range. rewrite list_elem_of_fmap. split.
  - intros (j & -> & Hj). apply elem_of_seq in Hj. lia.
  - intros Hi. exists (Z.to_nat i). split; [lia|]. apply elem_of_seq. lia.
Qed.

Lemma NoDup_py_range (n : Z) : NoDup (py_range n).
Proof.
  unfold py_range. apply NoDup_fmap; [|apply NoDup_seq].
  intros x y. lia.
Qed.

Lemma slice_from_all {A} (l : list A) (n : Z) : py_len l ≤ n → slice_from l n = [].
Proof.
  intros Hn. pose proof (py_len_nonneg l). unfold slice_from.
  destruct (Z.leb_spec 0 n); [|lia].
  apply drop_ge. unfold py_len in *. lia.
Qed.

Lemma slice_to_all {A} (l : list A) (n : Z) : py_len l ≤ n → slice_to l n = l.
Proof.
  intros Hn. pose proof (py_len_nonneg l). unfold slice_to.
  destruct (Z.leb_spec 0 n); [|lia].
  apply take_ge. unfold py_len in *. lia.
Qed.

(** ** The generator: shape of the results *)

(** The last step of [build], once every block is placed. *)
Lemma build_nil (L : Z) (acc : list Z) :
  build L [] acc =
  if decide (py_len acc ≤ L) then [acc ++ py_repeat 0 (L - py_len acc)] else [].
Proof.
  simpl. case_decide as Hle.
  - rewrite (slice_from_all _ _ Hle). simpl.
    destruct (Z.leb_spec (py_len acc) L); [|lia]. simpl.
    destruct (Z.geb_spec (py_len acc) L) as [Hge|Hlt].
    + rewrite slice_to_all by done.
      replace (L - py_len acc) with 0 by lia. by rewrite app_nil_r.
    + done.
  - destruct (Z.leb_spec (py_len acc) L); [lia|]. done.
Qed.

Lemma build_cons (L k : Z) (rest' acc : list Z) :
  build L (k :: rest') acc =
  py_range (L - py_len acc - (py_sum (k :: rest') + (py_len (k :: rest') - 1)) + 1) ≫= λ i,
    build L rest'
      (match rest' with
       | [] => (acc ++ py_repeat 0 i) ++ py_repeat 1 k
       | _ => ((acc ++ py_repeat 0 i) ++ py_repeat 1 k) ++ [0]
       end).
Proof. done. Qed.

Global Opaque build.

(** Every result extends the accumulator it was built from. *)
Lemma build_prefix (L : Z) (rest acc x : list Z) :
  x ∈ build L rest acc → acc `prefix_of` x.
Proof.
  revert acc. induction rest as [|k rest' IH]; intros acc.
  - rewrite build_nil. case_decide; [|by intros ?%elem_of_nil].
    intros ->%list_elem_of_singleton. by apply prefix_app_r.
  - rewrite build_cons. intros (i & Hx & _)%list_elem_of_bind.
    apply IH in Hx. etrans; [|exact Hx].
    destruct rest'; rewrite <-?(assoc_L (++)); by apply prefix_app_r.
Qed.

(** Every result has exactly the requested length, whatever the clues. *)
Lemma build_py_len (L : Z) (rest acc x : list Z) :
  x ∈ build L rest acc → py_len x = L.
Proof.
  revert acc. induction rest as [|k rest' IH]; intros acc.
  - rewrite build_nil. case_decide; [|by intros ?%elem_of_nil].
    intros ->%list_elem_of_singleton.
    rewrite py_len_app, py_len_repeat. lia.
  - rewrite build_cons. intros (i & Hx & _)%list_elem_of_bind. eauto.
Qed.

Lemma Forall_py_repeat {A} (P : A → Prop) (x : A) (n : Z) :
  P x → Forall P (py_repeat x n).
Proof. intros. unfold py_repeat. by apply Forall_replicate. Qed.

(** Every result is made of 0s and 1s when the accumulator is. *)
Lemma build_bits (L : Z) (rest acc x : list Z) :
  Forall is_bit acc → x ∈ build L rest acc → Forall is_bit x.
Proof.
  revert acc. induction rest as [|k rest' IH]; intros acc Hacc.
  - rewrite build_nil. case_decide; [|by intros ?%elem_of_nil].
    intros ->%list_elem_of_singleton.
    apply Forall_app; split; [done|]. apply Forall_py_repeat. by left.
  - rewrite build_cons. intros (i & Hx & _)%list_elem_of_bind.
    revert Hx. apply IH.
    assert (Forall is_bit ((acc ++ py_repeat 0 i) ++ py_repeat 1 k)) as Hnew.
    { repeat (apply Forall_app; split); [done| |];
        apply Forall_py_repeat; first [by left|by right]. }
    destruct rest'; [done|]. apply Forall_app; split; [done|].
    apply Forall_singleton. by left.
Qed.

Lemma zeros_py_range (L : Z) : (λ _ : Z, 0) <$> py_range L = py_repeat 0 L.
Proof.
  unfold py_range, py_repeat. rewrite <-list_fmap_compose.
  generalize 0%nat. induction (Z.to_nat L) as [|n IH]; intros i; simpl; [done|].
  f_equal. apply IH.
Qed.

(** [line_possibilities] by cases, with the all-empty line written as
    a repetition. *)
Lemma line_possibilities_eq (L : Z) (clues : list Z) :
  line_possibilities L clues =
  match clues with
  | [] => [py_repeat 0 L]
  | _ => if py_sum clues + (py_len clues - 1) >? L then [] else build L clues []
  end.
Proof. unfold line_possibilities. destruct clues; [|done]. by rewrite zeros_py_range. Qed.

Lemma line_possibilities_py_len (L : Z) (clues x : list Z) :
  x ∈ line_possibilities L clues → py_len x = Z.max 0 L.
Proof.
  rewrite line_possibilities_eq. destruct clues as [|k clues'].
  - intros ->%list_elem_of_singleton. apply py_len_repeat.
  - destruct (_ >? _); [by intros ?%elem_of_nil|].
    intros Hx. apply build_py_len in Hx as Hlen.
    pose proof (py_len_nonneg x). lia.
Qed.

Lemma line_possibilities_length (L : nat) (clues x : list Z) :
  x ∈ line_possibilities (Z.of_nat L) clues → length x = L.
Proof.
  intros Hx%line_possibilities_py_len. unfold py_len in Hx. lia.
Qed.

Lemma line_possibilities_bits (L : Z) (clues x : list Z) :
  x ∈ line_possibilities L clues → Forall is_bit x.
Proof.
  rewrite line_possibilities_eq. destruct clues as [|k clues'].
  - intros ->%list_elem_of_singleton. apply Forall_py_repeat. by left.
  - destruct (_ >? _); [by intros ?%elem_of_nil|].
    by apply build_bits.
Qed.

(** ** The generator: which lines it produces *)

Lemma py_sum_cons (k : Z) (c : list Z) : py_sum (k :: c) = k + py_sum c.
Proof. done. Qed.

Lemma py_len_cons {A} (x : A) (l : list A) : py_len (x :: l) = 1 + py_len l.
Proof. unfold py_len. simpl. lia. Qed.

Lemma py_sum_nonneg (c : list Z) : Forall (Z.le 0) c → 0 ≤ py_sum c.
Proof. induction 1; [done|]. rewrite py_sum_cons. lia. Qed.

(** A line with the block structure of [c] has room for the blocks and
    the mandatory gaps. *)
Lemma fits_py_len (c s : list Z) :
  Forall (Z.le 0) c → fits c s → py_sum c + (py_len c - 1) ≤ py_len s.
Proof.
  revert s. induction c as [|k c' IH]; intros s Hc Hfit.
  - unfold py_len. simpl. lia.
  - apply Forall_cons in Hc as [Hk Hc'].
    destruct Hfit as (i & s' & -> & Hfit').
    specialize (IH s' Hc' Hfit').
    rewrite py_sum_cons, py_len_cons, !py_len_app.
    unfold py_len at 2 3. rewrite !length_replicate.
    destruct c' as [|k' c''].
    + pose proof (py_len_nonneg s'). unfold py_len at 1. simpl. lia.
    + rewrite (py_len_cons 0 s'). lia.
Qed.

(** Membership in [build], read off the recursion. *)
Lemma build_fits (L : Z) (rest acc x : list Z) :
  x ∈ build L rest acc → ∃ s, x = acc ++ s ∧ fits rest s.
Proof.
  revert acc. induction rest as [|k rest' IH]; intros acc.
  - rewrite build_nil. case_decide; [|by intros ?%elem_of_nil].
    intros ->%list_elem_of_singleton. eexists; split; [done|].
    simpl. unfold py_repeat. by rewrite length_replicate.
  - rewrite build_cons. intros (i & Hx & _)%list_elem_of_bind.
    apply IH in Hx as (s' & -> & Hfit).
    exists (replicate (Z.to_nat i) 0 ++ replicate (Z.to_nat k) 1 ++
            match rest' with [] => s' | _ => 0 :: s' end).
    split.
    + unfold py_repeat. destruct rest'; by rewrite <-!(assoc_L (++)).
    + simpl. eauto.
Qed.

(** Conversely every line of length [L] with the block structure of
    nonnegative clues is produced. *)
Lemma fits_build (L : Z) (rest acc s : list Z) :
  Forall (Z.le 0) rest → fits rest s → py_len (acc ++ s) = L →
  acc ++ s ∈ build L rest acc.
Proof.
  revert acc s. induction rest as [|k rest' IH]; intros acc s Hc Hfit Hlen.
  - rewrite build_nil. rewrite py_len_app in Hlen.
    pose proof (py_len_nonneg s).
    rewrite decide_True by lia. apply list_elem_of_singleton.
    simpl in Hfit. rewrite Hfit at 1. unfold py_repeat. do 2 f_equal.
    unfold py_len in *. lia.
  - destruct Hfit as (i & s' & -> & Hfit').
    assert (fits (k :: rest') (replicate 0 0 ++ replicate (Z.to_nat k) 1 ++
              match rest' with [] => s' | _ => 0 :: s' end)) as Hfit0
      by (exists 0%nat, s'; done).
    pose proof (fits_py_len _ _ Hc Hfit0) as Hroom.
    apply Forall_cons in Hc as [Hk Hc'].
    rewrite build_cons. apply list_elem_of_bind. exists (Z.of_nat i). split.
    + unfold py_repeat. rewrite Nat2Z.id.
      destruct rest' as [|k' rest''].
      * rewrite !(assoc_L (++)). apply IH; [done..|].
        by rewrite <-!(assoc_L (++)).
      * replace (acc ++ replicate i 0 ++ replicate (Z.to_nat k) 1 ++ 0 :: s')
          with ((((acc ++ replicate i 0) ++ replicate (Z.to_nat k) 1) ++ [0]) ++ s')
          by (by rewrite <-!(assoc_L (++))).
        apply IH; [done..|]. rewrite <-Hlen. by rewrite <-!(assoc_L (++)).
    + apply elem_of_py_range.
      unfold py_len in *.
      rewrite ?length_app, ?length_replicate in Hroom.
      rewrite ?length_app, ?length_replicate in Hlen. lia.
Qed.

(** ** Run lengths *)

Lemma runs_from_zeros (cur : Z) (n : nat) (s : list Z) :
  runs_from cur (replicate (S n) 0 ++ s) =
  (if 0 <? cur then [cur] else []) ++ runs s.
Proof.
  simpl. f_equal. induction n as [|n IH]; [done|]. exact IH.
Qed.

Lemma runs_zeros (n : nat) (s : list Z) : runs (replicate n 0 ++ s) = runs s.
Proof. destruct n; [done|]. unfold runs at 1. by rewrite runs_from_zeros. Qed.

Lemma runs_from_ones (cur : Z) (n : nat) (s : list Z) :
  runs_from cur (replicate n 1 ++ s) = runs_from (cur + Z.of_nat n) s.
Proof.
  revert cur. induction n as [|n IH]; intros cur.
  - simpl. f_equal. lia.
  - simpl. rewrite IH. f_equal. lia.
Qed.

Lemma runs_one (s : list Z) : runs (1 :: s) = runs_from 1 s.
Proof. done. Qed.

Lemma runs_all_zeros (n : nat) : runs (replicate n 0) = [].
Proof. rewrite <-(app_nil_r (replicate n 0)). by rewrite runs_zeros. Qed.

(** Run lengths are positive. *)
Lemma runs_from_positive (cur : Z) (s : list Z) :
  0 ≤ cur → Forall (Z.lt 0) (runs_from cur s).
Proof.
  revert cur. induction s as [|v s IH]; intros cur Hcur; simpl.
  - destruct (Z.ltb_spec 0 cur); [|done]. by apply Forall_singleton.
  - destruct (v =? 1); [apply IH; lia|].
    apply Forall_app. split; [|by apply IH].
    destruct (Z.ltb_spec 0 cur); [|done]. by apply Forall_singleton.
Qed.

Lemma runs_positive (s : list Z) : Forall (Z.lt 0) (runs s).
Proof. by apply runs_from_positive. Qed.

(** The block structure of positive clues determines the run lengths. *)
Lemma fits_runs (c s : list Z) : Forall (Z.lt 0) c → fits c s → runs s = c.
Proof.
  revert s. induction c as [|k c' IH]; intros s Hc Hfit.
  - simpl in Hfit. rewrite Hfit. apply runs_all_zeros.
  - apply Forall_cons in Hc as [Hk Hc'].
    destruct Hfit as (i & s' & -> & Hfit').
    rewrite runs_zeros. unfold runs. rewrite runs_from_ones.
    rewrite Z2Nat.id, Z.add_0_l by lia.
    destruct c' as [|k' c''].
    + simpl in Hfit'. rewrite Hfit'. destruct (length s') as [|n].
      * simpl. by destruct (Z.ltb_spec 0 k); [|lia].
      * rewrite <-(app_nil_r (replicate (S n) 0)), runs_from_zeros.
        by destruct (Z.ltb_spec 0 k); [|lia].
    + change (0 :: s') with (replicate 1 0 ++ s').
      rewrite runs_from_zeros, (IH s') by done.
      by destruct (Z.ltb_spec 0 k); [|lia].
Qed.

(** With zero entries allowed, the runs are the positive entries: a
    zero clue is an empty block. *)
Lemma fits_runs_nonneg (c s : list Z) :
  Forall (Z.le 0) c → fits c s → runs s = List.filter (λ k, 0 <? k) c.
Proof.
  revert s. induction c as [|k c' IH]; intros s Hc Hfit.
  - simpl in Hfit. rewrite Hfit. apply runs_all_zeros.
  - apply Forall_cons in Hc as [Hk Hc'].
    destruct Hfit as (i & s' & -> & Hfit').
    rewrite runs_zeros. unfold runs. rewrite runs_from_ones.
    rewrite Z2Nat.id, Z.add_0_l by lia.
    destruct c' as [|k' c''].
    + simpl in Hfit'. rewrite Hfit'. simpl. destruct (length s') as [|n].
      * simpl. by destruct (0 <? k).
      * rewrite <-(app_nil_r (replicate (S n) 0)), runs_from_zeros.
        by destruct (0 <? k).
    + change (0 :: s') with (replicate 1 0 ++ s').
      rewrite runs_from_zeros, (IH s') by done.
      simpl. by destruct (0 <? k).
Qed.

(** A line of 0s and 1s starts with empty cells followed by nothing or
    by a filled cell. *)
Lemma bits_leading_zeros (s : list Z) :
  Forall is_bit s →
  ∃ (i : nat) (s' : list Z),
    s = replicate i 0 ++ s' ∧ (s' = [] ∨ ∃ t, s' = 1 :: t).
Proof.
  induction 1 as [|v s [->| ->] _ (i & s' & -> & Hs')].
  - exists 0%nat, []. eauto.
  - exists (S i), s'. eauto.
  - exists 0%nat, (1 :: replicate i 0 ++ s'). eauto.
Qed.

(** An open run continues through filled cells up to the end of the
    line or to an empty cell. *)
Lemma bits_open_run (cur : Z) (s : list Z) :
  Forall is_bit s → 0 < cur →
  ∃ (j : nat) (s' : list Z),
    s = replicate j 1 ++ s' ∧ (s' = [] ∨ ∃ t, s' = 0 :: t) ∧
    runs_from cur s = (cur + Z.of_nat j) :: runs (drop 1 s').
Proof.
  intros Hs. revert cur.
  induction Hs as [|v s [->| ->] _ IH]; intros cur Hcur.
  - exists 0%nat, []. split_and!; [done|by left|]. simpl.
    destruct (Z.ltb_spec 0 cur); [|lia]. f_equal. lia.
  - exists 0%nat, (0 :: s). split_and!; [done|by right; eexists|]. simpl.
    destruct (Z.ltb_spec 0 cur); [|lia]. simpl. unfold runs. by rewrite drop_0, Z.add_0_r.
  - destruct (IH (cur + 1)) as (j & s' & -> & Hs' & Hruns); [lia|].
    exists (S j), s'. split_and!; [done..|]. simpl. rewrite Hruns. f_equal. lia.
Qed.

Lemma runs_nil_zeros (s : list Z) :
  Forall is_bit s → runs s = [] → s = replicate (length s) 0.
Proof.
  intros Hs Hr. destruct (bits_leading_zeros s Hs) as (i & s' & -> & [->|[t ->]]).
  - by rewrite app_nil_r, length_replicate.
  - rewrite runs_zeros in Hr. apply Forall_app in Hs as [_ Hs].
    apply Forall_cons in Hs as [_ Ht].
    destruct (bits_open_run 1 t Ht) as (j & s' & _ & _ & Hruns); [lia|].
    rewrite runs_one in Hr. simpl in Hruns. congruence.
Qed.

(** A line of 0s and 1s has the block structure of its run lengths. *)
Lemma runs_fits (c s : list Z) : Forall is_bit s → runs s = c → fits c s.
Proof.
  revert s. induction c as [|k c' IH]; intros s Hs Hr.
  - by apply runs_nil_zeros.
  - destruct (bits_leading_zeros s Hs) as (i & s1 & -> & [->|[t ->]]).
    { by rewrite runs_zeros in Hr. }
    rewrite runs_zeros in Hr. apply Forall_app in Hs as [_ Hs].
    apply Forall_cons in Hs as [_ Ht].
    destruct (bits_open_run 1 t Ht) as (j & s' & -> & Hs' & Hruns); [lia|].
    rewrite runs_one in Hr. simpl in Hruns. rewrite Hruns in Hr.
    injection Hr as <- <-.
    apply Forall_app in Ht as [_ Ht'].
    assert (Z.to_nat (1 + Z.of_nat j) = S j) as Hk by lia.
    destruct Hs' as [->|[t' ->]].
    + exists i, []. rewrite Hk. simpl. by rewrite app_nil_r.
    + apply Forall_cons in Ht' as [_ Ht''].
      change (drop 1 (0 :: t')) with t' in *.
      destruct (runs t') as [|k' c''] eqn:Hrt.
      * exists i, (0 :: t'). rewrite Hk. split; [done|].
        apply (runs_nil_zeros (0 :: t')).
        -- constructor; [by left|done].
        -- change (0 :: t') with (replicate 1 0 ++ t'). by rewrite runs_zeros.
      * exists i, t'. rewrite Hk. split; [done|]. by apply IH.
Qed.

(** ** The generator: no line is produced twice for positive clues *)

(** Where the first filled cell after the accumulator lies. *)
Lemma block_prefix_lookup (acc y : list Z) (i : Z) (k : Z) (tl : list Z) :
  0 ≤ i → 0 < k →
  (((acc ++ py_repeat 0 i) ++ py_repeat 1 k) ++ tl) `prefix_of` y →
  y !! (length acc + Z.to_nat i)%nat = Some 1 ∧
  ∀ j : nat, (j < Z.to_nat i)%nat → y !! (length acc + j)%nat = Some 0.
Proof.
  intros Hi Hk [u ->]. unfold py_repeat.
  destruct (Z.to_nat k) as [|k'] eqn:Hk'; [lia|].
  rewrite <-!(assoc_L (++)). split.
  - rewrite lookup_app_r by lia.
    rewrite lookup_app_r by (rewrite length_replicate; lia).
    rewrite length_replicate.
    by replace (length acc + Z.to_nat i - length acc - Z.to_nat i)%nat with 0%nat by lia.
  - intros j Hj. rewrite lookup_app_r by lia.
    rewrite lookup_app_l by (rewrite length_replicate; lia).
    apply lookup_replicate. split; [done|lia].
Qed.

Lemma build_NoDup (L : Z) (rest acc : list Z) :
  Forall (Z.lt 0) rest → NoDup (build L rest acc).
Proof.
  revert acc. induction rest as [|k rest' IH]; intros acc Hc.
  - rewrite build_nil. case_decide; [apply NoDup_singleton|apply NoDup_nil_2].
  - apply Forall_cons in Hc as [Hk Hc']. rewrite build_cons.
    apply NoDup_bind; [|by auto|apply NoDup_py_range].
    intros i1 i2 y [Hi1 _]%elem_of_py_range [Hi2 _]%elem_of_py_range Hy1 Hy2.
    apply build_prefix in Hy1, Hy2.
    assert (∀ i, 0 ≤ i →
      match rest' with
      | [] => (acc ++ py_repeat 0 i) ++ py_repeat 1 k
      | _ => ((acc ++ py_repeat 0 i) ++ py_repeat 1 k) ++ [0]
      end `prefix_of` y →
      y !! (length acc + Z.to_nat i)%nat = Some 1 ∧
      ∀ j : nat, (j < Z.to_nat i)%nat → y !! (length acc + j)%nat = Some 0)
      as Hblock.
    { intros i Hi Hpre. destruct rest'.
      - apply (block_prefix_lookup acc y i k []); [done..|].
        by rewrite app_nil_r.
      - by apply (block_prefix_lookup acc y i k [0]). }
    destruct (Hblock i1 Hi1 Hy1) as [Hone1 Hzero1].
    destruct (Hblock i2 Hi2 Hy2) as [Hone2 Hzero2].
    destruct (Z.lt_trichotomy i1 i2) as [Hlt|[->|Hgt]]; [|done|].
    + rewrite (Hzero2 (Z.to_nat i1)) in Hone1 by lia. done.
    + rewrite (Hzero1 (Z.to_nat i2)) in Hone2 by lia. done.
Qed.

(** ** Claims about the generator *)

(** C3, amended: for every clue sequence [c] of positive integers and
    every length [L] with [sum(c) + len(c) - 1 <= L], every element of
    [line_possibilities(L, c)] is a sequence of 0s and 1s of length
    exactly [L] whose maximal runs of 1s have lengths exactly [c], in
    order. *)
Theorem line_possibilities_sound (L : nat) (c x : list Z) :
  Forall (Z.lt 0) c →
  py_sum c + (py_len c - 1) ≤ Z.of_nat L →
  x ∈ line_possibilities (Z.of_nat L) c →
  Forall is_bit x ∧ length x = L ∧ runs x = c.
Proof.
  intros Hc _ Hx. split_and!.
  - by eapply line_possibilities_bits.
  - by eapply line_possibilities_length.
  - rewrite line_possibilities_eq in Hx. destruct c as [|k c'].
    + apply list_elem_of_singleton in Hx as ->. apply runs_all_zeros.
    + destruct (_ >? _); [by apply elem_of_nil in Hx|].
      apply build_fits in Hx as (s & -> & Hfit). by apply fits_runs.
Qed.

Lemma line_possibilities_sound_witness :
  Forall is_bit [0; 1; 1; 0; 1] ∧ length [0; 1; 1; 0; 1] = 5%nat ∧
  runs [0; 1; 1; 0; 1] = [2; 1].
Proof.
  apply (line_possibilities_sound 5 [2; 1] [0; 1; 1; 0; 1]).
  - repeat constructor.
  - vm_compute. discriminate.
  - vm_compute. apply list_elem_of_further, list_elem_of_further, list_elem_of_here.
Defined.

(** C3 as stated fails for a clue sequence with a zero entry: the
    generator treats a zero clue as an empty block, so the line [(0,)]
    is generated for clues [(0,)] and has no run at all. *)
Lemma line_possibilities_sound_zero_clue :
  py_sum [0] + (py_len [0] - 1) ≤ Z.of_nat 1 ∧
  [0] ∈ line_possibilities (Z.of_nat 1) [0] ∧
  runs [0] ≠ [0].
Proof.
  split_and!.
  - vm_compute. discriminate.
  - vm_compute. apply list_elem_of_here.
  - vm_compute. discriminate.
Qed.

(** C4: when [sum(c) + len(c) - 1 > L] the generator returns the empty
    list. *)
Theorem line_possibilities_unsatisfiable (L : nat) (c : list Z) :
  py_sum c + (py_len c - 1) > Z.of_nat L →
  line_possibilities (Z.of_nat L) c = [].
Proof.
  intros Hgt. rewrite line_possibilities_eq. destruct c as [|k c'].
  - unfold py_len in Hgt. simpl in Hgt. lia.
  - destruct (Z.gtb_spec (py_sum (k :: c') + (py_len (k :: c') - 1)) (Z.of_nat L));
      [done|lia].
Qed.

Lemma line_possibilities_unsatisfiable_witness :
  line_possibilities (Z.of_nat 3) [5] = [].
Proof.
  apply (line_possibilities_unsatisfiable 3 [5]). vm_compute. reflexivity.
Defined.

(** C5: for the empty clue sequence the generator returns exactly one
    possibility, the all-zero line of length [L]. *)
Theorem line_possibilities_empty_clues (L : nat) :
  line_possibilities (Z.of_nat L) [] = [replicate L 0].
Proof. rewrite line_possibilities_eq. unfold py_repeat. by rewrite Nat2Z.id. Qed.

(** C7, amended: for every length and every clue sequence of positive
    integers the generated lines are pairwise distinct. *)
Theorem line_possibilities_NoDup (L : Z) (c : list Z) :
  Forall (Z.lt 0) c → NoDup (line_possibilities L c).
Proof.
  intros Hc. rewrite line_possibilities_eq. destruct c as [|k c'].
  - apply NoDup_singleton.
  - destruct (_ >? _); [apply NoDup_nil_2|]. by apply build_NoDup.
Qed.

Lemma line_possibilities_NoDup_witness : NoDup (line_possibilities 5 [2; 1]).
Proof. apply (line_possibilities_NoDup 5 [2; 1]). repeat constructor. Defined.

(** C7 as stated fails for a zero clue: the same line is generated once
    for every number of empty cells placed before the empty block. *)
Lemma line_possibilities_duplicates :
  Forall (Z.le 0) [0] ∧
  line_possibilities 1 [0] = [[0]; [0]] ∧
  ¬ NoDup (line_possibilities 1 [0]).
Proof.
  split_and!; [repeat constructor; lia|done|].
  intros Hnd. change (NoDup [[0]; [0]]) in Hnd.
  apply NoDup_cons in Hnd as [Hnotin _].
  apply Hnotin, list_elem_of_here.
Qed.

(** For clues with zero entries the run lengths of a generated line
    are the positive entries of the clue sequence, in order. *)
Lemma line_possibilities_runs_nonneg (L : Z) (c x : list Z) :
  Forall (Z.le 0) c → x ∈ line_possibilities L c →
  runs x = List.filter (λ k, 0 <? k) c.
Proof.
  intros Hc Hx. rewrite line_possibilities_eq in Hx. destruct c as [|k c'].
  - apply list_elem_of_singleton in Hx as ->. apply runs_all_zeros.
  - destruct (_ >? _); [by apply elem_of_nil in Hx|].
    apply build_fits in Hx as (s & -> & Hfit). by apply fits_runs_nonneg.
Qed.

(** Every line of 0s and 1s of length [L] is generated for its own run
    lengths: the generator misses no arrangement. *)
Lemma line_possibilities_complete (L : nat) (x : list Z) :
  Forall is_bit x → length x = L → x ∈ line_possibilities (Z.of_nat L) (runs x).
Proof.
  intros Hx Hlen. pose proof (runs_fits _ x Hx eq_refl) as Hfit.
  pose proof (runs_positive x) as Hpos.
  assert (Forall (Z.le 0) (runs x)) as Hnn.
  { eapply Forall_impl; [exact Hpos|]. intros; simpl in *; lia. }
  rewrite line_possibilities_eq. destruct (runs x) as [|k c'] eqn:Hr.
  - simpl in Hfit. rewrite Hfit, Hlen. unfold py_repeat. rewrite Nat2Z.id.
    apply list_elem_of_here.
  - pose proof (fits_py_len _ _ Hnn Hfit) as Hroom.
    destruct (Z.gtb_spec (py_sum (k :: c') + (py_len (k :: c') - 1)) (Z.of_nat L)) as [Hgt|_].
    + unfold py_len in Hroom at 2. lia.
    + apply (fits_build _ _ [] x); [done..|]. unfold py_len. simpl. lia.
Qed.

(** ** Facts about the exception monad and its loops *)

Lemma bind_Ok {A B} (m : result A) (f : A → result B) (y : B) :
  m ≫= f = Ok y ↔ ∃ a, m = Ok a ∧ f a = Ok y.
Proof.
  destruct m as [a|e]; simpl.
  - split; [by eauto|]. by intros (a' & [= ->] & ?).
  - split; [done|]. by intros (a' & ? & ?).
Qed.

Lemma index_Ok {A} (l : list A) (i : nat) (x : A) :
  index l i = Ok x ↔ l !! i = Some x.
Proof. unfold index. destruct (l !! i); split; congruence. Qed.

Lemma index_lookup {A} (l : list A) (i : nat) (x : A) :
  l !! i = Some x → index l i = Ok x.
Proof. apply index_Ok. Qed.

Lemma index_None {A} (l : list A) (i : nat) :
  l !! i = None → index l i = Raise IndexError.
Proof. unfold index. by intros ->. Qed.

(** Take apart a hypothesis that says a sequence of calls returned. *)
Ltac inv_bind H :=
  repeat match type of H with
  | (_ ≫= _) = Ok _ =>
      let a := fresh "a" in let Ha := fresh "Ha" in
      apply bind_Ok in H as (a & Ha & H)
  end.

Lemma allM_true {A} (f : A → result bool) (l : list A) :
  allM f l = Ok true ↔ ∀ x, x ∈ l → f x = Ok true.
Proof.
  induction l as [|x l IH]; simpl.
  - split; [by intros _ ? ?%elem_of_nil|done].
  - rewrite bind_Ok. split.
    + intros ([] & Hx & Hl); [|done].
      intros y [->|Hy]%elem_of_cons; [done|]. by apply IH.
    + intros Hall. exists true. split; [apply Hall; left|].
      apply IH. intros y Hy. apply Hall. by right.
Qed.

Lemma allM_total {A} (f : A → result bool) (l : list A) :
  (∀ x, x ∈ l → ∃ b, f x = Ok b) → ∃ b, allM f l = Ok b.
Proof.
  induction l as [|x l IH]; intros Hall; simpl; [by eauto|].
  destruct (Hall x) as [b ->]; [left|]. simpl.
  destruct b; [|by eauto]. apply IH. intros y Hy. apply Hall. by right.
Qed.

Lemma anyM_true {A} (f : A → result bool) (l : list A) :
  anyM f l = Ok true → ∃ x, x ∈ l ∧ f x = Ok true.
Proof.
  induction l as [|x l IH]; simpl; [done|].
  rewrite bind_Ok. intros ([] & Hx & Hl).
  - exists x. split; [left|done].
  - destruct (IH Hl) as (y & Hy & Hfy). exists y. split; [by right|done].
Qed.

Lemma anyM_total {A} (f : A → result bool) (l : list A) :
  (∀ x, x ∈ l → ∃ b, f x = Ok b) → ∃ b, anyM f l = Ok b.
Proof.
  induction l as [|x l IH]; intros Hall; simpl; [by eauto|].
  destruct (Hall x) as [b ->]; [left|]. simpl.
  destruct b; [by eauto|]. apply IH. intros y Hy. apply Hall. by right.
Qed.

Lemma anyM_witness {A} (f : A → result bool) (l : list A) (x : A) :
  (∀ y, y ∈ l → ∃ b, f y = Ok b) → x ∈ l → f x = Ok true → anyM f l = Ok true.
Proof.
  induction l as [|y l IH]; intros Hall Hx Hfx; [by apply elem_of_nil in Hx|].
  simpl. destruct (Hall y) as [b Hb]; [left|]. rewrite Hb. simpl.
  destruct b; [done|]. apply elem_of_cons in Hx as [->|Hx]; [congruence|].
  apply IH; [|done..]. intros z Hz. apply Hall. by right.
Qed.

Lemma filterM_Ok {A} (f : A → result bool) (l l' : list A) :
  filterM f l = Ok l' → ∀ x, x ∈ l' ↔ x ∈ l ∧ f x = Ok true.
Proof.
  revert l'. induction l as [|y l IH]; intros l'; simpl.
  - intros [= <-] x. split; [by intros ?%elem_of_nil|by intros [?%elem_of_nil _]].
  - intros H. inv_bind H. injection H as <-. intros x.
    specialize (IH _ Ha0 x). destruct a.
    + rewrite !elem_of_cons, IH. split.
      * intros [->|[??]]; eauto.
      * intros [[->|?] ?]; eauto.
    + rewrite elem_of_cons, IH. split.
      * intros [??]; eauto.
      * intros [[->|?] ?]; [congruence|done].
Qed.

Lemma filterM_total {A} (f : A → result bool) (l : list A) :
  (∀ x, x ∈ l → ∃ b, f x = Ok b) → ∃ l', filterM f l = Ok l'.
Proof.
  induction l as [|x l IH]; intros Hall; simpl; [by eauto|].
  destruct (Hall x) as [b ->]; [left|]. simpl.
  destruct IH as [l' ->]; [intros y Hy; apply Hall; by right|].
  simpl. eauto.
Qed.

(** ** Writing a row of the board *)

Section board.
Import Solver.
Implicit Types (b : list (list (option Z))) (row vals : list (option Z)).

Lemma board_set_eval b r c v row :
  b !! r = Some row →
  board_set b r c v =
  if decide (c < length row)%nat then Ok (<[r := <[c := v]> row]> b)
  else Raise IndexError.
Proof. intros Hr. unfold board_set. by rewrite (index_lookup _ _ _ Hr). Qed.

(** The cells [i .. i+n-1] of row [r] are overwritten one by one. *)
Lemma write_cells_eval b r vals row (i n : nat) :
  b !! r = Some row →
  foldM (λ b c, v ← index vals c; board_set b r c v) b (seq i n) =
  if decide (n = 0 ∨ (i + n ≤ length row ∧ i + n ≤ length vals))%nat
  then Ok (<[r := take i row ++ take n (drop i vals) ++ drop (i + n) row]> b)
  else Raise IndexError.
Proof.
  revert i b row. induction n as [|n IH]; intros i b row Hr.
  - rewrite decide_True by (by left). simpl. f_equal.
    rewrite Nat.add_0_r, take_drop. by rewrite list_insert_id.
  - simpl. destruct (vals !! i) as [v|] eqn:Hv.
    + apply lookup_lt_Some in Hv as Hi.
      rewrite (index_lookup _ _ _ Hv). simpl.
      rewrite (board_set_eval _ _ _ _ _ Hr).
      destruct (decide (i < length row)%nat) as [Hlt|Hge]; simpl.
      * assert (r < length b)%nat as Hrlt by (by eapply lookup_lt_Some).
        rewrite (IH (S i) _ (<[i:=v]> row)) by (by apply list_lookup_insert_eq).
        rewrite length_insert.
        destruct (decide (n = 0 ∨ (S i + n ≤ length row ∧ S i + n ≤ length vals))%nat)
          as [Hok|Hbad].
        -- rewrite decide_True; [|right; destruct Hok; lia].
           f_equal. rewrite list_insert_insert_eq. f_equal.
           rewrite take_S_r with (x := v) by (by apply list_lookup_insert_eq).
           rewrite take_insert_ge by lia.
           rewrite drop_insert_lt by lia.
           rewrite (drop_S vals v i Hv). simpl.
           rewrite <-(assoc_L (++)). simpl.
           by replace (i + S n)%nat with (S (i + n)) by lia.
        -- rewrite decide_False; [done|]. intros [?|[??]]; [done|].
           apply Hbad. right. lia.
      * rewrite decide_False; [done|]. intros [?|[??]]; [done|lia].
    + rewrite (index_None _ _ Hv). simpl. apply lookup_ge_None in Hv.
      rewrite decide_False; [done|]. intros [?|[??]]; [done|lia].
Qed.

Lemma write_row_eval C b r vals row :
  b !! r = Some row →
  write_row C b r vals =
  if decide (C = 0 ∨ (C ≤ length row ∧ C ≤ length vals))%nat
  then Ok (<[r := take C vals ++ drop C row]> b)
  else Raise IndexError.
Proof.
  intros Hr. unfold write_row. rewrite (write_cells_eval _ _ _ _ 0 C Hr).
  simpl. by rewrite drop_0.
Qed.

(** Writing a candidate and then writing the saved row back gives the
    board before the candidate was written. *)
Lemma write_row_undo C b b1 b2 r vals old_row :
  b !! r = Some old_row →
  write_row C b r vals = Ok b1 →
  write_row C b1 r old_row = Ok b2 →
  b2 = b.
Proof.
  intros Hr H1 H2.
  assert (r < length b)%nat as Hrlt by (by eapply lookup_lt_Some).
  rewrite (write_row_eval _ _ _ _ _ Hr) in H1.
  case_decide as Hok; [|done]. injection H1 as <-.
  rewrite (write_row_eval _ _ _ _ (take C vals ++ drop C old_row)) in H2
    by (by apply list_lookup_insert_eq).
  case_decide as Hok2; [|done]. injection H2 as <-.
  rewrite list_insert_insert_eq.
  destruct Hok as [->|[Hl1 Hl2]].
  - rewrite !take_0, !drop_0. simpl. by rewrite list_insert_id.
  - rewrite drop_app_length' by (rewrite length_take; lia).
    rewrite take_drop. by rewrite list_insert_id.
Qed.
End board.

(** ** The search gives the board back when it fails *)

Section restore.
Import Solver.
Context (clock : nat → Z) (self : NonogramSolver).
Context (time_limit : option Z) (start : Z).
Context (col_poss_lists : list (list (list Z))).

Lemma timeout_board (fr : frame) :
  f_board (timeout clock time_limit start fr).2 = f_board fr ∧
  f_nodes (timeout clock time_limit start fr).2 = f_nodes fr.
Proof.
  unfold timeout. destruct time_limit as [t|]; [|done].
  by destruct (decide (t = 0)).
Qed.

Lemma timeout_no_limit (fr : frame) :
  time_limit = None → timeout clock time_limit start fr = (false, fr).
Proof. unfold timeout. by intros ->. Qed.

(** One round of the candidate loop that does not return [True]:
    the loop goes on from a frame [fr2] reached by the column check
    or by the failed recursive call, with the saved row written back. *)
Lemma try_candidates_cons rec r candidate candidates fr res :
  try_candidates self col_poss_lists rec r (candidate :: candidates) fr = Ok res →
  ∃ old_row b ok found fr',
    f_board fr !! r = Some old_row ∧
    write_row (C self) (f_board fr) r (Some <$> candidate) = Ok b ∧
    columns_ok (R self) (C self) col_poss_lists b = Ok ok ∧
    (if ok then rec (with_board fr b) else Ok (false, with_board fr b))
      = Ok (found, fr') ∧
    if found then res = (true, fr')
    else ∃ b', write_row (C self) (f_board fr') r old_row = Ok b' ∧
         try_candidates self col_poss_lists rec r candidates (with_board fr' b')
           = Ok res.
Proof.
  simpl. intros H. inv_bind H. destruct a2 as [found fr'].
  apply index_Ok in Ha.
  exists a, a0, a1, found, fr'. split_and!; [done..|].
  destruct found; [by injection H as <-|].
  inv_bind H. eauto.
Qed.

Lemma try_candidates_restores rec r candidates :
  (∀ fr fr', rec fr = Ok (false, fr') → f_board fr' = f_board fr) →
  ∀ fr fr',
    try_candidates self col_poss_lists rec r candidates fr = Ok (false, fr') →
    f_board fr' = f_board fr.
Proof.
  intros Hrec. induction candidates as [|candidate candidates IH]; intros fr fr' H.
  - by injection H as <-.
  - apply try_candidates_cons in H
      as (old_row & b & ok & found & fr1 & Hold & Hw & _ & Hstep & Hrest).
    destruct found; [done|]. destruct Hrest as (b' & Hundo & Hrest).
    apply IH in Hrest. rewrite Hrest. simpl.
    assert (f_board fr1 = b) as Hb1.
    { destruct ok; [by apply Hrec in Hstep|by injection Hstep as <-]. }
    rewrite Hb1 in Hundo. by eapply write_row_undo.
Qed.

Lemma backtrack_from_restores order :
  ∀ fr fr',
    backtrack_from clock self time_limit start col_poss_lists order fr
      = Ok (false, fr') →
    f_board fr' = f_board fr.
Proof.
  induction order as [|r order' IH]; intros fr fr'; simpl;
    destruct (timeout_board fr) as [Hb _];
    destruct (timeout clock time_limit start fr) as [expired fr0];
    simpl in Hb; destruct expired.
  - by intros [= <-].
  - done.
  - by intros [= <-].
  - intros H. inv_bind H. destruct a0 as [|candidate candidates].
    + by injection H as <-.
    + apply try_candidates_restores in H; [|done]. by rewrite H.
Qed.
End restore.

(** ** Claims about failed calls of [solve] *)

(** C10: whenever [solve] returns [False], by the static check of the
    strict mode, by exhausting the candidates or after a timeout, the
    board is, cell for cell, the board at the entry of the call. *)
Theorem solve_failure_restores_board (clock : nat → Z) (s s' : Solver.NonogramSolver)
    (time_limit : option Z) (allow_partial : bool) :
  Solver.solve clock s time_limit allow_partial = Ok (false, s') →
  Solver.board s' = Solver.board s.
Proof.
  unfold Solver.solve. simpl.
  destruct (negb allow_partial && _).
  - by intros [= <-].
  - intros H. inv_bind H. destruct a as [found fr].
    injection H as -> <-. simpl.
    unfold Solver.backtrack in Ha. simpl in Ha.
    by apply backtrack_from_restores in Ha.
Qed.

Lemma solve_failure_restores_board_witness :
  ∃ s', Solver.solve (λ n, 10 * Z.of_nat n) (Solver.init [[1]; [1]] [[1]; [1]])
          (Some 15) true = Ok (false, s') ∧
        Solver.board s' = Solver.board (Solver.init [[1]; [1]] [[1]; [1]]).
Proof.
  eexists. split; [vm_compute; reflexivity|].
  apply (solve_failure_restores_board (λ n, 10 * Z.of_nat n)
           (Solver.init [[1]; [1]] [[1]; [1]]) _ (Some 15) true).
  vm_compute. reflexivity.
Defined.

(** C6: when [solve] is called with [allow_partial=False] and a row or a
    column has no possibility, it returns [False] at once: the node
    counter is zero afterwards (and the board is untouched). *)
Theorem solve_strict_fast_fail (clock : nat → Z) (s : Solver.NonogramSolver)
    (time_limit : option Z) :
  (∃ r, Solver.row_poss s !! r = Some []) ∨ (∃ c, Solver.col_poss s !! c = Some []) →
  ∃ s', Solver.solve clock s time_limit false = Ok (false, s') ∧
        Solver.nodes s' = 0 ∧ Solver.board s' = Solver.board s.
Proof.
  intros Hempty. unfold Solver.solve. simpl.
  assert (Solver.some_empty (Solver.row_poss s) || Solver.some_empty (Solver.col_poss s) = true)
    as ->; [|by eauto].
  apply orb_true_iff. unfold Solver.some_empty.
  destruct Hempty as [[i Hi]|[i Hi]]; [left|right];
    apply existsb_exists; exists []; (split; [|by apply bool_decide_eq_true]);
    apply list_elem_of_In; by eapply list_elem_of_lookup_2.
Qed.

Lemma solve_strict_fast_fail_witness :
  ∃ s', Solver.solve (λ _, 0) (Solver.init [[5]; []] [[1]; []; []]) None false
          = Ok (false, s') ∧
        Solver.nodes s' = 0 ∧
        Solver.board s' = Solver.board (Solver.init [[5]; []] [[1]; []; []]).
Proof.
  apply (solve_strict_fast_fail (λ _, 0) (Solver.init [[5]; []] [[1]; []; []]) None).
  left. exists 0%nat. reflexivity.
Defined.

(** ** The search on a board of the right shape *)

Section shape.
Import Solver Puzzle.
Context (self : NonogramSolver).

Implicit Types (b : list (list (option Z))) (fr : frame).

Local Abbreviation shaped b := (board_shape (R self) (C self) b).

Lemma shape_lookup b r :
  shaped b → (r < R self)%nat → ∃ row, b !! r = Some row ∧ length row = C self.
Proof.
  intros [Hlen Hall] Hr. destruct (lookup_lt_is_Some_2 b r) as [row Hrow]; [lia|].
  exists row. split; [done|]. by eapply (Forall_lookup_1 _ _ _ _ Hall).
Qed.

Lemma shape_insert b r row :
  shaped b → length row = C self → shaped (<[r := row]> b).
Proof.
  intros [Hlen Hall] Hrow. split; [by rewrite length_insert|].
  by apply Forall_insert.
Qed.

Lemma write_row_shape b r vals row :
  b !! r = Some row → length row = C self → length vals = C self →
  write_row (C self) b r vals = Ok (<[r := vals]> b).
Proof.
  intros Hr Hrow Hvals. rewrite (write_row_eval _ _ _ _ _ Hr).
  rewrite decide_True by (right; lia). f_equal.
  rewrite take_ge, drop_ge by lia. by rewrite app_nil_r.
Qed.

Lemma cell_test_eval b r c line i row val :
  b !! r = Some row → row !! c = Some val →
  (index b r ≫= λ row, index row c ≫= λ val, cell_agrees val line i)
  = cell_agrees val line i.
Proof.
  intros Hr Hc. rewrite (index_lookup _ _ _ Hr). simpl.
  by rewrite (index_lookup _ _ _ Hc).
Qed.

Lemma cell_agrees_total val (line : list Z) i :
  (i < length line)%nat → ∃ ok, cell_agrees val line i = Ok ok.
Proof.
  intros Hi. destruct val as [v|]; simpl; [|by eauto].
  destruct (lookup_lt_is_Some_2 line i Hi) as [x Hx].
  rewrite (index_lookup _ _ _ Hx). simpl. eauto.
Qed.

Lemma is_consistent_total b r candidate :
  shaped b → (r < R self)%nat → length candidate = C self →
  ∃ ok, is_consistent_with_partial_row (C self) b r candidate = Ok ok.
Proof.
  intros Hb Hr Hcand. apply allM_total. intros c Hc%elem_of_seq.
  destruct (shape_lookup b r Hb Hr) as (row & Hrow & Hlen).
  destruct (lookup_lt_is_Some_2 row c) as [val Hval]; [lia|].
  rewrite (cell_test_eval _ _ _ _ _ _ _ Hrow Hval).
  apply cell_agrees_total. lia.
Qed.

Lemma col_compatible_total b c col_candidate :
  shaped b → (c < C self)%nat → length col_candidate = R self →
  ∃ ok, col_candidate_compatible_with_partial_col (R self) b c col_candidate = Ok ok.
Proof.
  intros Hb Hc Hcand. apply allM_total. intros rr Hrr%elem_of_seq.
  destruct (shape_lookup b rr Hb) as (row & Hrow & Hlen); [lia|].
  destruct (lookup_lt_is_Some_2 row c) as [val Hval]; [lia|].
  rewrite (cell_test_eval _ _ _ _ _ _ _ Hrow Hval).
  apply cell_agrees_total. lia.
Qed.

Context (clock : nat → Z) (time_limit : option Z) (start : Z).
Context (col_poss_lists : list (list (list Z))).
Hypothesis Hrows : length (row_poss self) = R self.
Hypothesis Hrow_len : ∀ r poss p,
  row_poss self !! r = Some poss → p ∈ poss → length p = C self.
Hypothesis Hcols : length col_poss_lists = C self.
Hypothesis Hcol_len : ∀ c poss p,
  col_poss_lists !! c = Some poss → p ∈ poss → length p = R self.

Lemma columns_ok_total b :
  shaped b → ∃ ok, columns_ok (R self) (C self) col_poss_lists b = Ok ok.
Proof using Hcols Hcol_len.
  clear Hrows Hrow_len.
  intros Hb. apply allM_total. intros c Hc%elem_of_seq.
  destruct (lookup_lt_is_Some_2 col_poss_lists c) as [poss Hposs]; [lia|].
  rewrite (index_lookup _ _ _ Hposs). simpl.
  apply anyM_total. intros p Hp.
  apply col_compatible_total; [done|lia|by eapply Hcol_len].
Qed.

(** On a board of the right shape the candidate loop raises nothing,
    provided the recursive call raises nothing. *)
Lemma try_candidates_total rec r candidates :
  (r < R self)%nat →
  (∀ fr, shaped (f_board fr) →
     ∃ found fr', rec fr = Ok (found, fr') ∧ shaped (f_board fr')) →
  (∀ p, p ∈ candidates → length p = C self) →
  ∀ fr, shaped (f_board fr) →
    ∃ found fr',
      try_candidates self col_poss_lists rec r candidates fr = Ok (found, fr') ∧
      shaped (f_board fr').
Proof using Hcols Hcol_len.
  clear Hrows Hrow_len.
  intros Hr Hrec. induction candidates as [|p candidates IH]; intros Hlen fr Hfr.
  - simpl. eauto.
  - simpl.
    destruct (shape_lookup _ r Hfr Hr) as (old_row & Hold & Hold_len).
    rewrite (index_lookup _ _ _ Hold). simpl.
    rewrite (write_row_shape _ _ _ _ Hold Hold_len)
      by (rewrite length_fmap; apply Hlen; left). simpl.
    assert (shaped (<[r:=Some <$> p]> (f_board fr))) as Hb1.
    { apply shape_insert; [done|]. rewrite length_fmap. apply Hlen. left. }
    destruct (columns_ok_total _ Hb1) as [ok ->]. simpl.
    assert (∃ found fr1,
      (if ok then rec (with_board fr (<[r:=Some <$> p]> (f_board fr)))
       else Ok (false, with_board fr (<[r:=Some <$> p]> (f_board fr))))
      = Ok (found, fr1) ∧ shaped (f_board fr1)) as (found & fr1 & -> & Hfr1).
    { destruct ok; [by apply Hrec|by eauto]. }
    simpl. destruct found; [by eauto|].
    destruct (shape_lookup _ r Hfr1 Hr) as (row1 & Hrow1 & Hrow1_len).
    rewrite (write_row_shape _ _ _ _ Hrow1 Hrow1_len Hold_len). simpl.
    apply IH.
    + intros q Hq. apply Hlen. by right.
    + simpl. by apply shape_insert.
Qed.

Lemma backtrack_from_total order :
  Forall (λ r, r < R self)%nat order →
  ∀ fr, shaped (f_board fr) →
    ∃ found fr',
      backtrack_from clock self time_limit start col_poss_lists order fr
        = Ok (found, fr') ∧
      shaped (f_board fr').
Proof using Hrows Hrow_len Hcols Hcol_len.
  induction 1 as [|r order' Hr _ IH]; intros fr Hfr; simpl;
    destruct (timeout_board clock time_limit start fr) as [Hb _];
    destruct (timeout clock time_limit start fr) as [expired fr0];
    simpl in Hb; rewrite <-Hb in Hfr;
    (destruct expired; [by eauto|]).
  - by eauto.
  - destruct (lookup_lt_is_Some_2 (row_poss self) r) as [poss Hposs]; [lia|].
    rewrite (index_lookup _ _ _ Hposs). simpl.
    destruct (filterM_total
      (is_consistent_with_partial_row (C self) (f_board fr0) r) poss)
      as [candidates Hcands].
    { intros p Hp. apply is_consistent_total; [done..|by eapply Hrow_len]. }
    rewrite Hcands. simpl.
    destruct candidates as [|p candidates]; [by eauto|].
    apply try_candidates_total; [done|exact IH| |done].
    intros q Hq. apply (filterM_Ok _ _ _ Hcands) in Hq as [Hq _].
    by eapply Hrow_len.
Qed.
End shape.


(** ** The search finds a grid that satisfies the clues *)

Section complete.
Import Solver Puzzle.
Context (clock : nat → Z) (self : NonogramSolver) (start : Z).
Context (col_poss_lists : list (list (list Z))).
Context (G : list (list Z)).
Hypothesis Hrows : length (row_poss self) = R self.
Hypothesis Hrow_len : ∀ r poss p,
  row_poss self !! r = Some poss → p ∈ poss → length p = C self.
Hypothesis Hcols : length col_poss_lists = C self.
Hypothesis Hcol_len : ∀ c poss p,
  col_poss_lists !! c = Some poss → p ∈ poss → length p = R self.
Hypothesis HG_rows : length G = R self.
Hypothesis HG_cols : Forall (λ row, length row = C self) G.
Hypothesis HG_row_poss : ∀ r row,
  G !! r = Some row → ∃ poss, row_poss self !! r = Some poss ∧ row ∈ poss.
Hypothesis HG_col_poss : ∀ c,
  (c < C self)%nat → ∃ poss, col_poss_lists !! c = Some poss ∧ column G c ∈ poss.

Implicit Types (b : list (list (option Z))) (fr : frame).

Lemma agrees_shape b : agrees_with b G → board_shape (R self) (C self) b.
Proof using All.
  intros Hb. split.
  - by rewrite (Forall2_length _ _ _ Hb).
  - apply Forall_lookup_2. intros r row Hrow.
    destruct (Forall2_lookup_l _ _ _ _ _ Hb Hrow) as (grow & Hgrow & Hcells).
    rewrite (Forall2_length _ _ _ Hcells).
    by eapply (Forall_lookup_1 _ _ _ _ HG_cols).
Qed.

Lemma agrees_cell b r c row grow val g :
  agrees_with b G → b !! r = Some row → G !! r = Some grow →
  row !! c = Some val → grow !! c = Some g →
  ∀ line i, line !! i = Some g → cell_agrees val line i = Ok true.
Proof using All.
  intros Hb Hrow Hgrow Hval Hg line i Hline.
  destruct val as [v|]; simpl; [|done].
  rewrite (index_lookup _ _ _ Hline). simpl. f_equal. apply bool_decide_eq_true.
  destruct (Forall2_lookup_l _ _ _ _ _ Hb Hrow) as (grow' & Hgrow' & Hcells).
  assert (grow' = grow) as -> by congruence.
  destruct (Forall2_lookup_l _ _ _ _ _ Hcells Hval) as (g' & Hg' & Hv).
  assert (g' = g) as -> by congruence. by apply Hv.
Qed.

Lemma agrees_insert b r grow :
  agrees_with b G → G !! r = Some grow → agrees_with (<[r := Some <$> grow]> b) G.
Proof using All.
  intros Hb Hgrow. rewrite <-(list_insert_id G r grow Hgrow).
  apply Forall2_insert; [done|].
  apply Forall2_fmap_l, Forall_Forall2_diag, Forall_forall.
  intros g _ v. by intros [= ->].
Qed.

Lemma is_consistent_solution b r grow :
  agrees_with b G → G !! r = Some grow →
  is_consistent_with_partial_row (C self) b r grow = Ok true.
Proof using All.
  intros Hb Hgrow. apply allM_true. intros c Hc%elem_of_seq.
  destruct (Forall2_lookup_r _ _ _ _ _ Hb Hgrow) as (row & Hrow & Hcells).
  assert (length grow = C self) as Hglen
    by (by eapply (Forall_lookup_1 _ _ _ _ HG_cols)).
  destruct (lookup_lt_is_Some_2 grow c) as [g Hg]; [lia|].
  destruct (lookup_lt_is_Some_2 row c) as [val Hval].
  { rewrite (Forall2_length _ _ _ Hcells). lia. }
  rewrite (cell_test_eval _ _ _ _ _ _ _ Hrow Hval).
  by eapply agrees_cell.
Qed.

Lemma column_lookup r c grow g :
  G !! r = Some grow → grow !! c = Some g → column G c !! r = Some g.
Proof using All.
  intros Hgrow Hg. unfold column. rewrite list_lookup_fmap, Hgrow. simpl.
  f_equal. by apply list_lookup_total_correct.
Qed.

Lemma col_compatible_solution b c :
  agrees_with b G → (c < C self)%nat →
  col_candidate_compatible_with_partial_col (R self) b c (column G c) = Ok true.
Proof using All.
  intros Hb Hc. apply allM_true. intros rr Hrr%elem_of_seq.
  destruct (lookup_lt_is_Some_2 G rr) as [grow Hgrow]; [lia|].
  destruct (Forall2_lookup_r _ _ _ _ _ Hb Hgrow) as (row & Hrow & Hcells).
  assert (length grow = C self) as Hglen
    by (by eapply (Forall_lookup_1 _ _ _ _ HG_cols)).
  destruct (lookup_lt_is_Some_2 grow c) as [g Hg]; [lia|].
  destruct (lookup_lt_is_Some_2 row c) as [val Hval].
  { rewrite (Forall2_length _ _ _ Hcells). lia. }
  rewrite (cell_test_eval _ _ _ _ _ _ _ Hrow Hval).
  eapply agrees_cell; [done..|]. by eapply column_lookup.
Qed.

Lemma columns_ok_solution b :
  agrees_with b G → columns_ok (R self) (C self) col_poss_lists b = Ok true.
Proof using All.
  intros Hb. apply allM_true. intros c Hc%elem_of_seq.
  destruct (HG_col_poss c) as (poss & Hposs & Hin); [lia|].
  rewrite (index_lookup _ _ _ Hposs). simpl.
  apply (anyM_witness _ _ (column G c)); [|done|].
  - intros p Hp. apply (col_compatible_total self); [by apply agrees_shape|lia|].
    by eapply Hcol_len.
  - apply col_compatible_solution; [done|lia].
Qed.

Lemma try_candidates_complete rec r grow candidates :
  G !! r = Some grow →
  (∀ fr, agrees_with (f_board fr) G → ∃ fr', rec fr = Ok (true, fr')) →
  (∀ fr, board_shape (R self) (C self) (f_board fr) →
     ∃ found fr', rec fr = Ok (found, fr') ∧
                  board_shape (R self) (C self) (f_board fr')) →
  (∀ fr fr', rec fr = Ok (false, fr') → f_board fr' = f_board fr) →
  grow ∈ candidates →
  (∀ p, p ∈ candidates → length p = C self) →
  ∀ fr, agrees_with (f_board fr) G →
    ∃ fr', try_candidates self col_poss_lists rec r candidates fr = Ok (true, fr').
Proof using All.
  intros Hgrow Hfind Htotal Hrestore.
  assert (r < R self)%nat as Hr by (rewrite <-HG_rows; by eapply lookup_lt_Some).
  induction candidates as [|p candidates IH]; intros Hin Hlen fr Hfr.
  { by apply elem_of_nil in Hin. }
  pose proof (agrees_shape _ Hfr) as Hshape.
  destruct (shape_lookup self _ r Hshape Hr) as (old_row & Hold & Hold_len).
  assert (length (Some <$> p) = C self) as Hp_len.
  { rewrite length_fmap. apply Hlen. left. }
  assert (board_shape (R self) (C self) (<[r:=Some <$> p]> (f_board fr))) as Hb1
    by (by apply shape_insert).
  simpl. rewrite (index_lookup _ _ _ Hold). simpl.
  rewrite (write_row_shape self _ _ _ _ Hold Hold_len Hp_len). simpl.
  destruct (decide (p = grow)) as [->|Hne].
  - pose proof (agrees_insert _ _ _ Hfr Hgrow) as Hb1G.
    rewrite (columns_ok_solution _ Hb1G). simpl.
    destruct (Hfind (with_board fr (<[r:=Some <$> grow]> (f_board fr)))) as [fr' ->];
      [done|]. simpl. eauto.
  - destruct (columns_ok_total self col_poss_lists Hcols Hcol_len _ Hb1) as [ok ->].
    simpl.
    assert (∃ found fr1,
      (if ok then rec (with_board fr (<[r:=Some <$> p]> (f_board fr)))
       else Ok (false, with_board fr (<[r:=Some <$> p]> (f_board fr))))
      = Ok (found, fr1) ∧
      (found = false → f_board fr1 = <[r:=Some <$> p]> (f_board fr)))
      as (found & fr1 & -> & Hfr1).
    { destruct ok.
      - destruct (Htotal (with_board fr (<[r:=Some <$> p]> (f_board fr))))
          as (found & fr1 & Hrec & _); [done|].
        exists found, fr1. split; [done|]. intros ->. by apply Hrestore in Hrec.
      - by eauto. }
    simpl. destruct found; [by eauto|].
    rewrite Hfr1 by done.
    rewrite (write_row_shape self _ _ _ (Some <$> p))
      by (done || by apply list_lookup_insert_eq; eapply lookup_lt_Some).
    simpl. rewrite list_insert_insert_eq, (list_insert_id _ _ _ Hold).
    apply IH.
    + by apply elem_of_cons in Hin as [->|Hin].
    + intros q Hq. apply Hlen. by right.
    + simpl. by destruct fr.
Qed.

Lemma backtrack_from_complete order :
  Forall (λ r, r < R self)%nat order →
  ∀ fr, agrees_with (f_board fr) G →
    ∃ fr', backtrack_from clock self None start col_poss_lists order fr
             = Ok (true, fr').
Proof using All.
  induction 1 as [|r order' Hr Horder IH]; intros fr Hfr; simpl; [by eauto|].
  destruct (lookup_lt_is_Some_2 G r) as [grow Hgrow]; [lia|].
  destruct (HG_row_poss r grow Hgrow) as (poss & Hposs & Hin).
  rewrite (index_lookup _ _ _ Hposs). simpl.
  pose proof (agrees_shape _ Hfr) as Hshape.
  destruct (filterM_total
    (is_consistent_with_partial_row (C self) (f_board fr) r) poss)
    as [candidates Hcands].
  { intros p Hp. apply (is_consistent_total self); [done..|by eapply Hrow_len]. }
  rewrite Hcands. simpl.
  assert (grow ∈ candidates) as Hgc.
  { apply (filterM_Ok _ _ _ Hcands). split; [done|].
    by apply is_consistent_solution. }
  destruct candidates as [|p candidates]; [by apply elem_of_nil in Hgc|].
  apply (try_candidates_complete _ r grow); [done|exact IH| | |done| |done].
  - by apply backtrack_from_total.
  - apply backtrack_from_restores.
  - intros q Hq. apply (filterM_Ok _ _ _ Hcands) in Hq as [Hq _].
    by eapply Hrow_len.
Qed.
End complete.


(** ** Solver objects built by [__init__] *)

Section constructed.
Import Solver Puzzle.

Lemma insert_by_perm (key : nat → Z) (x : nat) (l : list nat) :
  insert_by key x l ≡ₚ x :: l.
Proof.
  induction l as [|y l IH]; simpl; [done|].
  destruct (key x <=? key y); [done|].
  rewrite IH. apply Permutation_swap.
Qed.

(** The row order is a permutation of the row indices. *)
Lemma sorted_perm (l : list nat) (key : nat → Z) : sorted l key ≡ₚ l.
Proof.
  induction l as [|x l IH]; simpl; [done|].
  by rewrite insert_by_perm, IH.
Qed.

Lemma init_constructed (row_clues col_clues : list (list Z)) :
  constructed (init row_clues col_clues).
Proof.
  unfold constructed. simpl. split_and!; try done.
  split; [by rewrite length_replicate|].
  apply Forall_replicate. by rewrite length_replicate.
Qed.

Context (s : NonogramSolver) (Hs : constructed s).

Lemma constructed_rows : length (row_poss s) = R s.
Proof using Hs.
  destruct Hs as (-> & _ & -> & _). simpl. by rewrite length_fmap.
Qed.

Lemma constructed_cols : length (col_poss s) = C s.
Proof using Hs.
  destruct Hs as (_ & -> & _ & -> & _). simpl. by rewrite length_fmap.
Qed.

Lemma constructed_row_poss r poss :
  row_poss s !! r = Some poss →
  ∃ clues, row_clues s !! r = Some clues ∧
           poss = line_possibilities (Z.of_nat (C s)) clues.
Proof using Hs.
  destruct Hs as (_ & HC & -> & _). simpl. rewrite list_lookup_fmap.
  destruct (row_clues s !! r) as [clues|]; [|done].
  intros [= <-]. exists clues. split; [done|]. by rewrite HC.
Qed.

Lemma constructed_col_poss c poss :
  col_poss s !! c = Some poss →
  ∃ clues, col_clues s !! c = Some clues ∧
           poss = line_possibilities (Z.of_nat (R s)) clues.
Proof using Hs.
  destruct Hs as (HR & _ & _ & -> & _). simpl. rewrite list_lookup_fmap.
  destruct (col_clues s !! c) as [clues|]; [|done].
  intros [= <-]. exists clues. split; [done|]. by rewrite HR.
Qed.

Lemma constructed_row_len r poss p :
  row_poss s !! r = Some poss → p ∈ poss → length p = C s.
Proof using Hs.
  intros (clues & _ & ->)%constructed_row_poss Hp.
  by eapply line_possibilities_length.
Qed.

Lemma constructed_col_len c poss p :
  col_poss s !! c = Some poss → p ∈ poss → length p = R s.
Proof using Hs.
  intros (clues & _ & ->)%constructed_col_poss Hp.
  by eapply line_possibilities_length.
Qed.

Lemma constructed_order : row_order s ≡ₚ seq 0 (R s).
Proof using Hs.
  destruct Hs as (HR & _ & _ & _ & -> & _). simpl.
  rewrite sorted_perm. by rewrite HR.
Qed.

Lemma constructed_order_lt : Forall (λ r, r < R s)%nat (row_order s).
Proof using Hs.
  apply Forall_forall. intros r Hr. rewrite constructed_order in Hr.
  apply elem_of_seq in Hr. lia.
Qed.

End constructed.

Lemma some_empty_false (l : list (list (list Z))) :
  (∀ poss, poss ∈ l → poss ≠ []) → Solver.some_empty l = false.
Proof.
  intros Hne. unfold Solver.some_empty.
  apply not_true_iff_false. intros (poss & Hin & Hnil)%existsb_exists.
  apply bool_decide_eq_true in Hnil. apply list_elem_of_In in Hin.
  by apply (Hne poss).
Qed.

Lemma fresh_board_agrees (G : list (list Z)) (C : nat) :
  Forall (λ row, length row = C) G →
  Puzzle.agrees_with (replicate (length G) (replicate C None)) G.
Proof.
  induction 1 as [|row G Hrow _ IH]; [by constructor|].
  simpl. constructor; [|done]. rewrite <-Hrow. clear.
  induction row; by constructor.
Qed.

(** The column of a grid of 0s and 1s is a line of 0s and 1s. *)
Lemma column_bits (G : list (list Z)) (C c : nat) :
  Forall (λ row, length row = C ∧ Forall is_bit row) G → (c < C)%nat →
  Forall is_bit (Puzzle.column G c) ∧ length (Puzzle.column G c) = length G.
Proof.
  intros HG Hc. unfold Puzzle.column. split; [|by rewrite length_fmap].
  apply Forall_fmap. eapply Forall_impl; [exact HG|].
  intros row [Hlen Hbits]. simpl.
  destruct (lookup_lt_is_Some_2 row c) as [g Hg]; [lia|].
  rewrite (list_lookup_total_correct _ _ _ Hg).
  by eapply (Forall_lookup_1 _ _ _ _ Hbits).
Qed.

(** ** Claims about successful calls of [solve] *)

(** C2: for all row and column clue lists that some grid satisfies,
    [solve] with [time_limit=None] on the freshly constructed solver
    raises nothing and returns [True], in the strict and in the
    permissive mode. *)
Theorem solve_complete (clock : nat → Z) (row_clues col_clues : list (list Z))
    (G : list (list Z)) (allow_partial : bool) :
  Puzzle.satisfies row_clues col_clues G →
  ∃ s', Solver.solve clock (Solver.init row_clues col_clues) None allow_partial
          = Ok (true, s').
Proof.
  intros (Hcells & Hrow_runs & Hcol_runs).
  pose proof (init_constructed row_clues col_clues) as Hs.
  set (s := Solver.init row_clues col_clues) in *.
  assert (length G = Solver.R s) as HG_rows by (by apply Forall2_length in Hrow_runs).
  assert (Forall (λ row, length row = Solver.C s) G) as HG_cols.
  { eapply Forall_impl; [exact Hcells|]. by intros row [? _]. }
  assert (∀ r row, G !! r = Some row →
    ∃ poss, Solver.row_poss s !! r = Some poss ∧ row ∈ poss) as HG_row_poss.
  { intros r row Hrow.
    destruct (Forall2_lookup_l _ _ _ _ _ Hrow_runs Hrow) as (clues & Hclues & Hruns).
    exists (line_possibilities (Z.of_nat (Solver.C s)) clues). split.
    - simpl. by rewrite list_lookup_fmap, Hclues.
    - rewrite <-Hruns.
      destruct (Forall_lookup_1 _ _ _ _ Hcells Hrow) as [Hlen Hbits].
      by apply line_possibilities_complete. }
  assert (∀ c, (c < Solver.C s)%nat →
    ∃ poss, Solver.col_poss s !! c = Some poss ∧ Puzzle.column G c ∈ poss)
    as HG_col_poss.
  { intros c Hc. destruct (lookup_lt_is_Some_2 col_clues c) as [clues Hclues]; [done|].
    exists (line_possibilities (Z.of_nat (Solver.R s)) clues). split.
    - simpl. by rewrite list_lookup_fmap, Hclues.
    - rewrite <-(Hcol_runs c clues Hclues).
      destruct (column_bits G _ c Hcells Hc) as [Hbits Hlen].
      apply line_possibilities_complete; [done|]. by rewrite Hlen. }
  unfold Solver.solve.
  assert (Solver.some_empty (Solver.row_poss s) = false) as Hrne.
  { apply some_empty_false. intros poss (r & Hr)%list_elem_of_lookup ->.
    destruct (lookup_lt_is_Some_2 G r) as [row Hrow].
    { apply lookup_lt_Some in Hr. rewrite (constructed_rows s Hs) in Hr. lia. }
    destruct (HG_row_poss r row Hrow) as (poss & Hposs & Hin).
    rewrite Hr in Hposs. injection Hposs as <-. by apply elem_of_nil in Hin. }
  assert (Solver.some_empty (Solver.col_poss s) = false) as Hcne.
  { apply some_empty_false. intros poss (c & Hc)%list_elem_of_lookup ->.
    destruct (HG_col_poss c) as (poss & Hposs & Hin).
    { apply lookup_lt_Some in Hc. by rewrite (constructed_cols s Hs) in Hc. }
    rewrite Hc in Hposs. injection Hposs as <-. by apply elem_of_nil in Hin. }
  change (Solver.row_poss (Solver.started s (clock 0%nat))) with (Solver.row_poss s).
  change (Solver.col_poss (Solver.started s (clock 0%nat))) with (Solver.col_poss s).
  rewrite Hrne, Hcne, andb_false_r.
  destruct (backtrack_from_complete clock (Solver.started s (clock 0%nat))
    (clock 0%nat) (Solver.col_poss s) G
    (constructed_rows s Hs) (constructed_row_len s Hs)
    (constructed_cols s Hs) (constructed_col_len s Hs)
    HG_rows HG_cols HG_row_poss HG_col_poss
    (Solver.row_order s) (constructed_order_lt s Hs)
    {| Solver.f_board := Solver.board s; Solver.f_nodes := 0; Solver.f_reads := 1 |})
    as [fr' Hfr'].
  { simpl. rewrite <-(Forall2_length _ _ _ Hrow_runs).
    apply fresh_board_agrees. exact HG_cols. }
  destruct (Solver.backtrack _ _ _ _ _ _ _) as [[found fr]|e] eqn:Hbt.
  - assert (Ok (found, fr) = Ok (true, fr')) as [= -> ->]
      by (rewrite <-Hbt; exact Hfr').
    simpl. eauto.
  - assert (Raise e = Ok (true, fr')) by (rewrite <-Hbt; exact Hfr'). done.
Qed.

Lemma solve_complete_witness :
  ∃ s', Solver.solve (λ _, 0) (Solver.init [[1]; [1]] [[1]; [1]]) None false
          = Ok (true, s').
Proof.
  apply (solve_complete (λ _, 0) [[1]; [1]] [[1]; [1]] [[0; 1]; [1; 0]] false).
  split_and!.
  - repeat first [apply Forall_nil_2 | apply Forall_cons_2 | split
                 | reflexivity | (left; reflexivity) | (right; reflexivity)].
  - repeat constructor.
  - intros [|[|c]] clues; simpl; intros [= <-]; reflexivity.
Defined.


(** ** What a successful search leaves on the board *)

Section sound.
Import Solver Puzzle.
Context (clock : nat → Z) (self : NonogramSolver).
Context (time_limit : option Z) (start : Z).
Context (col_poss_lists : list (list (list Z))).
Hypothesis Hrow_len : ∀ r poss p,
  row_poss self !! r = Some poss → p ∈ poss → length p = C self.

Implicit Types (b : list (list (option Z))) (fr : frame).

(** A successful candidate loop found a candidate whose row passed the
    column check and from which the recursive call succeeded, on the
    board at the entry of the loop. *)
Lemma try_candidates_found rec r candidates :
  (∀ fr fr', rec fr = Ok (false, fr') → f_board fr' = f_board fr) →
  (∀ p, p ∈ candidates → length p = C self) →
  ∀ fr fr',
    board_shape (R self) (C self) (f_board fr) →
    try_candidates self col_poss_lists rec r candidates fr = Ok (true, fr') →
    ∃ p fr0,
      p ∈ candidates ∧ (r < R self)%nat ∧
      f_board fr0 = <[r := Some <$> p]> (f_board fr) ∧
      columns_ok (R self) (C self) col_poss_lists (f_board fr0) = Ok true ∧
      rec fr0 = Ok (true, fr').
Proof using Type.
  intros Hrestore. induction candidates as [|p candidates IH]; intros Hlen fr fr' Hfr H.
  { done. }
  apply try_candidates_cons in H
    as (old_row & b & ok & found & fr1 & Hold & Hw & Hok & Hstep & Hrest).
  assert (r < R self)%nat as Hr.
  { destruct Hfr as [<- _]. by eapply lookup_lt_Some. }
  assert (length old_row = C self) as Hold_len.
  { destruct Hfr as [_ Hall]. by eapply (Forall_lookup_1 _ _ _ _ Hall). }
  rewrite (write_row_shape self _ _ _ _ Hold Hold_len) in Hw
    by (rewrite length_fmap; apply Hlen; left).
  injection Hw as <-.
  destruct found.
  - injection Hrest as ->. destruct ok; [|done].
    exists p, (with_board fr (<[r:=Some <$> p]> (f_board fr))).
    split_and!; [left|done..].
  - destruct Hrest as (b' & Hundo & Hrest).
    assert (f_board fr1 = <[r:=Some <$> p]> (f_board fr)) as Hb1.
    { destruct ok; [by apply Hrestore in Hstep|by injection Hstep as <-]. }
    rewrite Hb1 in Hundo.
    rewrite (write_row_shape self _ _ _ (Some <$> p)) in Hundo;
      [|by apply list_lookup_insert_eq; eapply lookup_lt_Some
       |rewrite length_fmap; apply Hlen; left|done].
    injection Hundo as <-.
    rewrite list_insert_insert_eq, (list_insert_id _ _ _ Hold) in Hrest.
    apply IH in Hrest as (q & fr0 & Hq & _ & Hfr0 & Hcols & Hrec).
    + exists q, fr0. split_and!; [by right|done..].
    + intros q Hq. apply Hlen. by right.
    + done.
Qed.

Lemma backtrack_from_placed order :
  NoDup order →
  ∀ fr fr',
    board_shape (R self) (C self) (f_board fr) →
    backtrack_from clock self time_limit start col_poss_lists order fr
      = Ok (true, fr') →
    board_shape (R self) (C self) (f_board fr') ∧
    (∀ r, r ∈ order →
       ∃ poss p, row_poss self !! r = Some poss ∧ p ∈ poss ∧
                 row_is (f_board fr') r p) ∧
    (∀ r, r ∉ order → f_board fr' !! r = f_board fr !! r) ∧
    (order ≠ [] →
       columns_ok (R self) (C self) col_poss_lists (f_board fr') = Ok true).
Proof using Hrow_len.
  induction 1 as [|r order' Hnotin Hnd IH]; intros fr fr' Hfr; simpl;
    destruct (timeout_board clock time_limit start fr) as [Hb _];
    destruct (timeout clock time_limit start fr) as [expired fr0];
    simpl in Hb; (destruct expired; [done|]).
  - intros [= Heq]. subst fr'. rewrite Hb. split_and!; try done.
    by intros r ?%elem_of_nil.
  - intros H. inv_bind H. apply index_Ok in Ha.
    destruct a0 as [|p candidates]; [done|].
    apply try_candidates_found in H
      as (q & fr1 & Hq & Hr & Hfr1 & Hcols & Hrec).
    + apply (filterM_Ok _ _ _ Ha0) in Hq as [Hq _].
      assert (length (Some <$> q) = C self) as Hq_len
        by (rewrite length_fmap; by eapply Hrow_len).
      assert (board_shape (R self) (C self) (f_board fr1)) as Hshape1.
      { rewrite Hfr1. simpl. rewrite Hb. by apply shape_insert. }
      destruct (IH _ _ Hshape1 Hrec) as (Hshape' & Hrows' & Hframe' & Hcols').
      split_and!.
      * done.
      * intros r' [->|Hr']%elem_of_cons; [|by auto].
        exists a, q. split_and!; [done..|]. unfold row_is.
        rewrite (Hframe' _ Hnotin), Hfr1. simpl.
        apply list_lookup_insert_eq. rewrite Hb. by destruct Hfr as [-> _].
      * intros r' Hr'%not_elem_of_cons. destruct Hr' as [Hne Hr'].
        rewrite (Hframe' _ Hr'), Hfr1. simpl.
        rewrite Hb. by apply list_lookup_insert_ne.
      * intros _. destruct order' as [|r2 order2]; [|by apply Hcols'].
        simpl in Hrec.
        destruct (timeout_board clock time_limit start fr1) as [Hb1 _].
        destruct (timeout clock time_limit start fr1) as [expired1 fr2].
        simpl in Hb1. destruct expired1; [done|].
        injection Hrec as Heq. subst fr'. by rewrite Hb1.
    + apply backtrack_from_restores.
    + intros q Hq. apply (filterM_Ok _ _ _ Ha0) in Hq as [Hq _].
      by eapply Hrow_len.
    + simpl. by rewrite Hb.
Qed.
End sound.

Lemma some_empty_false_inv (l : list (list (list Z))) (i : nat) (poss : list (list Z)) :
  Solver.some_empty l = false → l !! i = Some poss → poss ≠ [].
Proof.
  intros Hne Hi ->. apply not_true_iff_false in Hne. apply Hne.
  apply existsb_exists. exists []. split; [|by apply bool_decide_eq_true].
  apply list_elem_of_In. by eapply list_elem_of_lookup_2.
Qed.

(** Soundness of the search on a solver with at least one row, and in
    the strict mode on every solver: when [solve] returns [True] no cell
    is unknown, every row is one of its possibilities and every column
    is one of its possibilities. *)
Lemma solve_sound (clock : nat → Z) (s s' : Solver.NonogramSolver)
    (time_limit : option Z) (allow_partial : bool) :
  Puzzle.constructed s →
  (0 < Solver.R s)%nat ∨ allow_partial = false →
  Solver.solve clock s time_limit allow_partial = Ok (true, s') →
  Puzzle.solved s'.
Proof.
  intros Hs Hmode. unfold Solver.solve.
  change (Solver.row_poss (Solver.started s (clock 0%nat))) with (Solver.row_poss s).
  change (Solver.col_poss (Solver.started s (clock 0%nat))) with (Solver.col_poss s).
  destruct (negb allow_partial && _) eqn:Hcheck; [done|].
  intros H. inv_bind H. destruct a as [found fr]. injection H as -> <-.
  unfold Solver.backtrack in Ha. rewrite drop_0 in Ha.
  assert (NoDup (Solver.row_order s)) as Hnd.
  { rewrite (constructed_order s Hs). apply NoDup_seq. }
  apply (backtrack_from_placed _ (Solver.started s (clock 0%nat)) _ _ _
           (constructed_row_len s Hs) _ Hnd) in Ha
    as (Hshape & Hrows & _ & Hcols); [|by destruct Hs as (_&_&_&_&_&?)].
  simpl in Hshape, Hrows, Hcols.
  assert (∀ r, (r < Solver.R s)%nat →
    ∃ poss p, Solver.row_poss s !! r = Some poss ∧ p ∈ poss ∧
              Puzzle.row_is (Solver.f_board fr) r p) as Hrows'.
  { intros r Hr. apply Hrows. rewrite (constructed_order s Hs).
    apply elem_of_seq. lia. }
  assert (Puzzle.filled (Solver.f_board fr)) as Hfilled.
  { apply Forall_lookup_2. intros r row Hrow.
    destruct (Hrows' r) as (poss & p & Hposs & Hp & Hrp).
    { destruct Hshape as [<- _]. by eapply lookup_lt_Some. }
    unfold Puzzle.row_is in Hrp. rewrite Hrow in Hrp. injection Hrp as ->.
    apply (constructed_row_poss s Hs) in Hposs as (clues & _ & ->).
    apply line_possibilities_bits in Hp.
    apply Forall_fmap. eapply Forall_impl; [exact Hp|].
    intros v [->| ->]; [by left|by right]. }
  split_and!; [done|done|]. simpl.
  intros c Hc.
  destruct (lookup_lt_is_Some_2 (Solver.col_poss s) c) as [poss Hposs].
  { by rewrite (constructed_cols s Hs). }
  destruct (decide (Solver.R s = 0)%nat) as [HR0|HRpos].
  - (* no row: only the strict mode gets here *)
    destruct Hmode as [? | ->]; [lia|]. simpl in Hcheck.
    apply orb_false_iff in Hcheck as [_ Hcne].
    destruct poss as [|p poss'] eqn:Hp;
      [by destruct (some_empty_false_inv _ _ _ Hcne Hposs)|].
    exists (p :: poss'), p. split_and!; [done|left|].
    assert (length p = Solver.R s) as Hplen
      by (eapply (constructed_col_len s Hs); [done|left]).
    destruct Hshape as [Hblen _]. rewrite HR0 in Hblen, Hplen.
    apply nil_length_inv in Hblen, Hplen. rewrite Hblen, Hplen. constructor.
  - (* at least one row: the last row written passed the column check *)
    assert (Solver.row_order s ≠ []) as Hne.
    { intros Hnil. pose proof (constructed_order s Hs) as Hperm.
      rewrite Hnil in Hperm. apply Permutation_length in Hperm.
      rewrite length_seq in Hperm. simpl in Hperm. lia. }
    specialize (Hcols Hne).
    assert (c ∈ seq 0 (Solver.C s)) as Hc_in by (apply elem_of_seq; lia).
    pose proof (proj1 (allM_true _ _) Hcols c Hc_in) as Hcol.
    cbv beta in Hcol.
    rewrite (index_lookup _ _ _ Hposs) in Hcol. simpl in Hcol.
    destruct (anyM_true _ _ Hcol) as (p & Hp & Hcompat).
    exists poss, p. split_and!; [done..|].
    assert (length p = Solver.R s) as Hplen
      by (by eapply (constructed_col_len s Hs)).
    apply Forall2_same_length_lookup_2.
    { destruct Hshape as [-> _]. done. }
    intros rr row v Hrow Hv.
    assert (rr < Solver.R s)%nat as Hrr by (rewrite <-Hplen; by eapply lookup_lt_Some).
    assert (rr ∈ seq 0 (Solver.R s)) as Hrr_in by (apply elem_of_seq; lia).
    pose proof (proj1 (allM_true _ _) Hcompat rr Hrr_in) as Hcell.
    cbv beta in Hcell.
    rewrite (index_lookup _ _ _ Hrow) in Hcell. simpl in Hcell.
    inv_bind Hcell. apply index_Ok in Ha.
    pose proof (Forall_lookup_1 _ _ _ _
                  (Forall_lookup_1 _ _ _ _ Hfilled Hrow) Ha) as Hval.
    rewrite Ha. f_equal.
    destruct a as [v'|]; [|by destruct Hval].
    simpl in Hcell. rewrite (index_lookup _ _ _ Hv) in Hcell. simpl in Hcell.
    injection Hcell as Hdec. apply bool_decide_eq_true in Hdec. by subst.
Qed.

(** C1 fails on a puzzle without rows in the permissive mode:
    [NonogramSolver([], [[1]]).solve()] returns [True] although the only
    column has no possibility at all, so the column is none of them. *)
Theorem solve_unsound_without_rows (clock : nat → Z) :
  ∃ s', Solver.solve clock (Solver.init [] [[1]]) None true = Ok (true, s') ∧
        Solver.col_poss s' !! 0%nat = Some [] ∧
        ¬ Puzzle.solved s'.
Proof.
  eexists. split_and!; [reflexivity|reflexivity|].
  intros (_ & _ & Hcols). destruct (Hcols 0%nat) as (poss & p & Hposs & Hp & _).
  { simpl. lia. }
  simpl in Hposs. injection Hposs as <-. by apply elem_of_nil in Hp.
Qed.


(** ** The solver on small puzzles *)

Example solve_one_cell :
  ∃ s', Solver.solve (λ _, 0) (Solver.init [[1]] [[1]]) None true = Ok (true, s') ∧
        Solver.board s' = [[Some 1]] ∧ Solver.nodes s' = 1.
Proof. eexists. split_and!; vm_compute; reflexivity. Qed.

Example solve_empty_2x2 :
  ∃ s', Solver.solve (λ _, 0) (Solver.init [[]; []] [[]; []]) None true = Ok (true, s') ∧
        Solver.board s' = [[Some 0; Some 0]; [Some 0; Some 0]].
Proof. eexists. split_and!; vm_compute; reflexivity. Qed.

(** A row that cannot fit is found by the search in the permissive
    mode, after one node. *)
Example solve_permissive_unsatisfiable_row :
  ∃ s', Solver.solve (λ _, 0) (Solver.init [[5]; []] [[1]; []; []]) None true
          = Ok (false, s') ∧
        Solver.nodes s' = 1.
Proof. eexists. split_and!; vm_compute; reflexivity. Qed.

(** The row clues [[1,1],[4],[1,1,1],[3],[1]] fill 13 cells and the
    column clues [[2],[2,1],[1,1],[2,1],[1,1]] fill 12: the search
    exhausts its candidates. *)
Example solve_5x5_unsatisfiable :
  ∃ s', Solver.solve (λ _, 0)
          (Solver.init [[1; 1]; [4]; [1; 1; 1]; [3]; [1]]
                       [[2]; [2; 1]; [1; 1]; [2; 1]; [1; 1]]) None true
          = Ok (false, s').
Proof. eexists. vm_compute. reflexivity. Qed.


(** ** The two clue parsers *)

Section text.
Import Text.
Implicit Types (s t p : list ascii) (c : ascii).

Lemma fields_nonempty sep s : fields sep s ≠ [].
Proof. destruct s as [|c s]; simpl; [done|]. destruct (sep c); [done|]. by destruct (fields sep s). Qed.

(** A string without separator is a single field. *)
Lemma fields_no_sep sep s : forallb (λ c, negb (sep c)) s = true → fields sep s = [s].
Proof.
  induction s as [|c s IH]; simpl; [done|].
  intros [Hc Hs]%andb_true_iff. apply negb_true_iff in Hc. rewrite Hc.
  by rewrite (IH Hs).
Qed.

(** Fields on both sides of a separator are found independently. *)
Lemma fields_app_sep sep s c t :
  sep c = true → fields sep (s ++ c :: t) = fields sep s ++ fields sep t.
Proof.
  intros Hc. induction s as [|c' s IH]; simpl.
  - by rewrite Hc.
  - destruct (sep c'); [by rewrite IH|]. rewrite IH.
    destruct (fields sep s) eqn:Hf; [by apply fields_nonempty in Hf|]. done.
Qed.

Lemma split_app_space s c t :
  is_space c = true → split (s ++ c :: t) = split s ++ split t.
Proof.
  intros Hc. unfold split. by rewrite (fields_app_sep _ _ _ _ Hc), List.filter_app.
Qed.

Lemma split_cons_space c s : is_space c = true → split (c :: s) = split s.
Proof. intros Hc. unfold split. simpl. by rewrite Hc. Qed.

Lemma split_spaces s : forallb is_space s = true → split s = [].
Proof.
  induction s as [|c s IH]; simpl; [done|].
  intros [Hc Hs]%andb_true_iff. rewrite (split_cons_space _ _ Hc). auto.
Qed.

Lemma split_spaces_l s t : forallb is_space s = true → split (s ++ t) = split t.
Proof.
  induction s as [|c s IH]; simpl; [done|].
  intros [Hc Hs]%andb_true_iff. rewrite (split_cons_space _ _ Hc). auto.
Qed.

Lemma split_spaces_r s t : forallb is_space t = true → split (s ++ t) = split s.
Proof.
  destruct t as [|c t]; simpl; [by rewrite app_nil_r|].
  intros [Hc Ht]%andb_true_iff.
  by rewrite (split_app_space _ _ _ Hc), (split_spaces _ Ht), app_nil_r.
Qed.

(** A non-empty string without white space is its only word. *)
Lemma split_word s :
  s ≠ [] → forallb (λ c, negb (is_space c)) s = true → split s = [s].
Proof.
  intros Hne Hs. unfold split. rewrite (fields_no_sep _ _ Hs). simpl.
  by destruct s.
Qed.

(** What [lstrip] and [rstrip] remove is white space. *)
Lemma lstrip_spec s : ∃ a, s = a ++ lstrip s ∧ forallb is_space a = true.
Proof.
  induction s as [|c s (a & Ha & Hsp)]; simpl; [by exists []|].
  destruct (is_space c) eqn:Hc.
  - exists (c :: a). simpl. rewrite Hc, Hsp. split; [by f_equal|done].
  - by exists [].
Qed.

Lemma rstrip_spec s : ∃ b, s = rstrip s ++ b ∧ forallb is_space b = true.
Proof.
  induction s as [|c s (b & Hb & Hsp)]; simpl; [by exists []|].
  destruct (rstrip s) as [|c' t] eqn:Hr.
  - destruct (is_space c) eqn:Hc.
    + exists (c :: b). simpl in *. rewrite Hc, Hsp. split; [by f_equal|done].
    + exists b. simpl in *. split; [by f_equal|done].
  - exists b. split; [|done]. rewrite Hb at 1. done.
Qed.

Lemma split_strip s : split (strip s) = split s.
Proof.
  unfold strip.
  destruct (lstrip_spec s) as (a & Ha & Hasp).
  destruct (rstrip_spec (lstrip s)) as (b & Hb & Hbsp).
  rewrite Ha at 2. rewrite (split_spaces_l _ _ Hasp).
  rewrite Hb at 2. by rewrite (split_spaces_r _ _ Hbsp).
Qed.

Lemma strip_no_space s :
  forallb (λ c, negb (is_space c)) s = true → strip s = s.
Proof.
  intros Hs. unfold strip.
  assert (lstrip s = s) as ->.
  { destruct s as [|c s]; simpl in *; [done|].
    apply andb_true_iff in Hs as [Hc _]. apply negb_true_iff in Hc. by rewrite Hc. }
  induction s as [|c s IH]; simpl in *; [done|].
  apply andb_true_iff in Hs as [Hc Hs]. apply negb_true_iff in Hc.
  rewrite (IH Hs), Hc. by destruct s.
Qed.

(** An integer literal has no white space inside. *)
Lemma digit_not_space c d : digit c = Some d → is_space c = false.
Proof.
  unfold digit, is_space. intros H.
  destruct ((48 <=? N_of_ascii c) && (N_of_ascii c <=? 57))%N eqn:Hd; [|done].
  apply andb_true_iff in Hd as [H1%N.leb_le H2%N.leb_le].
  repeat (apply orb_false_iff; split);
    first [apply andb_false_iff | idtac]; rewrite ?N.leb_gt, ?N.eqb_neq; lia.
Qed.

Lemma digits_no_space acc after s z :
  digits acc after s = Some z → forallb (λ c, negb (is_space c)) s = true.
Proof.
  revert acc after. induction s as [|c s IH]; intros acc after; simpl; [done|].
  destruct (digit c) as [d|] eqn:Hd.
  - intros H. rewrite (digit_not_space _ _ Hd). simpl. eauto.
  - destruct (is_underscore c) eqn:Hu; simpl; [|done].
    destruct after; [|done]. intros H.
    assert (is_space c = false) as ->; [|simpl; eauto].
    unfold is_underscore in Hu. apply N.eqb_eq in Hu. unfold is_space. rewrite Hu.
    done.
Qed.

Lemma signed_no_space s z :
  signed s = Some z → s ≠ [] ∧ forallb (λ c, negb (is_space c)) s = true.
Proof.
  destruct s as [|c s]; [done|]. split; [done|]. revert H. unfold signed.
  destruct (N_of_ascii c =? 43)%N eqn:Hplus.
  { intros H%digits_no_space. simpl. rewrite H, andb_true_r.
    apply N.eqb_eq in Hplus. unfold is_space. by rewrite Hplus. }
  destruct (N_of_ascii c =? 45)%N eqn:Hminus.
  { destruct (digits 0 false s) as [z'|] eqn:Hd; [|done]. intros _.
    apply digits_no_space in Hd. simpl. rewrite Hd, andb_true_r.
    apply N.eqb_eq in Hminus. unfold is_space. by rewrite Hminus. }
  by intros H%digits_no_space.
Qed.

(** A part that [int] accepts is, up to surrounding white space, one
    word, and [int] gives the same value for the word. *)
Lemma int_word p z :
  int p = Ok z → ∃ u, split p = [u] ∧ int u = Ok z.
Proof.
  unfold int. destruct (signed (strip p)) as [z'|] eqn:Hs; [|done].
  intros [= ->]. apply signed_no_space in Hs as Hu. destruct Hu as [Hne Hnosp].
  exists (strip p). split.
  - by rewrite <-split_strip, split_word.
  - by rewrite (strip_no_space _ Hnosp), Hs.
Qed.

Lemma split_empty_strip p : strip p = [] → split p = [].
Proof. intros Hp. by rewrite <-split_strip, Hp. Qed.

(** A string is one field without comma, or a field without comma, a
    comma and the rest. *)
Lemma split_commas_cases s :
  (split_commas s = [s] ∧ forallb (λ c, negb (is_comma c)) s = true) ∨
  ∃ p c t, s = p ++ c :: t ∧ is_comma c = true ∧
           forallb (λ c, negb (is_comma c)) p = true ∧
           split_commas s = p :: split_commas t.
Proof.
  unfold split_commas. induction s as [|c s IH]; simpl; [by left|].
  destruct (is_comma c) eqn:Hc.
  - right. exists [], c, s. by rewrite Hc.
  - destruct IH as [[-> Hs]|(p & c' & t & -> & Hc' & Hp & ->)].
    + left. by rewrite Hs.
    + right. exists (c :: p), c', t. simpl. by rewrite Hc, Hp.
Qed.

Lemma replace_commas_no_comma p :
  forallb (λ c, negb (is_comma c)) p = true → replace_commas p = p.
Proof.
  unfold replace_commas. induction p as [|c p IH]; simpl; [done|].
  intros [Hc Hp]%andb_true_iff. apply negb_true_iff in Hc. rewrite Hc.
  f_equal. by apply IH.
Qed.

Lemma replace_commas_app p c t :
  replace_commas (p ++ c :: t) =
  replace_commas p ++ (if is_comma c then " "%char else c) :: replace_commas t.
Proof. unfold replace_commas. by rewrite fmap_app. Qed.

(** Splitting at commas and then at white space finds the words of the
    string with its commas replaced by spaces. *)
Lemma split_replace_commas s :
  split (replace_commas s) = concat (split <$> split_commas s).
Proof.
  remember (length s) as n eqn:Hn. revert s Hn.
  induction (lt_wf n) as [n _ IH]; intros s ->.
  destruct (split_commas_cases s) as [[-> Hs]|(p & c & t & -> & Hc & Hp & ->)].
  - rewrite (replace_commas_no_comma _ Hs). simpl. by rewrite app_nil_r.
  - rewrite replace_commas_app, Hc.
    rewrite (replace_commas_no_comma _ Hp), split_app_space by done.
    rewrite (IH (length t)); [done| |done]. rewrite length_app. simpl. lia.
Qed.

(** The words of the solver's parser are, value for value, the parts of
    the collaborator's parser whenever every part is an integer. *)
Lemma mapM_int_parts (parts : list (list ascii)) (l : list Z) :
  mapM int (List.filter nonempty (strip <$> parts)) = Ok l →
  mapM int (concat (split <$> parts)) = Ok l.
Proof.
  revert l. induction parts as [|p parts IH]; intros l; csimpl; [done|].
  destruct (strip p) as [|c q] eqn:Hp; csimpl.
  - rewrite (split_empty_strip _ Hp). csimpl. apply IH.
  - intros H. inv_bind H. injection H as <-.
    destruct (int_word _ _ Ha) as (u & Hsplit & Hu).
    rewrite <-(split_strip p), Hp, Hsplit. csimpl.
    rewrite Hu. csimpl. by rewrite (IH _ Ha0).
Qed.

Lemma filter_nonempty_split s : List.filter nonempty (split s) = split s.
Proof.
  unfold split. induction (fields is_space s) as [|w ws IH]; simpl; [done|].
  destruct (nonempty w) eqn:Hw; simpl; [|done]. by rewrite Hw, IH.
Qed.

(** *** Several tokens separated by white space alone *)

(** White space is no comma, and an integer literal holds none. *)
Lemma space_not_comma c : is_space c = true → is_comma c = false.
Proof.
  unfold is_space, is_comma. intros H. apply N.eqb_neq. intros Hc.
  by rewrite Hc in H.
Qed.

Lemma white_no_comma s :
  forallb is_space s = true → forallb (λ c, negb (is_comma c)) s = true.
Proof.
  induction s as [|c s IH]; simpl; [done|].
  intros [Hc Hs]%andb_true_iff. by rewrite (space_not_comma _ Hc), (IH Hs).
Qed.

Lemma digits_no_comma acc after s z :
  digits acc after s = Some z → forallb (λ c, negb (is_comma c)) s = true.
Proof.
  revert acc after. induction s as [|c s IH]; intros acc after; simpl; [done|].
  destruct (digit c) as [d|] eqn:Hd.
  - intros H. rewrite (IH _ _ H), andb_true_r. apply negb_true_iff.
    unfold digit in Hd. unfold is_comma.
    destruct ((48 <=? N_of_ascii c) && (N_of_ascii c <=? 57))%N eqn:Hr; [|done].
    apply andb_true_iff in Hr as [H1%N.leb_le _]. apply N.eqb_neq. lia.
  - destruct (is_underscore c) eqn:Hu; simpl; [|done].
    destruct after; [|done]. intros H. rewrite (IH _ _ H), andb_true_r.
    apply negb_true_iff. unfold is_underscore in Hu. apply N.eqb_eq in Hu.
    unfold is_comma. by rewrite Hu.
Qed.

Lemma signed_no_comma s z :
  signed s = Some z → forallb (λ c, negb (is_comma c)) s = true.
Proof.
  destruct s as [|c s]; [done|]. unfold signed.
  destruct (N_of_ascii c =? 43)%N eqn:Hplus.
  { intros H%digits_no_comma. simpl. rewrite H, andb_true_r.
    apply N.eqb_eq in Hplus. unfold is_comma. by rewrite Hplus. }
  destruct (N_of_ascii c =? 45)%N eqn:Hminus.
  { destruct (digits 0 false s) as [z'|] eqn:Hd; [|done]. intros _.
    apply digits_no_comma in Hd. simpl. rewrite Hd, andb_true_r.
    apply N.eqb_eq in Hminus. unfold is_comma. by rewrite Hminus. }
  by intros H%digits_no_comma.
Qed.

(** An integer token is not empty and holds no comma. *)
Lemma integer_token t z :
  forallb (λ c, negb (is_space c)) t = true → int t = Ok z →
  t ≠ [] ∧ forallb (λ c, negb (is_comma c)) t = true.
Proof.
  intros Ht. unfold int. rewrite (strip_no_space _ Ht).
  destruct (signed t) as [z'|] eqn:Hs; [|done]. intros _. split.
  - by apply signed_no_space in Hs as [? _].
  - by eapply signed_no_comma.
Qed.

Lemma integer_tokens (toks : list (list ascii)) (l : list Z) :
  Forall (λ t, forallb (λ c, negb (is_space c)) t = true) toks →
  mapM int toks = Ok l →
  Forall (λ t, t ≠ [] ∧ forallb (λ c, negb (is_comma c)) t = true) toks.
Proof.
  intros Htoks. revert l. induction Htoks as [|t toks Ht _ IH]; intros l; [done|].
  simpl. destruct (int t) as [z|e] eqn:Hz; [|done]. simpl.
  destruct (mapM int toks) as [l'|e] eqn:Hl; [|done]. intros _.
  constructor; [by eapply integer_token|by eapply IH].
Qed.

(** The words of tokens laid out with separators are the tokens. *)
Lemma split_spaced tok (rest : list (list ascii * list ascii)) :
  Forall (λ st, st.1 ≠ [] ∧ white st.1) rest →
  Forall (λ t, t ≠ [] ∧ forallb (λ c, negb (is_space c)) t = true) (tok :: rest.*2) →
  split (spaced tok rest) = tok :: rest.*2.
Proof.
  revert tok. induction rest as [|[sep t] rest IH]; intros tok Hseps Htoks.
  - unfold spaced. simpl. rewrite app_nil_r.
    apply Forall_cons_1 in Htoks as [[? ?] _]. by apply split_word.
  - apply Forall_cons_1 in Hseps as [[Hne Hsep] Hseps].
    apply Forall_cons_1 in Htoks as [[Htne Htok] Htoks].
    simpl in Hne, Hsep. destruct sep as [|c sep]; [done|].
    unfold white in Hsep. simpl in Hsep. apply andb_true_iff in Hsep as [Hc Hsep].
    change (spaced tok ((c :: sep, t) :: rest))
      with (tok ++ ((c :: sep) ++ t) ++ flat_map (λ st, st.1 ++ st.2) rest).
    rewrite <-(app_assoc (c :: sep) t). simpl.
    rewrite (split_app_space tok c _ Hc), (split_word tok Htne Htok).
    rewrite (split_spaces_l sep _ Hsep).
    change (t ++ flat_map (λ st, st.1 ++ st.2) rest) with (spaced t rest).
    by rewrite (IH t Hseps Htoks).
Qed.

Lemma spaced_no_comma tok (rest : list (list ascii * list ascii)) :
  Forall (λ st, st.1 ≠ [] ∧ white st.1) rest →
  Forall (λ t, t ≠ [] ∧ forallb (λ c, negb (is_comma c)) t = true) (tok :: rest.*2) →
  forallb (λ c, negb (is_comma c)) (spaced tok rest) = true.
Proof.
  intros Hseps [[_ Htok] Htoks]%Forall_cons_1. unfold spaced.
  rewrite forallb_app, Htok. simpl.
  induction rest as [|[sep t] rest IH]; simpl; [done|].
  apply Forall_cons_1 in Hseps as [[_ Hsep] Hseps].
  apply Forall_cons_1 in Htoks as [[_ Ht] Htoks]. simpl in Hsep, Ht.
  rewrite !forallb_app, (white_no_comma _ Hsep), Ht. simpl. by apply IH.
Qed.

(** Stripping keeps the absence of commas. *)
Lemma strip_no_comma s :
  forallb (λ c, negb (is_comma c)) s = true →
  forallb (λ c, negb (is_comma c)) (strip s) = true.
Proof.
  intros Hs. unfold strip.
  destruct (lstrip_spec s) as (a & Ha & _). rewrite Ha, forallb_app in Hs.
  apply andb_true_iff in Hs as [_ Hs].
  destruct (rstrip_spec (lstrip s)) as (b & Hb & _). rewrite Hb, forallb_app in Hs.
  by apply andb_true_iff in Hs as [Hs _].
Qed.

(** A text without comma that has two words or more is one part for
    [parse_clue_text], which [int] rejects. *)
Lemma parse_clue_text_several_words (text : string) :
  forallb (λ c, negb (is_comma c)) (list_ascii_of_string text) = true →
  (2 ≤ length (split (list_ascii_of_string text)))%nat →
  parse_clue_text text = None.
Proof.
  intros Hnc Hwords. unfold parse_clue_text.
  rewrite <-split_strip in Hwords. apply strip_no_comma in Hnc.
  destruct (strip (list_ascii_of_string text)) as [|c t] eqn:Hline.
  { simpl in Hwords. lia. }
  unfold split_commas. rewrite (fields_no_sep _ _ Hnc). simpl.
  destruct (strip (c :: t)) as [|c' t'] eqn:Hpart.
  { apply split_empty_strip in Hpart. rewrite Hpart in Hwords. simpl in Hwords. lia. }
  simpl. destruct (int (c' :: t')) as [z|e] eqn:Hint; [|done].
  apply int_word in Hint as (u & Hu & _).
  rewrite <-Hpart, split_strip in Hu. rewrite Hu in Hwords. simpl in Hwords. lia.
Qed.

(** A text without comma is split by [parse_clue_line] into its words. *)
Lemma parse_clue_line_words (text : string) :
  forallb (λ c, negb (is_comma c)) (list_ascii_of_string text) = true →
  split (list_ascii_of_string text) ≠ [] →
  parse_clue_line text = mapM int (split (list_ascii_of_string text)).
Proof.
  intros Hnc Hwords. unfold parse_clue_line.
  rewrite <-split_strip in Hwords. rewrite <-(split_strip (list_ascii_of_string text)).
  apply strip_no_comma in Hnc.
  destruct (strip (list_ascii_of_string text)) as [|c t] eqn:Hline; [done|].
  by rewrite (replace_commas_no_comma _ Hnc), filter_nonempty_split.
Qed.

(** Both parsers on several integer tokens separated by white space. *)
Lemma parse_separated_by_white_space (text : string) (l : list Z) :
  separated_by_white_space text l →
  parse_clue_line text = Ok l ∧ parse_clue_text text = None.
Proof.
  intros (pre & tok & rest & post & Htext & Hpre & Hpost & Hrest & Hseps & Htoks & Hl).
  pose proof (integer_tokens _ _ Htoks Hl) as Hlit.
  assert (Forall (λ t, t ≠ [] ∧ forallb (λ c, negb (is_space c)) t = true)
            (tok :: rest.*2)) as Hwords.
  { apply Forall_forall. intros t Ht. split.
    - by apply (proj1 (Forall_forall _ _) Hlit t Ht).
    - by apply (proj1 (Forall_forall _ _) Htoks t Ht). }
  assert (split (list_ascii_of_string text) = tok :: rest.*2) as Hsplit.
  { rewrite Htext, (split_spaces_l pre _ Hpre), (split_spaces_r _ post Hpost).
    by apply split_spaced. }
  assert (forallb (λ c, negb (is_comma c)) (list_ascii_of_string text) = true) as Hnc.
  { rewrite Htext, !forallb_app, (white_no_comma _ Hpre), (white_no_comma _ Hpost).
    by rewrite (spaced_no_comma tok rest Hseps Hlit). }
  split.
  - rewrite (parse_clue_line_words text Hnc); [by rewrite Hsplit|by rewrite Hsplit].
  - apply (parse_clue_text_several_words text Hnc). rewrite Hsplit.
    destruct rest; [done|]. simpl. lia.
Qed.

End text.

(** ** Claims about the clue parsers *)

(** C8, amended: every string that the collaborator's parser
    [parse_clue_text] accepts is accepted by the solver's parser
    [parse_clue_line], with the same integer sequence; and every string
    of several integer tokens separated by white space alone is
    accepted by [parse_clue_line], which returns the integers in order,
    and rejected by [parse_clue_text]: the collaborator's parser
    separates tokens at commas only. *)
Theorem parse_clue_text_accepted_by_line (text : string) (l : list Z) :
  (Text.parse_clue_text text = Some l → Text.parse_clue_line text = Ok l) ∧
  (separated_by_white_space text l →
   Text.parse_clue_line text = Ok l ∧ Text.parse_clue_text text = None).
Proof.
  split; [|apply parse_separated_by_white_space].
  unfold Text.parse_clue_text, Text.parse_clue_line.
  destruct (Text.strip (list_ascii_of_string text)) as [|c t]; [by intros [= <-]|].
  destruct (Text.mapM Text.int
    (List.filter Text.nonempty (Text.strip <$> Text.split_commas (c :: t))))
    as [l'|e] eqn:Hparts; [|done].
  intros [= ->]. rewrite filter_nonempty_split, split_replace_commas.
  by apply mapM_int_parts.
Qed.

Lemma parse_clue_text_accepted_by_line_witness :
  Text.parse_clue_line " 1, 2 ,,3 " = Ok [1; 2; 3] ∧
  (Text.parse_clue_line " 10  -2 +3 " = Ok [10; -2; 3] ∧
   Text.parse_clue_text " 10  -2 +3 " = None).
Proof.
  split.
  - apply (proj1 (parse_clue_text_accepted_by_line " 1, 2 ,,3 " [1; 2; 3])).
    vm_compute. reflexivity.
  - apply (proj2 (parse_clue_text_accepted_by_line " 10  -2 +3 " [10; -2; 3])).
    exists (list_ascii_of_string " "), (list_ascii_of_string "10"),
      [(list_ascii_of_string "  ", list_ascii_of_string "-2");
       (list_ascii_of_string " ", list_ascii_of_string "+3")],
      (list_ascii_of_string " ").
    split_and!; try reflexivity; try done.
    + repeat constructor; done.
    + repeat constructor.
Defined.

(** C8 as stated fails on integer tokens separated by white space
    alone: the solver's parser accepts ["1 2"], the collaborator's
    parser rejects it. *)
Lemma parse_clue_text_rejects_spaces :
  Text.parse_clue_line "1 2" = Ok [1; 2] ∧ Text.parse_clue_text "1 2" = None.
Proof. split; vm_compute; reflexivity. Qed.


(** ** Claims about level persistence *)

(** C9: the document written by [save_level] maps the saved name to
    the new object [{'rows': rows, 'cols': cols}], an object of exactly
    these two keys that hold the parsed row and column clues as lists
    of lists of integers, and every key with a different name has the
    value it had in the pre-existing document (none if it was not
    there); a pre-existing value under the saved name is overwritten. *)
Theorem save_level_merges (name_var : string) (row_entries col_entries : list string)
    (f : Levels.file) (write_ok : bool) (doc : gmap string Levels.json) :
  Levels.save_level name_var row_entries col_entries f write_ok
    = Ok (Levels.Saved doc) →
  ∃ rows cols,
    Levels.collect_clues row_entries col_entries = (Some rows, Some cols, None) ∧
    doc !! Levels.stripped name_var
      = Some (Levels.JDict
          {[ "rows" := Levels.JList ((λ r : list Z, Levels.JList (Levels.JInt <$> r)) <$> rows);
             "cols" := Levels.JList ((λ c : list Z, Levels.JList (Levels.JInt <$> c)) <$> cols) ]}) ∧
    ∀ key, key ≠ Levels.stripped name_var →
           doc !! key = Levels.existing f !! key.
Proof.
  unfold Levels.save_level.
  destruct (bool_decide _); [done|].
  destruct (Levels.collect_clues row_entries col_entries)
    as [[[rows|] [cols|]] [err|]] eqn:Hclues; try done.
  destruct (bool_decide _); [done|].
  intros H. inv_bind H. destruct write_ok; [|done]. injection H as <-.
  exists rows, cols. split; [done|].
  destruct a as [| | | | | |d]; try done. injection Ha0 as <-.
  assert (Levels.existing f = d) as ->.
  { destruct f as [| | |doc']; simpl in Ha; try done.
    - by injection Ha as <-.
    - by injection Ha as <-.
    - by injection Ha as ->. }
  split.
  - apply lookup_insert_eq.
  - intros key Hkey. by apply lookup_insert_ne.
Qed.

Lemma save_level_merges_witness :
  ∃ rows cols,
    Levels.collect_clues ["1"; "1"] ["2"; ""] = (Some rows, Some cols, None) ∧
    (<["lvl" := Levels.JDict
         {[ "rows" := Levels.JList [Levels.JList [Levels.JInt 1];
                                    Levels.JList [Levels.JInt 1]];
            "cols" := Levels.JList [Levels.JList [Levels.JInt 2]; Levels.JList []] ]}]>
       ({["lvl" := Levels.JNull; "other" := Levels.JInt 7]} : gmap string Levels.json))
      !! Levels.stripped " lvl "
      = Some (Levels.JDict
          {[ "rows" := Levels.JList ((λ r : list Z, Levels.JList (Levels.JInt <$> r)) <$> rows);
             "cols" := Levels.JList ((λ c : list Z, Levels.JList (Levels.JInt <$> c)) <$> cols) ]}) ∧
    ∀ key, key ≠ Levels.stripped " lvl " →
      (<["lvl" := Levels.JDict
           {[ "rows" := Levels.JList [Levels.JList [Levels.JInt 1];
                                      Levels.JList [Levels.JInt 1]];
              "cols" := Levels.JList [Levels.JList [Levels.JInt 2]; Levels.JList []] ]}]>
         ({["lvl" := Levels.JNull; "other" := Levels.JInt 7]} : gmap string Levels.json))
        !! key =
      Levels.existing
        (Levels.Holds (Levels.JDict {["lvl" := Levels.JNull; "other" := Levels.JInt 7]}))
        !! key.
Proof.
  apply (save_level_merges " lvl " ["1"; "1"] ["2"; ""]
           (Levels.Holds (Levels.JDict {["lvl" := Levels.JNull; "other" := Levels.JInt 7]}))
           true).
  reflexivity.
Defined.


(** * Further properties of the code *)

(** ** The generator *)

(** Whatever the integers passed as length and clues, every generated
    line has exactly [max(0, length)] cells and every cell is 0 or 1. *)
Theorem line_possibilities_shape (L : Z) (c : list Z) :
  Forall (λ x, py_len x = Z.max 0 L ∧ Forall is_bit x) (line_possibilities L c).
Proof.
  apply Forall_forall. intros x Hx. split.
  - by eapply line_possibilities_py_len.
  - by eapply line_possibilities_bits.
Qed.

(** For positive clues the generator produces exactly the lines of 0s
    and 1s of the given length whose runs of 1s are the clues: none is
    missing and none is wrong. *)
Theorem line_possibilities_exact (L : nat) (c x : list Z) :
  Forall (Z.lt 0) c →
  x ∈ line_possibilities (Z.of_nat L) c ↔
  Forall is_bit x ∧ length x = L ∧ runs x = c.
Proof.
  intros Hc. split.
  - intros Hx. split_and!.
    + by eapply line_possibilities_bits.
    + by eapply line_possibilities_length.
    + assert (Forall (Z.le 0) c) as Hnn.
      { eapply Forall_impl; [exact Hc|]. intros; simpl in *; lia. }
      rewrite (line_possibilities_runs_nonneg _ _ _ Hnn Hx).
      clear Hx Hnn. induction Hc as [|k c Hk _ IH]; simpl; [done|].
      destruct (Z.ltb_spec 0 k); [|lia]. by rewrite IH.
  - intros (Hbits & Hlen & <-). by apply line_possibilities_complete.
Qed.

Lemma line_possibilities_exact_witness :
  [0; 1; 1; 0; 1] ∈ line_possibilities (Z.of_nat 5) [2; 1] ↔
  Forall is_bit [0; 1; 1; 0; 1] ∧ length [0; 1; 1; 0; 1] = 5%nat ∧
  runs [0; 1; 1; 0; 1] = [2; 1].
Proof.
  apply (line_possibilities_exact 5 [2; 1] [0; 1; 1; 0; 1]).
  repeat constructor.
Defined.

(** With zero entries among the clues, a zero counts as an empty block:
    the runs of a generated line are the positive entries, in order. *)
Theorem line_possibilities_zero_clues (L : Z) (c x : list Z) :
  Forall (Z.le 0) c → x ∈ line_possibilities L c →
  runs x = List.filter (λ k, 0 <? k) c.
Proof. apply line_possibilities_runs_nonneg. Qed.

Lemma line_possibilities_zero_clues_witness :
  runs [1; 0; 0; 1] = List.filter (λ k, 0 <? k) [1; 0; 1].
Proof.
  apply (line_possibilities_zero_clues 4 [1; 0; 1] [1; 0; 0; 1]).
  - repeat constructor; lia.
  - vm_compute. apply list_elem_of_here.
Defined.

(** The leftmost placement always exists when the blocks and their
    gaps fit after the accumulator. *)
Lemma build_inhabited (L : Z) (rest acc : list Z) :
  Forall (Z.le 0) rest →
  py_len acc + py_sum rest + Z.max 0 (py_len rest - 1) ≤ L →
  ∃ x, x ∈ build L rest acc.
Proof.
  revert acc. induction rest as [|k rest' IH]; intros acc Hc Hroom.
  - rewrite build_nil. change (py_sum []) with 0 in Hroom.
    change (py_len (@nil Z)) with 0 in Hroom.
    rewrite decide_True by lia. eexists. apply list_elem_of_here.
  - apply Forall_cons in Hc as [Hk Hc'].
    rewrite py_sum_cons, py_len_cons in Hroom.
    pose proof (py_len_nonneg rest') as Hn.
    pose proof (py_sum_nonneg _ Hc') as Hs.
    destruct (IH (match rest' with
                  | [] => (acc ++ py_repeat 0 0) ++ py_repeat 1 k
                  | _ => ((acc ++ py_repeat 0 0) ++ py_repeat 1 k) ++ [0]
                  end) Hc') as [x Hx].
    { destruct rest' as [|k' rest''].
      - rewrite !py_len_app, !py_len_repeat.
        change (py_sum []) with 0 in *. change (py_len (@nil Z)) with 0 in *. lia.
      - rewrite !py_len_app, !py_len_repeat.
        change (py_len [0]) with 1. pose proof (py_len_nonneg rest'').
        rewrite (py_len_cons k' rest'') in *. lia. }
    exists x. rewrite build_cons. apply list_elem_of_bind. exists 0.
    split; [done|]. apply elem_of_py_range.
    rewrite py_sum_cons, py_len_cons. lia.
Qed.

(** For nonnegative clues the generator returns the empty list exactly
    when the clues are not empty and the blocks with their gaps do not
    fit: a line that fits structurally has at least one possibility. *)
Theorem line_possibilities_empty_iff (L : Z) (c : list Z) :
  Forall (Z.le 0) c →
  line_possibilities L c = [] ↔ c ≠ [] ∧ py_sum c + (py_len c - 1) > L.
Proof.
  intros Hc. rewrite line_possibilities_eq. destruct c as [|k c'].
  - split; [done|]. by intros [? _].
  - destruct (Z.gtb_spec (py_sum (k :: c') + (py_len (k :: c') - 1)) L) as [Hgt|Hle].
    + split; [intros _; split; [done|lia]|done].
    + split; [|intros [_ ?]; lia]. intros Hnil.
      destruct (build_inhabited L (k :: c') [] Hc) as [x Hx].
      { change (py_len (@nil Z)) with 0. pose proof (py_len_nonneg c').
        rewrite (py_len_cons k c') in *. lia. }
      rewrite Hnil in Hx. by apply elem_of_nil in Hx.
Qed.

Lemma line_possibilities_empty_iff_witness :
  line_possibilities 3 [2; 1] = [] ↔ [2; 1] ≠ [] ∧ py_sum [2; 1] + (py_len [2; 1] - 1) > 3.
Proof. apply (line_possibilities_empty_iff 3 [2; 1]). repeat constructor; lia. Defined.


(** ** The row order *)

Section row_order.
Import Solver.
Context (key : nat → Z).

(** The order of a stable sort: by key, and by position among equal
    keys. *)
Local Abbreviation before := (λ a b : nat, key a < key b ∨ (key a = key b ∧ (a < b)%nat)).

Lemma insert_by_sorted (x : nat) (l : list nat) :
  StronglySorted before l → Forall (λ y, x < y)%nat l →
  StronglySorted before (insert_by key x l).
Proof.
  induction 1 as [|y l Hl IH Hy]; intros Hx; simpl.
  - repeat constructor.
  - apply Forall_cons in Hx as [Hxy Hxl].
    destruct (Z.leb_spec (key x) (key y)) as [Hle|Hgt].
    + constructor; [by constructor|]. constructor; [lia|].
      apply Forall_forall. intros z Hz.
      pose proof (proj1 (Forall_forall _ _) Hy z Hz) as Hyz.
      pose proof (proj1 (Forall_forall _ _) Hxl z Hz) as Hxz.
      simpl in *. lia.
    + constructor; [by apply IH|].
      rewrite insert_by_perm. constructor; [lia|done].
Qed.

Lemma sorted_stable (l : list nat) :
  StronglySorted lt l → StronglySorted before (sorted l key).
Proof.
  induction 1 as [|x l Hl IH Hx]; simpl; [constructor|].
  apply insert_by_sorted; [done|]. by rewrite sorted_perm.
Qed.
End row_order.

(** The row order computed by [__init__] holds every row index once,
    rows with fewer possibilities come first, and rows with equally
    many possibilities keep their original order. *)
Theorem init_row_order (row_clues col_clues : list (list Z)) :
  let s := Solver.init row_clues col_clues in
  Solver.row_order s ≡ₚ seq 0 (Solver.R s) ∧
  StronglySorted
    (λ a b, py_len (Solver.row_poss s !!! a) < py_len (Solver.row_poss s !!! b) ∨
            (py_len (Solver.row_poss s !!! a) = py_len (Solver.row_poss s !!! b) ∧
             (a < b)%nat))
    (Solver.row_order s).
Proof.
  intros s. split.
  - apply (constructed_order s (init_constructed _ _)).
  - apply (sorted_stable (λ r, py_len (Solver.row_poss s !!! r))).
    generalize 0%nat. induction (length row_clues) as [|n IH]; intros i; simpl.
    + constructor.
    + constructor; [apply IH|]. apply Forall_forall.
      intros j Hj%elem_of_seq. lia.
Qed.

(** ** [solve] on a solver built by [__init__] *)

Lemma constructed_searched (s : Solver.NonogramSolver) (now : Z) (fr : Solver.frame) :
  Puzzle.constructed s →
  Puzzle.board_shape (Solver.R s) (Solver.C s) (Solver.f_board fr) →
  Puzzle.constructed (Solver.searched (Solver.started s now) fr).
Proof. intros (?&?&?&?&?&?) Hfr. by split_and!. Qed.

(** On a constructed solver [solve] raises nothing and leaves a
    constructed solver with the same clues. *)
Lemma solve_returns (clock : nat → Z) (s : Solver.NonogramSolver)
    (time_limit : option Z) (allow_partial : bool) :
  Puzzle.constructed s →
  ∃ found s',
    Solver.solve clock s time_limit allow_partial = Ok (found, s') ∧
    Puzzle.constructed s' ∧
    Solver.row_clues s' = Solver.row_clues s ∧
    Solver.col_clues s' = Solver.col_clues s.
Proof.
  intros Hs. unfold Solver.solve.
  destruct (negb allow_partial && _).
  - exists false, (Solver.started s (clock 0%nat)). by split_and!.
  - destruct (backtrack_from_total (Solver.started s (clock 0%nat)) clock
      time_limit (clock 0%nat) (Solver.col_poss s)
      (constructed_rows s Hs) (constructed_row_len s Hs)
      (constructed_cols s Hs) (constructed_col_len s Hs)
      (Solver.row_order s) (constructed_order_lt s Hs)
      {| Solver.f_board := Solver.board s; Solver.f_nodes := 0; Solver.f_reads := 1 |})
      as (found & fr & Hbt & Hshape).
    { by destruct Hs as (_&_&_&_&_&?). }
    destruct (Solver.backtrack _ _ _ _ _ _ _) as [[found' fr']|e] eqn:Hbt'.
    + assert (Ok (found', fr') = Ok (found, fr)) as [= -> ->]
        by (rewrite <-Hbt'; exact Hbt).
      exists found, (Solver.searched (Solver.started s (clock 0%nat)) fr).
      split_and!; try done. by apply constructed_searched.
    + assert (Raise e = Ok (found, fr)) by (rewrite <-Hbt'; exact Hbt). done.
Qed.

(** On a solver built by [__init__], after any number of earlier calls,
    [solve] never raises an exception, whatever the clock, the time
    limit and the mode, and the solver it leaves is again well formed
    for the same clues. *)
Theorem solve_never_raises (clock : nat → Z) (s : Solver.NonogramSolver)
    (time_limit : option Z) (allow_partial : bool) :
  Puzzle.constructed s →
  ∃ found s',
    Solver.solve clock s time_limit allow_partial = Ok (found, s') ∧
    Puzzle.constructed s' ∧
    Solver.row_clues s' = Solver.row_clues s ∧
    Solver.col_clues s' = Solver.col_clues s.
Proof. apply solve_returns. Qed.

Lemma solve_never_raises_witness :
  ∃ found s',
    Solver.solve (λ n, 7 * Z.of_nat n) (Solver.init [[1; 1]; [0]; [-2]] [[1]; [3]; []])
      (Some 20) true = Ok (found, s') ∧
    Puzzle.constructed s' ∧
    Solver.row_clues s' = Solver.row_clues (Solver.init [[1; 1]; [0]; [-2]] [[1]; [3]; []]) ∧
    Solver.col_clues s' = Solver.col_clues (Solver.init [[1; 1]; [0]; [-2]] [[1]; [3]; []]).
Proof.
  apply (solve_never_raises (λ n, 7 * Z.of_nat n)
           (Solver.init [[1; 1]; [0]; [-2]] [[1]; [3]; []]) (Some 20) true).
  apply init_constructed.
Defined.

(** In the strict mode, and in the permissive mode when there is at
    least one row, a call that returns [True] leaves no cell unknown,
    every row among its possibilities and every column among its
    possibilities. *)
Theorem solve_success_solved (clock : nat → Z) (s s' : Solver.NonogramSolver)
    (time_limit : option Z) (allow_partial : bool) :
  Puzzle.constructed s →
  (0 < Solver.R s)%nat ∨ allow_partial = false →
  Solver.solve clock s time_limit allow_partial = Ok (true, s') →
  Puzzle.solved s'.
Proof. apply solve_sound. Qed.

Lemma solve_success_solved_witness :
  ∃ s', Solver.solve (λ _, 0) (Solver.init [[1]; [1]] [[1]; [1]]) None true
          = Ok (true, s') ∧
        Puzzle.solved s'.
Proof.
  eexists. split; [vm_compute; reflexivity|].
  apply (solve_success_solved (λ _, 0) (Solver.init [[1]; [1]] [[1]; [1]]) _ None true).
  - apply init_constructed.
  - left. simpl. lia.
  - vm_compute. reflexivity.
Defined.

(** ** The grid on the board after a successful call *)

Section grid.
Import Solver Puzzle.

Lemma filled_values (b : list (list (option Z))) :
  filled b → b = board_of (values_of b).
Proof.
  unfold board_of, values_of.
  induction 1 as [|row b Hrow _ IH]; [done|]. csimpl. f_equal; [|done].
  clear -Hrow. induction Hrow as [|cell row [->| ->] _ IH]; csimpl; by f_equal.
Qed.

Lemma values_of_cells (p : list Z) : default 0 <$> (Some <$> p) = p.
Proof. induction p; csimpl; by f_equal. Qed.

Lemma column_of_values (b : list (list (option Z))) (c : nat) (p : list Z) :
  column_is b c p → column (values_of b) c = p.
Proof.
  unfold column_is, column, values_of. induction 1 as [|row v b p Hv _ IH]; [done|].
  csimpl. f_equal; [|done].
  apply list_lookup_total_correct. by rewrite list_lookup_fmap, Hv.
Qed.

(** A solved board is a grid of 0s and 1s whose rows and columns are
    among the possibilities. *)
Lemma solved_grid (s : NonogramSolver) :
  constructed s → solved s →
  ∃ G, board s = board_of G ∧
       length G = R s ∧
       Forall (λ row, length row = C s ∧ Forall is_bit row) G ∧
       (∀ r row, G !! r = Some row →
          ∃ poss, row_poss s !! r = Some poss ∧ row ∈ poss) ∧
       (∀ c, (c < C s)%nat →
          ∃ poss, col_poss s !! c = Some poss ∧ column G c ∈ poss).
Proof.
  intros Hs (Hfilled & Hrows & Hcols).
  set (G := values_of (board s)).
  assert (length G = R s) as HlenG.
  { unfold G, values_of. rewrite length_fmap. by destruct Hs as (_&_&_&_&_&[? _]). }
  assert (∀ r row, G !! r = Some row →
    ∃ poss, row_poss s !! r = Some poss ∧ row ∈ poss) as HG.
  { intros r row Hrow.
    destruct (Hrows r) as (poss & p & Hposs & Hp & Hrp).
    { rewrite <-HlenG. by eapply lookup_lt_Some. }
    exists poss. split; [done|]. unfold G, values_of in Hrow.
    rewrite list_lookup_fmap, Hrp in Hrow. simpl in Hrow.
    rewrite values_of_cells in Hrow. by injection Hrow as <-. }
  exists G. split_and!; [by apply filled_values|done| |done|].
  - apply Forall_lookup_2. intros r row Hrow.
    destruct (HG r row Hrow) as (poss & Hposs & Hin).
    split; [by eapply (constructed_row_len s Hs)|].
    apply (constructed_row_poss s Hs) in Hposs as (clues & _ & ->).
    by eapply line_possibilities_bits.
  - intros c Hc. destruct (Hcols c Hc) as (poss & p & Hposs & Hp & Hcp).
    exists poss. split; [done|]. unfold G. by rewrite (column_of_values _ _ _ Hcp).
Qed.

Lemma positive_filter (c : list Z) :
  Forall (Z.lt 0) c → List.filter (λ k, 0 <? k) c = c.
Proof.
  induction 1 as [|k c Hk _ IH]; simpl; [done|].
  destruct (Z.ltb_spec 0 k); [|lia]. by rewrite IH.
Qed.

Lemma possibility_runs (L : Z) (c x : list Z) :
  Forall (Z.lt 0) c → x ∈ line_possibilities L c → runs x = c.
Proof.
  intros Hc Hx.
  rewrite (line_possibilities_runs_nonneg L c x); [by apply positive_filter| |done].
  eapply Forall_impl; [exact Hc|]. intros; simpl in *; lia.
Qed.

(** With positive clues the grid on a solved board satisfies the
    clues. *)
Lemma solved_satisfies (s : NonogramSolver) :
  constructed s → solved s →
  Forall (Forall (Z.lt 0)) (row_clues s) →
  Forall (Forall (Z.lt 0)) (col_clues s) →
  ∃ G, satisfies (row_clues s) (col_clues s) G ∧
       board s = board_of G.
Proof.
  intros Hs Hsolved Hrpos Hcpos.
  destruct (solved_grid s Hs Hsolved) as (G & Hb & HlenG & Hcells & HGr & HGc).
  exists G. split; [|done].
  assert (C s = length (col_clues s)) as HC by (by destruct Hs as (_&?&_)).
  assert (R s = length (row_clues s)) as HR by (by destruct Hs as (?&_)).
  split_and!.
  - by rewrite <-HC.
  - apply Forall2_same_length_lookup_2; [congruence|].
    intros r row clues Hrow Hclues.
    destruct (HGr r row Hrow) as (poss & Hposs & Hin).
    apply (constructed_row_poss s Hs) in Hposs as (clues' & Hclues' & ->).
    assert (clues' = clues) as -> by congruence.
    eapply possibility_runs; [|done].
    by eapply (Forall_lookup_1 _ _ _ _ Hrpos).
  - intros c clues Hclues.
    destruct (HGc c) as (poss & Hposs & Hin).
    { rewrite HC. by eapply lookup_lt_Some. }
    apply (constructed_col_poss s Hs) in Hposs as (clues' & Hclues' & ->).
    assert (clues' = clues) as -> by congruence.
    eapply possibility_runs; [|done].
    by eapply (Forall_lookup_1 _ _ _ _ Hcpos).
Qed.
End grid.

(** A failed call gives the board back (shared form of the
    restoration lemma). *)
Lemma solve_false_board (clock : nat → Z) (s s' : Solver.NonogramSolver)
    (time_limit : option Z) (allow_partial : bool) :
  Solver.solve clock s time_limit allow_partial = Ok (false, s') →
  Solver.board s' = Solver.board s.
Proof.
  unfold Solver.solve. simpl.
  destruct (negb allow_partial && _); [by intros [= <-]|].
  intros H. inv_bind H. destruct a as [found fr].
  injection H as -> <-. simpl.
  unfold Solver.backtrack in Ha. simpl in Ha.
  by apply backtrack_from_restores in Ha.
Qed.

Lemma solve_true_grid (clock : nat → Z) (s s' : Solver.NonogramSolver)
    (time_limit : option Z) (allow_partial : bool) :
  Puzzle.constructed s →
  (0 < Solver.R s)%nat ∨ allow_partial = false →
  Forall (Forall (Z.lt 0)) (Solver.row_clues s) →
  Forall (Forall (Z.lt 0)) (Solver.col_clues s) →
  Solver.solve clock s time_limit allow_partial = Ok (true, s') →
  ∃ G, Puzzle.satisfies (Solver.row_clues s) (Solver.col_clues s) G ∧
       Solver.board s' = board_of G.
Proof.
  intros Hs Hmode Hrpos Hcpos Hsolve.
  destruct (solve_returns clock s time_limit allow_partial Hs)
    as (found & s1 & Hsolve1 & Hs1 & Hrc & Hcc).
  rewrite Hsolve in Hsolve1. injection Hsolve1 as Hfound Heq. subst found s1.
  rewrite <-Hrc, <-Hcc. apply solved_satisfies.
  - done.
  - exact (solve_sound clock s s' time_limit allow_partial Hs Hmode Hsolve).
  - by rewrite Hrc.
  - by rewrite Hcc.
Qed.

(** ** The result of [solve] and the puzzle *)

(** With positive clues, whenever [solve] returns [True] (in the strict
    mode, or with at least one row) the board holds a grid of 0s and 1s
    whose rows and columns have exactly the run lengths of the clues: a
    solution of the puzzle. *)
Theorem solve_success_satisfies (clock : nat → Z) (s s' : Solver.NonogramSolver)
    (time_limit : option Z) (allow_partial : bool) :
  Puzzle.constructed s →
  (0 < Solver.R s)%nat ∨ allow_partial = false →
  Forall (Forall (Z.lt 0)) (Solver.row_clues s) →
  Forall (Forall (Z.lt 0)) (Solver.col_clues s) →
  Solver.solve clock s time_limit allow_partial = Ok (true, s') →
  ∃ G, Puzzle.satisfies (Solver.row_clues s) (Solver.col_clues s) G ∧
       Solver.board s' = board_of G.
Proof. apply solve_true_grid. Qed.

Lemma solve_success_satisfies_witness :
  ∃ s', Solver.solve (λ _, 0) (Solver.init [[1]; [2]] [[1]; [2]]) None true
          = Ok (true, s') ∧
  ∃ G, Puzzle.satisfies [[1]; [2]] [[1]; [2]] G ∧
       Solver.board s' = board_of G.
Proof.
  eexists. split; [vm_compute; reflexivity|].
  apply (solve_success_satisfies (λ _, 0) (Solver.init [[1]; [2]] [[1]; [2]]) _ None true).
  - apply init_constructed.
  - left. simpl. lia.
  - repeat constructor.
  - repeat constructor.
  - vm_compute. reflexivity.
Defined.

(** With positive clues, on a puzzle that no grid satisfies [solve]
    returns [False], with or without a time limit, and the board is as
    it was (strict mode, or at least one row). *)
Theorem solve_unsatisfiable (clock : nat → Z) (s : Solver.NonogramSolver)
    (time_limit : option Z) (allow_partial : bool) :
  Puzzle.constructed s →
  (0 < Solver.R s)%nat ∨ allow_partial = false →
  Forall (Forall (Z.lt 0)) (Solver.row_clues s) →
  Forall (Forall (Z.lt 0)) (Solver.col_clues s) →
  (∀ G, ¬ Puzzle.satisfies (Solver.row_clues s) (Solver.col_clues s) G) →
  ∃ s', Solver.solve clock s time_limit allow_partial = Ok (false, s') ∧
        Solver.board s' = Solver.board s.
Proof.
  intros Hs Hmode Hrpos Hcpos Hunsat.
  destruct (solve_returns clock s time_limit allow_partial Hs)
    as ([] & s' & Hsolve & _).
  - destruct (solve_true_grid _ _ _ _ _ Hs Hmode Hrpos Hcpos Hsolve) as (G & HG & _).
    by destruct (Hunsat G).
  - exists s'. split; [done|]. by eapply solve_false_board.
Qed.

Lemma solve_unsatisfiable_witness :
  ∃ s', Solver.solve (λ _, 0) (Solver.init [[1]] [[]]) None true = Ok (false, s') ∧
        Solver.board s' = Solver.board (Solver.init [[1]] [[]]).
Proof.
  apply (solve_unsatisfiable (λ _, 0) (Solver.init [[1]] [[]]) None true).
  - apply init_constructed.
  - left. simpl. lia.
  - repeat constructor.
  - repeat constructor.
  - simpl. intros G (Hcells & Hrows & Hcols).
    destruct G as [|row G]; [by apply Forall2_nil_cons_inv in Hrows|].
    apply Forall2_cons in Hrows as [Hrun HG]. apply Forall2_nil_inv_r in HG as ->.
    apply Forall_cons in Hcells as [[Hlen Hbits] _].
    destruct row as [|x [|y row]]; [done| |done].
    apply Forall_cons in Hbits as [[->| ->] _]; [done|].
    specialize (Hcols 0%nat [] eq_refl). done.
Defined.

(** ** The time limit and the two modes *)

Section limit.
Import Solver.
Context (self : NonogramSolver) (col_poss_lists : list (list (list Z))).

Lemma try_candidates_ext rec1 rec2 r candidates :
  (∀ fr, rec1 fr = rec2 fr) →
  ∀ fr, try_candidates self col_poss_lists rec1 r candidates fr
        = try_candidates self col_poss_lists rec2 r candidates fr.
Proof.
  intros Hrec. induction candidates as [|p candidates IH]; intros fr; simpl; [done|].
  destruct (index (f_board fr) r) as [old_row|]; simpl; [|done].
  destruct (write_row (C self) (f_board fr) r (Some <$> p)) as [b|]; simpl; [|done].
  destruct (columns_ok (R self) (C self) col_poss_lists b) as [ok|]; simpl; [|done].
  destruct ok; simpl.
  - rewrite Hrec. destruct (rec2 (with_board fr b)) as [[found fr']|]; simpl; [|done].
    destruct found; [done|].
    destruct (write_row (C self) (f_board fr') r old_row); simpl; [|done]. apply IH.
  - destruct (write_row (C self) b r old_row); simpl; [|done]. apply IH.
Qed.

Local Arguments try_candidates : simpl never.

(** A time limit of 0 is no time limit: the clock is never read. *)
Lemma backtrack_from_zero_limit clock start order fr :
  backtrack_from clock self (Some 0) start col_poss_lists order fr
  = backtrack_from clock self None start col_poss_lists order fr.
Proof.
  revert fr. induction order as [|r order IH]; intros fr; simpl; [done|].
  destruct (index (row_poss self) r) as [poss|]; simpl; [|done].
  destruct (filterM _ poss) as [[|p candidates]|]; simpl; [done| |done].
  by apply try_candidates_ext.
Qed.
End limit.

(** [solve(time_limit=0)] is [solve(time_limit=None)]: since the test
    is [time_limit and ...], a limit of 0 never times out. *)
Theorem solve_zero_limit (clock : nat → Z) (s : Solver.NonogramSolver)
    (allow_partial : bool) :
  Solver.solve clock s (Some 0) allow_partial
  = Solver.solve clock s None allow_partial.
Proof.
  unfold Solver.solve, Solver.backtrack.
  destruct (negb allow_partial && _); [done|].
  by rewrite backtrack_from_zero_limit.
Qed.

(** On a solver with at least one row the two modes return the same
    answer and leave the same board, whatever the clock and the time
    limit: the permissive mode only finds later what the static check
    of the strict mode finds at once. *)
Theorem solve_modes_agree (clock : nat → Z) (s : Solver.NonogramSolver)
    (time_limit : option Z) :
  Puzzle.constructed s → (0 < Solver.R s)%nat →
  ∃ found s1 s2,
    Solver.solve clock s time_limit true = Ok (found, s1) ∧
    Solver.solve clock s time_limit false = Ok (found, s2) ∧
    Solver.board s1 = Solver.board s2.
Proof.
  intros Hs HR.
  destruct (solve_returns clock s time_limit true Hs) as (found & s1 & Hsolve & Hs1 & _).
  destruct (Solver.some_empty (Solver.row_poss s) || Solver.some_empty (Solver.col_poss s))
    eqn:Hcheck.
  - (* the static check fails: the search cannot succeed either *)
    assert (Solver.solve clock s time_limit false
            = Ok (false, Solver.started s (clock 0%nat))) as Hstrict.
    { unfold Solver.solve. simpl. by rewrite Hcheck. }
    destruct found.
    + exfalso.
      pose proof (solve_sound clock s s1 time_limit true Hs (or_introl HR) Hsolve)
        as (_ & Hrows & Hcols).
      assert (Solver.row_poss s1 = Solver.row_poss s ∧
              Solver.col_poss s1 = Solver.col_poss s ∧
              Solver.R s1 = Solver.R s ∧ Solver.C s1 = Solver.C s) as (Hrp & Hcp & HR1 & HC1).
      { revert Hsolve. unfold Solver.solve. simpl. intros H. inv_bind H.
        destruct a as [found fr]. by injection H as _ <-. }
      rewrite Hrp, Hcp, HR1, HC1 in *.
      apply orb_true_iff in Hcheck as [He|He];
        apply existsb_exists in He as (poss & Hin & Hnil);
        apply bool_decide_eq_true in Hnil as ->;
        apply list_elem_of_In, list_elem_of_lookup in Hin as [i Hi].
      * destruct (Hrows i) as (poss & p & Hposs & Hp & _).
        { rewrite <-(constructed_rows s Hs). by eapply lookup_lt_Some. }
        rewrite Hi in Hposs. injection Hposs as <-. by apply elem_of_nil in Hp.
      * destruct (Hcols i) as (poss & p & Hposs & Hp & _).
        { rewrite <-(constructed_cols s Hs). by eapply lookup_lt_Some. }
        rewrite Hi in Hposs. injection Hposs as <-. by apply elem_of_nil in Hp.
    + exists false, s1, (Solver.started s (clock 0%nat)). split_and!; [done..|].
      by apply solve_false_board in Hsolve.
  - (* the static check passes: both modes run the same search *)
    exists found, s1, s1. split_and!; [done| |done].
    rewrite <-Hsolve. unfold Solver.solve. simpl. by rewrite Hcheck.
Qed.

Lemma solve_modes_agree_witness :
  ∃ found s1 s2,
    Solver.solve (λ _, 0) (Solver.init [[2]; [5]] [[1]; [1]]) None true = Ok (found, s1) ∧
    Solver.solve (λ _, 0) (Solver.init [[2]; [5]] [[1]; [1]]) None false = Ok (found, s2) ∧
    Solver.board s1 = Solver.board s2.
Proof.
  apply (solve_modes_agree (λ _, 0) (Solver.init [[2]; [5]] [[1]; [1]]) None).
  - apply init_constructed.
  - simpl. lia.
Defined.

(** ** The node counter *)

Section nodes.
Import Solver.
Context (clock : nat → Z) (self : NonogramSolver).
Context (time_limit : option Z) (start : Z).
Context (col_poss_lists : list (list (list Z))).

Lemma try_candidates_nodes rec r candidates (n : Z) :
  (∀ fr (found : bool) fr', rec fr = Ok (found, fr') →
     f_nodes fr + (if found then n else 0) ≤ f_nodes fr') →
  0 ≤ n →
  ∀ fr (found : bool) fr',
    try_candidates self col_poss_lists rec r candidates fr = Ok (found, fr') →
    f_nodes fr + (if found then n else 0) ≤ f_nodes fr'.
Proof.
  intros Hrec Hn. induction candidates as [|p candidates IH]; intros fr found fr' H.
  - injection H as <- <-. lia.
  - apply try_candidates_cons in H
      as (old_row & b & ok & found1 & fr1 & _ & _ & _ & Hstep & Hrest).
    assert (f_nodes fr + (if found1 then n else 0) ≤ f_nodes fr1) as Hfr1.
    { destruct ok; [by apply Hrec in Hstep|]. injection Hstep as <- <-. simpl. lia. }
    destruct found1.
    + injection Hrest as -> ->. done.
    + destruct Hrest as (b' & _ & Hrest). apply IH in Hrest. simpl in Hrest.
      destruct found; lia.
Qed.

(** Every call of [backtrack] that gets past the timeout test and the
    last row counts one node. *)
Lemma backtrack_from_nodes order :
  ∀ fr (found : bool) fr',
    backtrack_from clock self time_limit start col_poss_lists order fr
      = Ok (found, fr') →
    f_nodes fr + (if found then Z.of_nat (length order) else 0) ≤ f_nodes fr'.
Proof.
  induction order as [|r order IH]; intros fr found fr'; simpl;
    destruct (timeout_board clock time_limit start fr) as [_ Hn];
    destruct (timeout clock time_limit start fr) as [expired fr0];
    simpl in Hn; destruct expired.
  - intros [= <- <-]. lia.
  - intros [= <- <-]. simpl. lia.
  - intros [= <- <-]. lia.
  - intros H. inv_bind H. destruct a0 as [|p candidates].
    + injection H as <- <-. simpl. lia.
    + apply (try_candidates_nodes _ _ _ (Z.of_nat (length order))) in H;
        [|exact IH|lia]. simpl in H. destruct found; lia.
Qed.
End nodes.

(** After [solve] the node counter is not negative, and after a
    successful call it counts at least one node for every row. *)
Theorem solve_nodes (clock : nat → Z) (s s' : Solver.NonogramSolver)
    (time_limit : option Z) (allow_partial found : bool) :
  Puzzle.constructed s →
  Solver.solve clock s time_limit allow_partial = Ok (found, s') →
  0 ≤ Solver.nodes s' ∧ (found = true → Z.of_nat (Solver.R s) ≤ Solver.nodes s').
Proof.
  intros Hs. unfold Solver.solve. simpl.
  destruct (negb allow_partial && _); [by intros [= <- <-]|].
  intros H. inv_bind H. destruct a as [found' fr]. injection H as -> <-. simpl.
  unfold Solver.backtrack in Ha. rewrite drop_0 in Ha.
  apply backtrack_from_nodes in Ha. simpl in Ha.
  pose proof (Permutation_length (constructed_order s Hs)) as Hlen.
  rewrite length_seq in Hlen. destruct found; [|lia].
  split; [lia|]. intros _. lia.
Qed.

Lemma solve_nodes_witness :
  ∃ s', Solver.solve (λ _, 0) (Solver.init [[1]; [1]] [[1]; [1]]) None true
          = Ok (true, s') ∧
        0 ≤ Solver.nodes s' ∧
        (true = true → Z.of_nat (Solver.R (Solver.init [[1]; [1]] [[1]; [1]]))
                       ≤ Solver.nodes s').
Proof.
  eexists. split; [vm_compute; reflexivity|].
  apply (solve_nodes (λ _, 0) (Solver.init [[1]; [1]] [[1]; [1]]) _ None true true).
  - apply init_constructed.
  - vm_compute. reflexivity.
Defined.

(** ** The partial-row test *)

(** [is_consistent_with_partial_row(r, candidate)] is [True] exactly
    when the candidate has the value of every known cell of row [r]; an
    unknown cell matches anything.  It raises nothing when the row and
    the candidate have at least [C] cells. *)
Theorem is_consistent_with_partial_row_spec (C r : nat)
    (b : list (list (option Z))) (row : list (option Z)) (candidate : list Z) :
  b !! r = Some row → (C ≤ length row)%nat → (C ≤ length candidate)%nat →
  ∃ ok, Solver.is_consistent_with_partial_row C b r candidate = Ok ok ∧
        (ok = true ↔
         ∀ c v, (c < C)%nat → row !! c = Some (Some v) → candidate !! c = Some v).
Proof.
  intros Hrow Hlen Hcand.
  destruct (allM_total
    (λ c, index b r ≫= λ row, index row c ≫= λ val, Solver.cell_agrees val candidate c)
    (seq 0 C)) as [ok Hok].
  { intros c Hc%elem_of_seq.
    destruct (lookup_lt_is_Some_2 row c) as [val Hval]; [lia|].
    rewrite (cell_test_eval _ _ _ _ _ _ _ Hrow Hval).
    apply cell_agrees_total. lia. }
  exists ok. split; [exact Hok|]. split.
  - intros ->. intros c v Hc Hv.
    pose proof (proj1 (allM_true _ _) Hok c) as Hcell. cbv beta in Hcell.
    rewrite (cell_test_eval _ _ _ _ _ _ _ Hrow Hv) in Hcell.
    specialize (Hcell ltac:(apply elem_of_seq; lia)). simpl in Hcell.
    inv_bind Hcell. apply index_Ok in Ha. injection Hcell as Hdec.
    apply bool_decide_eq_true in Hdec. by subst.
  - intros Hall.
    assert (Solver.is_consistent_with_partial_row C b r candidate = Ok true) as Htrue.
    { apply allM_true. intros c Hc%elem_of_seq.
      destruct (lookup_lt_is_Some_2 row c) as [val Hval]; [lia|].
      rewrite (cell_test_eval _ _ _ _ _ _ _ Hrow Hval).
      destruct val as [v|]; simpl; [|done].
      rewrite (index_lookup _ _ _ (Hall c v ltac:(lia) Hval)). simpl.
      f_equal. by apply bool_decide_eq_true. }
    unfold Solver.is_consistent_with_partial_row in Htrue. congruence.
Qed.

Lemma is_consistent_with_partial_row_spec_witness :
  ∃ ok, Solver.is_consistent_with_partial_row 3 [[Some 1; None; Some 0]] 0 [1; 1; 0]
          = Ok ok ∧
        (ok = true ↔
         ∀ c v, (c < 3)%nat → [Some 1; None; Some 0] !! c = Some (Some v) →
                [1; 1; 0] !! c = Some v).
Proof.
  apply (is_consistent_with_partial_row_spec 3 0 [[Some 1; None; Some 0]]
           [Some 1; None; Some 0] [1; 1; 0]).
  - reflexivity.
  - simpl. lia.
  - simpl. lia.
Defined.

(** ** Calling [solve] again on a solved board *)

Section again.
Import Solver Puzzle.
Context (clock : nat → Z) (self : NonogramSolver) (start : Z).
Context (col_poss_lists : list (list (list Z))).
Context (G : list (list Z)).
Hypothesis Hrows : length (row_poss self) = R self.
Hypothesis Hrow_len : ∀ r poss p,
  row_poss self !! r = Some poss → p ∈ poss → length p = C self.
Hypothesis Hcols : length col_poss_lists = C self.
Hypothesis Hcol_len : ∀ c poss p,
  col_poss_lists !! c = Some poss → p ∈ poss → length p = R self.
Hypothesis HG_rows : length G = R self.
Hypothesis HG_cols : Forall (λ row, length row = C self) G.
Hypothesis HG_row_poss : ∀ r row,
  G !! r = Some row → ∃ poss, row_poss self !! r = Some poss ∧ row ∈ poss.
Hypothesis HG_col_poss : ∀ c,
  (c < C self)%nat → ∃ poss, col_poss_lists !! c = Some poss ∧ column G c ∈ poss.

Lemma board_of_agrees : agrees_with (board_of G) G.
Proof using Type.
  unfold agrees_with, board_of. apply Forall2_fmap_l, Forall_Forall2_diag.
  apply Forall_forall. intros row _.
  apply Forall2_fmap_l, Forall_Forall2_diag, Forall_forall.
  intros g _ v. by intros [= ->].
Qed.

(** Only the line already in a filled row passes the partial-row
    test. *)
Lemma is_consistent_filled r grow q :
  G !! r = Some grow → length q = C self →
  is_consistent_with_partial_row (C self) (board_of G) r q = Ok true →
  q = grow.
Proof using All.
  intros Hgrow Hq Hok.
  assert (length grow = C self) as Hglen
    by (by eapply (Forall_lookup_1 _ _ _ _ HG_cols)).
  apply list_eq_same_length with (C self); [done..|].
  intros c x y Hc Hx Hy.
  pose proof (proj1 (allM_true _ _) Hok c) as Hcell. cbv beta in Hcell.
  assert (board_of G !! r = Some (Some <$> grow)) as Hrow.
  { unfold board_of. by rewrite list_lookup_fmap, Hgrow. }
  assert ((Some <$> grow) !! c = Some (Some y)) as Hval.
  { by rewrite list_lookup_fmap, Hy. }
  rewrite (cell_test_eval _ _ _ _ _ _ _ Hrow Hval) in Hcell.
  specialize (Hcell ltac:(apply elem_of_seq; lia)). simpl in Hcell.
  rewrite (index_lookup _ _ _ Hx) in Hcell. simpl in Hcell.
  injection Hcell as Hdec. apply bool_decide_eq_true in Hdec. by subst.
Qed.

Lemma backtrack_from_again order :
  Forall (λ r, r < R self)%nat order →
  ∀ fr, f_board fr = board_of G →
    ∃ fr', backtrack_from clock self None start col_poss_lists order fr
             = Ok (true, fr') ∧
           f_board fr' = board_of G.
Proof using All.
  induction 1 as [|r order' Hr Horder IH]; intros fr Hfr; simpl; [by eauto|].
  destruct (lookup_lt_is_Some_2 G r) as [grow Hgrow]; [lia|].
  destruct (HG_row_poss r grow Hgrow) as (poss & Hposs & Hin).
  rewrite (index_lookup _ _ _ Hposs). simpl.
  pose proof board_of_agrees as Hagree.
  pose proof (agrees_shape clock self start col_poss_lists G Hrows Hrow_len Hcols Hcol_len HG_rows HG_cols HG_row_poss HG_col_poss _ Hagree) as Hshape.
  rewrite Hfr.
  destruct (filterM_total
    (is_consistent_with_partial_row (C self) (board_of G) r) poss)
    as [candidates Hcands].
  { intros p Hp. apply (is_consistent_total self); [done..|by eapply Hrow_len]. }
  rewrite Hcands. simpl.
  assert (grow ∈ candidates) as Hgc.
  { apply (filterM_Ok _ _ _ Hcands). split; [done|].
    by apply (is_consistent_solution clock self start col_poss_lists G Hrows Hrow_len Hcols Hcol_len HG_rows HG_cols HG_row_poss HG_col_poss). }
  destruct candidates as [|p candidates]; [by apply elem_of_nil in Hgc|].
  assert (p = grow) as ->.
  { assert (p ∈ p :: candidates) as Hp by left.
    apply (filterM_Ok _ _ _ Hcands) in Hp as [Hp Hok].
    apply (is_consistent_filled r); [done|by eapply Hrow_len|done]. }
  assert (board_of G !! r = Some (Some <$> grow)) as Hrow.
  { unfold board_of. by rewrite list_lookup_fmap, Hgrow. }
  assert (length grow = C self) as Hglen
    by (by eapply (Forall_lookup_1 _ _ _ _ HG_cols)).
  simpl. rewrite (index_lookup _ _ _ Hrow). simpl.
  rewrite (write_row_shape self _ _ _ _ Hrow) by (by rewrite length_fmap).
  simpl. rewrite (list_insert_id _ _ _ Hrow).
  rewrite (columns_ok_solution clock self start col_poss_lists G Hrows Hrow_len Hcols Hcol_len HG_rows HG_cols HG_row_poss HG_col_poss _ Hagree). simpl.
  destruct (IH (with_board
    {| f_board := board_of G; f_nodes := f_nodes fr + 1; f_reads := f_reads fr |}
    (board_of G))) as (fr' & -> & Hfr'); [done|].
  simpl. eauto.
Qed.
End again.

(** On a constructed solver whose board is solved, [solve] without time
    limit returns [True] again, in either mode, and leaves the board as
    it is. *)
Theorem solve_again (clock : nat → Z) (s : Solver.NonogramSolver)
    (allow_partial : bool) :
  Puzzle.constructed s → Puzzle.solved s →
  ∃ s', Solver.solve clock s None allow_partial = Ok (true, s') ∧
        Solver.board s' = Solver.board s.
Proof.
  intros Hs Hsolved.
  destruct (solved_grid s Hs Hsolved) as (G & Hb & HlenG & Hcells & HGr & HGc).
  assert (Forall (λ row, length row = Solver.C s) G) as HG_cols.
  { eapply Forall_impl; [exact Hcells|]. by intros row [? _]. }
  unfold Solver.solve.
  change (Solver.row_poss (Solver.started s (clock 0%nat))) with (Solver.row_poss s).
  change (Solver.col_poss (Solver.started s (clock 0%nat))) with (Solver.col_poss s).
  assert (Solver.some_empty (Solver.row_poss s) = false) as ->.
  { apply some_empty_false. intros poss (r & Hr)%list_elem_of_lookup ->.
    destruct (lookup_lt_is_Some_2 G r) as [row Hrow].
    { apply lookup_lt_Some in Hr. rewrite (constructed_rows s Hs) in Hr. lia. }
    destruct (HGr r row Hrow) as (poss & Hposs & Hin).
    rewrite Hr in Hposs. injection Hposs as <-. by apply elem_of_nil in Hin. }
  assert (Solver.some_empty (Solver.col_poss s) = false) as ->.
  { apply some_empty_false. intros poss (c & Hc)%list_elem_of_lookup ->.
    destruct (HGc c) as (poss & Hposs & Hin).
    { apply lookup_lt_Some in Hc. by rewrite (constructed_cols s Hs) in Hc. }
    rewrite Hc in Hposs. injection Hposs as <-. by apply elem_of_nil in Hin. }
  rewrite andb_false_r.
  destruct (backtrack_from_again clock (Solver.started s (clock 0%nat))
    (clock 0%nat) (Solver.col_poss s) G
    (constructed_rows s Hs) (constructed_row_len s Hs)
    (constructed_cols s Hs) (constructed_col_len s Hs)
    HlenG HG_cols HGr HGc
    (Solver.row_order s) (constructed_order_lt s Hs)
    {| Solver.f_board := Solver.board s; Solver.f_nodes := 0; Solver.f_reads := 1 |})
    as (fr' & Hfr' & Hboard); [done|].
  destruct (Solver.backtrack _ _ _ _ _ _ _) as [[found fr]|e] eqn:Hbt.
  - assert (Ok (found, fr) = Ok (true, fr')) as [= -> ->]
      by (rewrite <-Hbt; exact Hfr').
    simpl. eexists. split; [done|]. simpl. congruence.
  - assert (Raise e = Ok (true, fr')) by (rewrite <-Hbt; exact Hfr'). done.
Qed.

Lemma solve_again_witness :
  ∃ s', Solver.solve (λ _, 0)
          {| Solver.R := 2; Solver.C := 2;
             Solver.row_clues := [[1]; [1]]; Solver.col_clues := [[1]; [1]];
             Solver.row_poss := [[[1; 0]; [0; 1]]; [[1; 0]; [0; 1]]];
             Solver.col_poss := [[[1; 0]; [0; 1]]; [[1; 0]; [0; 1]]];
             Solver.board := [[Some 0; Some 1]; [Some 1; Some 0]];
             Solver.row_order := [0; 1]%nat;
             Solver.start_time := Some 0; Solver.nodes := 2 |} None false
          = Ok (true, s') ∧
        Solver.board s' = [[Some 0; Some 1]; [Some 1; Some 0]].
Proof.
  apply (solve_again (λ _, 0)
    {| Solver.R := 2; Solver.C := 2;
       Solver.row_clues := [[1]; [1]]; Solver.col_clues := [[1]; [1]];
       Solver.row_poss := [[[1; 0]; [0; 1]]; [[1; 0]; [0; 1]]];
       Solver.col_poss := [[[1; 0]; [0; 1]]; [[1; 0]; [0; 1]]];
       Solver.board := [[Some 0; Some 1]; [Some 1; Some 0]];
       Solver.row_order := [0; 1]%nat;
       Solver.start_time := Some 0; Solver.nodes := 2 |} false).
  - unfold Puzzle.constructed. simpl. split_and!; try reflexivity.
    split; [reflexivity|]. repeat constructor.
  - split_and!.
    + repeat first [apply Forall_nil_2 | apply Forall_cons_2
                   | (left; reflexivity) | (right; reflexivity)].
    + intros [|[|r]] Hr; simpl in Hr; [| |lia].
      * exists [[1; 0]; [0; 1]], [0; 1]. split_and!; [done| |done].
        apply list_elem_of_further, list_elem_of_here.
      * exists [[1; 0]; [0; 1]], [1; 0]. split_and!; [done| |done].
        apply list_elem_of_here.
    + intros [|[|c]] Hc; simpl in Hc; [| |lia].
      * exists [[1; 0]; [0; 1]], [0; 1]. split_and!; [done| |repeat constructor].
        apply list_elem_of_further, list_elem_of_here.
      * exists [[1; 0]; [0; 1]], [1; 0]. split_and!; [done| |repeat constructor].
        apply list_elem_of_here.
Defined.


(** ** The clue parsers on comma-separated and on blank texts *)

Section text_extra.
Import Text.
Implicit Types (s t p : list ascii) (c : ascii).

Lemma split_one_token (parts : list (list ascii)) :
  Forall (λ p, forallb (λ c, negb (is_space c)) (strip p) = true) parts →
  concat (split <$> parts) = List.filter nonempty (strip <$> parts).
Proof.
  induction 1 as [|p parts Hp _ IH]; csimpl; [done|].
  rewrite IH, <-(split_strip p).
  destruct (strip p) as [|c q] eqn:Hq; [done|].
  by rewrite (split_word (c :: q)).
Qed.

Lemma lstrip_spaces s : forallb is_space s = true → lstrip s = [].
Proof.
  induction s as [|c s IH]; simpl; [done|].
  intros [Hc Hs]%andb_true_iff. rewrite Hc. auto.
Qed.

Lemma forallb_app_inv {A} (f : A → bool) (l1 l2 : list A) :
  forallb f (l1 ++ l2) = true → forallb f l1 = true ∧ forallb f l2 = true.
Proof. rewrite forallb_app. apply andb_true_iff. Qed.

(** Stripping keeps a text of white space and commas such a text. *)
Lemma strip_blank s :
  forallb (λ c, is_space c || is_comma c) s = true →
  forallb (λ c, is_space c || is_comma c) (strip s) = true.
Proof.
  intros Hs. unfold strip.
  destruct (lstrip_spec s) as (a & Ha & _).
  destruct (rstrip_spec (lstrip s)) as (b & Hb & _).
  rewrite Ha in Hs. apply forallb_app_inv in Hs as [_ Hs].
  rewrite Hb in Hs. by apply forallb_app_inv in Hs as [Hs _].
Qed.

Lemma replace_commas_blank s :
  forallb (λ c, is_space c || is_comma c) s = true →
  forallb is_space (replace_commas s) = true.
Proof.
  unfold replace_commas. induction s as [|c s IH]; csimpl; [done|].
  intros [Hc Hs]%andb_true_iff. rewrite (IH Hs), andb_true_r.
  destruct (is_comma c); [done|]. by rewrite orb_false_r in Hc.
Qed.

Lemma fields_blank s :
  forallb (λ c, is_space c || is_comma c) s = true →
  Forall (λ p, forallb is_space p = true) (split_commas s).
Proof.
  unfold split_commas. induction s as [|c s IH]; simpl; [by repeat constructor|].
  intros [Hc Hs]%andb_true_iff. specialize (IH Hs).
  destruct (is_comma c) eqn:Hcomma; [by constructor|].
  rewrite orb_false_r in Hc.
  destruct (fields is_comma s) as [|w ws]; [by repeat constructor; simpl; rewrite Hc|].
  apply Forall_cons in IH as [Hw Hws]. constructor; [|done]. simpl. by rewrite Hc, Hw.
Qed.

Lemma strip_spaces s : forallb is_space s = true → strip s = [].
Proof. intros Hs. unfold strip. by rewrite (lstrip_spaces _ Hs). Qed.

Lemma filter_strip_blank (parts : list (list ascii)) :
  Forall (λ p, forallb is_space p = true) parts →
  List.filter nonempty (strip <$> parts) = [].
Proof.
  induction 1 as [|p parts Hp _ IH]; csimpl; [done|].
  by rewrite (strip_spaces _ Hp).
Qed.
End text_extra.

(** When white space stands only around the tokens (at most one token
    between two commas), the two parsers agree completely: the same
    integers when the text is accepted, and [None] from
    [parse_clue_text] exactly when [parse_clue_line] raises. *)
Theorem parsers_agree_on_comma_separated (text : string) :
  one_token_per_field text →
  Text.parse_clue_text text =
  match Text.parse_clue_line text with Ok l => Some l | Raise _ => None end.
Proof.
  unfold one_token_per_field, Text.parse_clue_text, Text.parse_clue_line.
  destruct (Text.strip (list_ascii_of_string text)) as [|c t]; [done|].
  intros Hfields.
  rewrite filter_nonempty_split, split_replace_commas, (split_one_token _ Hfields).
  by destruct (Text.mapM _ _).
Qed.

Lemma parsers_agree_on_comma_separated_witness :
  Text.parse_clue_text " 3 ,x, 1" =
  match Text.parse_clue_line " 3 ,x, 1" with Ok l => Some l | Raise _ => None end.
Proof.
  apply (parsers_agree_on_comma_separated " 3 ,x, 1").
  unfold one_token_per_field. vm_compute. repeat constructor.
Defined.

(** A text of nothing but white space and commas (the empty text
    too) is the empty clue sequence for both parsers, not an error. *)
Theorem parsers_blank (text : string) :
  blank text →
  Text.parse_clue_line text = Ok [] ∧ Text.parse_clue_text text = Some [].
Proof.
  unfold blank, Text.parse_clue_text, Text.parse_clue_line. intros Hblank.
  apply strip_blank in Hblank.
  destruct (Text.strip (list_ascii_of_string text)) as [|c t]; [done|].
  rewrite filter_nonempty_split.
  rewrite (split_spaces _ (replace_commas_blank _ Hblank)).
  by rewrite (filter_strip_blank _ (fields_blank _ Hblank)).
Qed.

Lemma parsers_blank_witness :
  Text.parse_clue_line " , ,, " = Ok [] ∧ Text.parse_clue_text " , ,, " = Some [].
Proof. apply (parsers_blank " , ,, "). vm_compute. reflexivity. Defined.


(** ** Collecting the clues and saving a level *)

Section levels_extra.
Import Levels.

Lemma parse_entries_Some (entries : list string) (rows : list (list Z)) :
  parse_entries entries = Some rows ↔
  Forall2 (λ e parsed, Text.parse_clue_text e = Some parsed) entries rows.
Proof.
  revert rows. induction entries as [|e entries IH]; intros rows; simpl.
  - split; [intros [= <-]; constructor|]. by intros ->%Forall2_nil_inv_l.
  - destruct (Text.parse_clue_text e) as [parsed|] eqn:He.
    + destruct (parse_entries entries) as [rows'|] eqn:Hrest; simpl.
      * split.
        -- intros [= <-]. constructor; [done|]. by apply IH.
        -- intros (p & rows'' & Hp & Hrows & ->)%Forall2_cons_inv_l.
           apply IH in Hrows. congruence.
      * split; [done|].
        intros (p & rows'' & Hp & Hrows & ->)%Forall2_cons_inv_l.
        by apply IH in Hrows.
    + split; [done|].
      intros (p & rows'' & Hp & _)%Forall2_cons_inv_l. congruence.
Qed.

(** What [save_level] writes, when it writes. *)
Lemma save_level_saved name_var row_entries col_entries f write_ok doc :
  save_level name_var row_entries col_entries f write_ok = Ok (Saved doc) →
  ∃ rows cols,
    collect_clues row_entries col_entries = (Some rows, Some cols, None) ∧
    doc = <[stripped name_var := level rows cols]> (existing f).
Proof.
  unfold save_level.
  destruct (bool_decide _); [done|].
  destruct (collect_clues row_entries col_entries)
    as [[[rows|] [cols|]] [err|]] eqn:Hclues; try done.
  destruct (bool_decide _); [done|].
  intros H. inv_bind H. destruct write_ok; [|done]. injection H as <-.
  exists rows, cols. split; [done|].
  destruct a as [| | | | | |d]; try done. injection Ha0 as <-.
  destruct f as [| | |doc']; simpl in Ha; try done.
  - by injection Ha as <-.
  - by injection Ha as <-.
  - by injection Ha as ->.
Qed.
End levels_extra.

(** [collect_clues] succeeds exactly when every entry parses: the rows
    and columns it returns are the parsed entries, one for each entry
    and in their order. *)
Theorem collect_clues_ok (row_entries col_entries : list string)
    (rows cols : list (list Z)) :
  Levels.collect_clues row_entries col_entries = (Some rows, Some cols, None) ↔
  Forall2 (λ e parsed, Text.parse_clue_text e = Some parsed) row_entries rows ∧
  Forall2 (λ e parsed, Text.parse_clue_text e = Some parsed) col_entries cols.
Proof.
  rewrite <-!parse_entries_Some. unfold Levels.collect_clues.
  destruct (Levels.parse_entries row_entries) as [rows'|];
    [|split; [done|by intros [? _]]].
  destruct (Levels.parse_entries col_entries) as [cols'|];
    [|split; [done|by intros [_ ?]]].
  split; [by intros [= -> ->]|by intros [[= ->] [= ->]]].
Qed.

(** [save_level] returns before it touches the file exactly when the
    stripped name is empty, an entry does not parse, or there is no row
    or no column entry; this does not depend on the file. *)
Theorem save_level_rejects (name_var : string) (row_entries col_entries : list string)
    (f : Levels.file) (write_ok : bool) :
  Levels.save_level name_var row_entries col_entries f write_ok = Ok Levels.NotSaved ↔
  Levels.stripped name_var = "" ∨
  Levels.parse_entries row_entries = None ∨
  Levels.parse_entries col_entries = None ∨
  row_entries = [] ∨ col_entries = [].
Proof.
  unfold Levels.save_level, Levels.collect_clues.
  destruct (bool_decide_reflect (Levels.stripped name_var = "")) as [Hname|Hname];
    [by split; [left|]|].
  destruct (Levels.parse_entries row_entries) as [rows|] eqn:Hrows;
    [|split; [by right; left|done]].
  destruct (Levels.parse_entries col_entries) as [cols|] eqn:Hcols;
    [|split; [by right; right; left|done]].
  apply parse_entries_Some, Forall2_length in Hrows, Hcols.
  destruct (bool_decide_reflect (length rows = 0%nat ∨ length cols = 0%nat))
    as [Hlen|Hlen].
  - split; [intros _|done]. right. right. right.
    destruct Hlen as [Hlen|Hlen]; [left|right]; apply nil_length_inv; congruence.
  - split.
    + destruct (Levels.load f) as [data|]; simpl; [|done].
      destruct (Levels.setitem data _ _); simpl; [|done]. by destruct write_ok.
    + intros [?|[?|[?|[->| ->]]]]; try done; exfalso; apply Hlen;
        [left|right]; simpl in *; congruence.
Qed.

(** When the file holds a JSON value that is not an object, a valid
    level is not saved: [data[name] = ...] raises [TypeError] before
    the file is opened for writing. *)
Theorem save_level_type_error (name_var : string) (row_entries col_entries : list string)
    (doc : Levels.json) (write_ok : bool) (rows cols : list (list Z)) :
  Levels.stripped name_var ≠ "" →
  Levels.collect_clues row_entries col_entries = (Some rows, Some cols, None) →
  rows ≠ [] → cols ≠ [] →
  (∀ d, doc ≠ Levels.JDict d) →
  Levels.save_level name_var row_entries col_entries (Levels.Holds doc) write_ok
    = Raise TypeError.
Proof.
  intros Hname Hclues Hrows Hcols Hdoc. unfold Levels.save_level.
  rewrite bool_decide_eq_false_2 by done. rewrite Hclues.
  rewrite bool_decide_eq_false_2.
  - simpl. destruct doc; try done. by destruct (Hdoc d).
  - intros [Hlen|Hlen]; apply nil_length_inv in Hlen; done.
Qed.

Lemma save_level_type_error_witness :
  Levels.save_level "a" ["1"] ["1"]
    (Levels.Holds (Levels.JList [Levels.JInt 1])) true = Raise TypeError.
Proof.
  apply (save_level_type_error "a" ["1"] ["1"] (Levels.JList [Levels.JInt 1]) true
           [[1]] [[1]]); done.
Defined.

(** When there is no file at the path, or the file is not valid JSON,
    the document written holds the saved level and nothing else: one
    key, the stripped name, with the object of the two keys ['rows']
    and ['cols'] that hold the parsed clues as lists of lists of
    integers. *)
Theorem save_level_fresh (name_var : string) (row_entries col_entries : list string)
    (f : Levels.file) (write_ok : bool) (doc : gmap string Levels.json) :
  f = Levels.Missing ∨ f = Levels.Malformed →
  Levels.save_level name_var row_entries col_entries f write_ok
    = Ok (Levels.Saved doc) →
  ∃ rows cols,
    Levels.collect_clues row_entries col_entries = (Some rows, Some cols, None) ∧
    doc = {[ Levels.stripped name_var :=
               Levels.JDict
                 {[ "rows" := Levels.JList ((λ r : list Z, Levels.JList (Levels.JInt <$> r)) <$> rows);
                    "cols" := Levels.JList ((λ c : list Z, Levels.JList (Levels.JInt <$> c)) <$> cols) ]} ]}.
Proof.
  intros Hf (rows & cols & Hclues & ->)%save_level_saved.
  exists rows, cols. split; [done|]. by destruct Hf as [-> | ->].
Qed.

Lemma save_level_fresh_witness :
  ∃ rows cols,
    Levels.collect_clues ["1, 1"] ["1"; ""; "1"] = (Some rows, Some cols, None) ∧
    ({["A" := Levels.JDict
         {[ "rows" := Levels.JList [Levels.JList [Levels.JInt 1; Levels.JInt 1]];
            "cols" := Levels.JList [Levels.JList [Levels.JInt 1]; Levels.JList [];
                                    Levels.JList [Levels.JInt 1]] ]}]}
       : gmap string Levels.json)
    = {[ Levels.stripped "A " :=
           Levels.JDict
             {[ "rows" := Levels.JList ((λ r : list Z, Levels.JList (Levels.JInt <$> r)) <$> rows);
                "cols" := Levels.JList ((λ c : list Z, Levels.JList (Levels.JInt <$> c)) <$> cols) ]} ]}.
Proof.
  apply (save_level_fresh "A " ["1, 1"] ["1"; ""; "1"] Levels.Malformed true).
  - by right.
  - reflexivity.
Defined.

(** Saving two levels with different names gives the same document in
    either order, and both levels are in it. *)
Theorem save_level_commute (name1 name2 : string)
    (rows1 cols1 rows2 cols2 : list string) (f : Levels.file)
    (d1 d12 d2 d21 : gmap string Levels.json) :
  Levels.stripped name1 ≠ Levels.stripped name2 →
  Levels.save_level name1 rows1 cols1 f true = Ok (Levels.Saved d1) →
  Levels.save_level name2 rows2 cols2 (Levels.Holds (Levels.JDict d1)) true
    = Ok (Levels.Saved d12) →
  Levels.save_level name2 rows2 cols2 f true = Ok (Levels.Saved d2) →
  Levels.save_level name1 rows1 cols1 (Levels.Holds (Levels.JDict d2)) true
    = Ok (Levels.Saved d21) →
  d12 = d21 ∧ d12 !! Levels.stripped name1 = d1 !! Levels.stripped name1 ∧
  d12 !! Levels.stripped name2 = d2 !! Levels.stripped name2.
Proof.
  intros Hne (r1 & c1 & Hc1 & ->)%save_level_saved
             (r2 & c2 & Hc2 & ->)%save_level_saved
             (r2' & c2' & Hc2' & ->)%save_level_saved
             (r1' & c1' & Hc1' & ->)%save_level_saved.
  rewrite Hc1 in Hc1'. injection Hc1' as <- <-.
  rewrite Hc2 in Hc2'. injection Hc2' as <- <-.
  simpl. split_and!.
  - by apply insert_insert_ne.
  - by rewrite lookup_insert_ne.
  - by rewrite !lookup_insert_eq.
Qed.

Lemma save_level_commute_witness :
  ∃ d12 d21 d1 d2 : gmap string Levels.json,
    Levels.save_level "a" ["1"] ["1"] Levels.Missing true = Ok (Levels.Saved d1) ∧
    Levels.save_level "b" ["2"] [""; "1"] Levels.Missing true = Ok (Levels.Saved d2) ∧
    d12 = d21 ∧ d12 !! Levels.stripped "a" = d1 !! Levels.stripped "a" ∧
    d12 !! Levels.stripped "b" = d2 !! Levels.stripped "b".
Proof.
  eexists _, _, _, _. split; [reflexivity|]. split; [reflexivity|].
  apply (save_level_commute "a" "b" ["1"] ["1"] ["2"] [""; "1"] Levels.Missing).
  - vm_compute. discriminate.
  - reflexivity.
  - reflexivity.
  - reflexivity.
  - reflexivity.
Defined.

(** Saving again under the same name forgets the earlier level: the
    document is the one that the second save alone would have written. *)
Theorem save_level_overwrite (name1 name2 : string)
    (rows1 cols1 rows2 cols2 : list string) (f : Levels.file)
    (d1 d12 d2 : gmap string Levels.json) :
  Levels.stripped name1 = Levels.stripped name2 →
  Levels.save_level name1 rows1 cols1 f true = Ok (Levels.Saved d1) →
  Levels.save_level name2 rows2 cols2 (Levels.Holds (Levels.JDict d1)) true
    = Ok (Levels.Saved d12) →
  Levels.save_level name2 rows2 cols2 f true = Ok (Levels.Saved d2) →
  d12 = d2.
Proof.
  intros Heq (r1 & c1 & Hc1 & ->)%save_level_saved
             (r2 & c2 & Hc2 & ->)%save_level_saved
             (r2' & c2' & Hc2' & ->)%save_level_saved.
  rewrite Hc2 in Hc2'. injection Hc2' as <- <-.
  simpl. rewrite Heq. by apply insert_insert_eq.
Qed.

Lemma save_level_overwrite_witness :
  ∃ d12 d2 : gmap string Levels.json,
    Levels.save_level " a" ["2"] [""; "1"]
      (Levels.Holds (Levels.JDict {["z" := Levels.JNull]})) true
      = Ok (Levels.Saved d2) ∧
    d12 = d2.
Proof.
  eexists _, _. split; [reflexivity|].
  apply (save_level_overwrite "a " " a" ["1"] ["1"] ["2"] [""; "1"]
           (Levels.Holds (Levels.JDict {["z" := Levels.JNull]}))
           (<["a" := Levels.level [[1]] [[1]]]> {["z" := Levels.JNull]})).
  - reflexivity.
  - reflexivity.
  - reflexivity.
  - reflexivity.
Defined.


(** ** The level editor *)

Section paint.
Import Editor.
Implicit Types (board : list (list (option Z))) (cells : list (list colour)).

Lemma alter_insert_same {A} (f : A → A) (l : list A) (i : nat) (x : A) :
  (i < length l)%nat → alter f i (<[i := x]> l) = <[i := f x]> l.
Proof.
  intros Hi. apply list_eq. intros j. destruct (decide (i = j)) as [->|Hne].
  - rewrite list_lookup_alter_eq, !list_lookup_insert_eq; by rewrite ?length_insert.
  - by rewrite list_lookup_alter_ne, !list_lookup_insert_ne.
Qed.

(** The drawing loop for one row, up to column [n]. *)
Lemma paint_row board cells r (crow : list colour) (brow : list (option Z)) (n : nat) :
  cells !! r = Some crow → board !! r = Some brow →
  (n ≤ length crow)%nat → (n ≤ length brow)%nat →
  foldl (λ cells c, paint_cell board cells r c) cells (seq 0 n)
  = <[r := (colour_of <$> take n brow) ++ drop n crow]> cells.
Proof.
  intros Hc Hb. induction n as [|n IH]; intros Hn1 Hn2.
  - simpl. rewrite drop_0. by rewrite list_insert_id.
  - rewrite seq_S, foldl_app, IH by lia. simpl.
    assert (r < length cells)%nat as Hr by (by eapply lookup_lt_Some).
    destruct (lookup_lt_is_Some_2 brow n) as [val Hval]; [lia|].
    destruct (lookup_lt_is_Some_2 crow n) as [col Hcol]; [lia|].
    unfold paint_cell. rewrite list_lookup_insert_eq by done. simpl.
    rewrite Hb. simpl. rewrite Hval.
    assert (((colour_of <$> take n brow) ++ drop n crow) !! n = Some col) as ->.
    { rewrite lookup_app_r; rewrite length_fmap, length_take; [|lia].
      rewrite lookup_drop. rewrite <-Hcol. f_equal. lia. }
    rewrite alter_insert_same by done. f_equal.
    rewrite (take_S_r _ _ _ Hval), fmap_app. simpl.
    rewrite <-(assoc_L (++)). simpl.
    rewrite insert_app_r_alt; rewrite length_fmap, length_take; [|lia].
    f_equal. replace (n - n `min` length brow)%nat with 0%nat by lia.
    rewrite (drop_S _ _ _ Hcol). done.
Qed.

(** The whole drawing loop on cells and a board of the same shape. *)
Lemma paint_rows board cells (C n : nat) :
  Forall (λ row, length row = C) board → Forall (λ row, length row = C) cells →
  (n ≤ length board)%nat → (n ≤ length cells)%nat →
  paint board n C cells
  = ((λ row : list (option Z), colour_of <$> row) <$> take n board) ++ drop n cells.
Proof.
  intros Hboard Hcells. unfold paint. induction n as [|n IH]; intros Hn1 Hn2.
  - by rewrite take_0, drop_0.
  - rewrite seq_S, foldl_app, IH by lia. simpl.
    destruct (lookup_lt_is_Some_2 board n) as [brow Hbrow]; [lia|].
    destruct (lookup_lt_is_Some_2 cells n) as [crow Hcrow]; [lia|].
    pose proof (Forall_lookup_1 _ _ _ _ Hboard Hbrow) as Hblen.
    pose proof (Forall_lookup_1 _ _ _ _ Hcells Hcrow) as Hclen.
    simpl in Hblen, Hclen.
    rewrite (paint_row board _ n crow brow C); [|
      rewrite lookup_app_r; rewrite length_fmap, length_take; [|lia];
      rewrite lookup_drop, <-Hcrow; f_equal; lia |done|lia|lia].
    rewrite take_ge, drop_ge, app_nil_r by lia.
    rewrite (take_S_r _ _ _ Hbrow), fmap_app. simpl.
    rewrite <-(assoc_L (++)). simpl.
    rewrite insert_app_r_alt; rewrite length_fmap, length_take; [|lia].
    f_equal. replace (n - n `min` length board)%nat with 0%nat by lia.
    by rewrite (drop_S _ _ _ Hcrow).
Qed.

Lemma paint_grid (G : list (list Z)) cells (C : nat) :
  Forall (λ row, length row = C) G → Forall (λ row, length row = C) cells →
  length cells = length G →
  paint (board_of G) (length G) C cells = colours_of G.
Proof.
  intros HG Hcells Hlen.
  rewrite (paint_rows _ _ C).
  - rewrite take_ge, drop_ge by (unfold board_of; rewrite ?length_fmap; lia).
    rewrite app_nil_r. unfold board_of, colours_of.
    rewrite <-list_fmap_compose. apply list_fmap_ext. intros _ row _. simpl.
    rewrite <-list_fmap_compose. by apply list_fmap_ext.
  - unfold board_of. apply Forall_fmap. eapply Forall_impl; [exact HG|].
    intros row Hrow. simpl. by rewrite length_fmap.
  - done.
  - unfold board_of. by rewrite length_fmap.
  - lia.
Qed.
End paint.

Lemma collect_clues_lengths (row_entries col_entries : list string)
    (rows cols : list (list Z)) :
  Levels.collect_clues row_entries col_entries = (Some rows, Some cols, None) →
  length rows = length row_entries ∧ length cols = length col_entries.
Proof.
  unfold Levels.collect_clues.
  destruct (Levels.parse_entries row_entries) as [rows'|] eqn:Hr; [|done].
  destruct (Levels.parse_entries col_entries) as [cols'|] eqn:Hc; [|done].
  intros [= <- <-].
  apply parse_entries_Some, Forall2_length in Hr, Hc. by split.
Qed.

Lemma py_range_length (n : Z) : py_len (py_range n) = Z.max 0 n.
Proof. unfold py_len, py_range. rewrite length_fmap, length_seq. lia. Qed.

(** [generate_fields] always lays out at least one row and one column,
    whatever the two variables hold (zero, a negative number, or text
    that cannot be read): [max(1, n)] rows and columns of empty entries
    and white cells, one cell for every row and column. *)
Theorem generate_fields_laid_out (rows_var cols_var : option Z) :
  let g := Editor.generate_fields rows_var cols_var in
  laid_out g ∧
  py_len (Editor.row_entries g) = Z.max 1 (default 1 rows_var) ∧
  py_len (Editor.col_entries g) = Z.max 1 (default 1 cols_var) ∧
  Forall (λ e, e = "") (Editor.row_entries g ++ Editor.col_entries g) ∧
  Forall (Forall (λ cell, cell = Editor.White)) (Editor.solution_cells g).
Proof.
  intros g.
  assert (∀ var, 1 ≤ Editor.count var ∧ Editor.count var = Z.max 1 (default 1 var))
    as Hcount.
  { intros [n|]; simpl; lia. }
  destruct (Hcount rows_var) as [HR HR'], (Hcount cols_var) as [HC HC'].
  assert (py_len (Editor.row_entries g) = Editor.count rows_var) as Hrows.
  { unfold g, Editor.generate_fields. simpl.
    unfold py_len. rewrite length_fmap. fold (py_len (py_range (Editor.count rows_var))).
    rewrite py_range_length. lia. }
  assert (py_len (Editor.col_entries g) = Editor.count cols_var) as Hcols.
  { unfold g, Editor.generate_fields. simpl.
    unfold py_len. rewrite length_fmap. fold (py_len (py_range (Editor.count cols_var))).
    rewrite py_range_length. lia. }
  split_and!.
  - unfold laid_out. split_and!.
    + intros Hnil. rewrite Hnil in Hrows. unfold py_len in Hrows. simpl in Hrows. lia.
    + intros Hnil. rewrite Hnil in Hcols. unfold py_len in Hcols. simpl in Hcols. lia.
    + unfold g, Editor.generate_fields. simpl. by rewrite !length_fmap.
    + unfold g, Editor.generate_fields. simpl. apply Forall_fmap, Forall_forall.
      intros i _. simpl. by rewrite !length_fmap.
  - congruence.
  - congruence.
  - unfold g, Editor.generate_fields. simpl. apply Forall_app.
    split; apply Forall_fmap, Forall_forall; by intros.
  - unfold g, Editor.generate_fields. simpl. apply Forall_fmap, Forall_forall.
    intros i _. simpl. apply Forall_fmap, Forall_forall. by intros.
Qed.

(** Pressing the solve button raises an exception only when
    [save_level] does: once the level is saved or rejected, the solver
    and the drawing never raise. *)
Theorem on_solve_raises (clock : nat → Z) (name_var : string) (g : Editor.fields)
    (f : Levels.file) (write_ok : bool) (e : exn) :
  Editor.on_solve clock name_var g f write_ok = Raise e ↔
  Levels.save_level name_var (Editor.row_entries g) (Editor.col_entries g) f write_ok
    = Raise e.
Proof.
  unfold Editor.on_solve.
  destruct (Levels.save_level _ _ _ _ _) as [saved|e'].
  - simpl. split; [|done].
    destruct (Levels.collect_clues _ _) as [[[rows|] [cols|]] [err|]]; try done.
    destruct (solve_returns clock (Solver.init rows cols) (Some 10) true
                (init_constructed rows cols)) as (found & s' & -> & _).
    simpl. by destruct found.
  - simpl. split; by intros [= ->].
Qed.

(** With positive clues, whatever the clock, the cells that the solve
    button paints are a solution of the puzzle typed into the entries:
    black exactly where a grid satisfying all row and column clues has
    a 1. *)
Theorem on_solve_shows_solution (clock : nat → Z) (name_var : string)
    (g : Editor.fields) (f : Levels.file) (write_ok : bool)
    (saved : Levels.outcome) (cells : list (list Editor.colour)) (nodes : Z)
    (rows cols : list (list Z)) :
  laid_out g →
  Levels.collect_clues (Editor.row_entries g) (Editor.col_entries g)
    = (Some rows, Some cols, None) →
  Forall (Forall (Z.lt 0)) rows → Forall (Forall (Z.lt 0)) cols →
  Editor.on_solve clock name_var g f write_ok
    = Ok (saved, Editor.Solution cells nodes) →
  ∃ G, Puzzle.satisfies rows cols G ∧ cells = colours_of G.
Proof.
  intros (Hrne & _ & Hclen & Hcrows) Hclues Hrpos Hcpos.
  destruct (collect_clues_lengths _ _ _ _ Hclues) as [Hrlen Hcollen].
  unfold Editor.on_solve. rewrite Hclues.
  intros H. inv_bind H. destruct a0 as [[] solver]; simpl in H; [|done].
  injection H as _ <- _.
  destruct (solve_true_grid clock (Solver.init rows cols) solver (Some 10) true)
    as (G & HG & Hboard);
    [apply init_constructed| |exact Hrpos|exact Hcpos|exact Ha0|].
  { left. simpl. rewrite Hrlen. destruct (Editor.row_entries g); [done|simpl; lia]. }
  simpl in HG. exists G. split; [done|]. rewrite Hboard.
  destruct HG as (Hcells & Hrows & _). simpl in Hcells.
  rewrite <-(Forall2_length _ _ _ Hrows).
  apply paint_grid.
  - eapply Forall_impl; [exact Hcells|]. by intros row [? _].
  - eapply Forall_impl; [exact Hcrows|]. intros row Hrow. simpl in *. congruence.
  - rewrite (Forall2_length _ _ _ Hrows). congruence.
Qed.

Lemma on_solve_shows_solution_witness :
  ∃ G, Puzzle.satisfies [[1]; [1]] [[1]; [1]] G ∧
       [[Editor.Black; Editor.White]; [Editor.White; Editor.Black]] = colours_of G.
Proof.
  apply (on_solve_shows_solution (λ _, 0) "x"
    {| Editor.row_entries := ["1"; "1"]; Editor.col_entries := ["1"; "1"];
       Editor.solution_cells := [[Editor.White; Editor.White];
                                 [Editor.White; Editor.White]] |}
    Levels.Missing false Levels.WriteFailed
    [[Editor.Black; Editor.White]; [Editor.White; Editor.Black]] 2
    [[1]; [1]] [[1]; [1]]).
  - unfold laid_out. simpl. split_and!; try done. repeat constructor.
  - reflexivity.
  - repeat constructor.
  - repeat constructor.
  - vm_compute. reflexivity.
Defined.

(** With positive clues and a puzzle that no grid satisfies, the solve
    button paints nothing and shows the message box, whatever the
    clock. *)
Theorem on_solve_unsatisfiable (clock : nat → Z) (name_var : string)
    (g : Editor.fields) (f : Levels.file) (write_ok : bool)
    (saved : Levels.outcome) (sh : Editor.shown) (rows cols : list (list Z)) :
  laid_out g →
  Levels.collect_clues (Editor.row_entries g) (Editor.col_entries g)
    = (Some rows, Some cols, None) →
  Forall (Forall (Z.lt 0)) rows → Forall (Forall (Z.lt 0)) cols →
  (∀ G, ¬ Puzzle.satisfies rows cols G) →
  Editor.on_solve clock name_var g f write_ok = Ok (saved, sh) →
  sh = Editor.NoSolution.
Proof.
  intros (Hrne & _) Hclues Hrpos Hcpos Hunsat.
  destruct (collect_clues_lengths _ _ _ _ Hclues) as [Hrlen _].
  unfold Editor.on_solve. rewrite Hclues.
  intros H. inv_bind H. destruct a0 as [[] solver]; simpl in H.
  - exfalso.
    destruct (solve_true_grid clock (Solver.init rows cols) solver (Some 10) true)
      as (G & HG & _);
      [apply init_constructed| |exact Hrpos|exact Hcpos|exact Ha0|by destruct (Hunsat G)].
    left. simpl. rewrite Hrlen. destruct (Editor.row_entries g); [done|simpl; lia].
  - by injection H as _ <-.
Qed.

Lemma on_solve_unsatisfiable_witness :
  Editor.NoSolution = Editor.NoSolution.
Proof.
  apply (on_solve_unsatisfiable (λ _, 0) "x"
    {| Editor.row_entries := ["1"]; Editor.col_entries := [""];
       Editor.solution_cells := [[Editor.White]] |}
    Levels.Missing false Levels.WriteFailed Editor.NoSolution [[1]] [[]]).
  - unfold laid_out. simpl. split_and!; try done. repeat constructor.
  - reflexivity.
  - repeat constructor.
  - repeat constructor.
  - intros G (Hcells & Hrows & Hcols).
    destruct G as [|row G]; [by apply Forall2_nil_cons_inv in Hrows|].
    apply Forall2_cons in Hrows as [Hrun HG]. apply Forall2_nil_inv_r in HG as ->.
    apply Forall_cons in Hcells as [[Hlen Hbits] _].
    destruct row as [|x [|y row]]; [done| |done].
    apply Forall_cons in Hbits as [[->| ->] _]; [done|].
    specialize (Hcols 0%nat [] eq_refl). done.
  - vm_compute. reflexivity.
Defined.


(** ** A time limit that is never exceeded *)

Section within_limit.
Import Solver.
Context (clock : nat → Z) (self : NonogramSolver) (t start : Z).
Context (col_poss_lists : list (list (list Z))).
Hypothesis Hclock : ∀ n, clock n - start ≤ t.

Lemma erase_eq_board fr1 fr2 :
  erase fr1 = erase fr2 → f_board fr1 = f_board fr2 ∧ f_nodes fr1 = f_nodes fr2.
Proof. unfold erase. by intros [= -> ->]. Qed.

Lemma erase_result_eq res1 res2 :
  erase_result res1 = erase_result res2 →
  (∃ e, res1 = Raise e ∧ res2 = Raise e) ∨
  (∃ found fr1 fr2, res1 = Ok (found, fr1) ∧ res2 = Ok (found, fr2) ∧
                    erase fr1 = erase fr2).
Proof.
  destruct res1 as [[found1 fr1]|e1], res2 as [[found2 fr2]|e2]; simpl; try done.
  - intros H. assert (found1 = found2 ∧ erase fr1 = erase fr2) as [-> Heq]
      by (split; congruence).
    right. exists found2, fr1, fr2. by rewrite Heq.
  - intros [= ->]. left. eauto.
Qed.

Lemma try_candidates_erase rec1 rec2 r candidates :
  (∀ fr1 fr2, erase fr1 = erase fr2 → erase_result (rec1 fr1) = erase_result (rec2 fr2)) →
  ∀ fr1 fr2, erase fr1 = erase fr2 →
    erase_result (try_candidates self col_poss_lists rec1 r candidates fr1)
    = erase_result (try_candidates self col_poss_lists rec2 r candidates fr2).
Proof using Type.
  intros Hrec. induction candidates as [|p candidates IH]; intros fr1 fr2 Heq.
  - simpl. by rewrite Heq.
  - simpl. destruct (erase_eq_board _ _ Heq) as [Hb Hn]. rewrite <-Hb.
    destruct (index (f_board fr1) r) as [old_row|]; simpl; [|done].
    destruct (write_row (C self) (f_board fr1) r (Some <$> p)) as [b|]; simpl; [|done].
    destruct (columns_ok (R self) (C self) col_poss_lists b) as [ok|]; simpl; [|done].
    assert (erase (with_board fr1 b) = erase (with_board fr2 b)) as Heqb.
    { unfold erase, with_board. simpl. by rewrite Hn. }
    assert (erase_result (if ok then rec1 (with_board fr1 b) else Ok (false, with_board fr1 b))
            = erase_result (if ok then rec2 (with_board fr2 b) else Ok (false, with_board fr2 b)))
      as Hstep.
    { destruct ok; [by apply Hrec|]. simpl. by rewrite Heqb. }
    apply erase_result_eq in Hstep
      as [(e & -> & ->)|(found & fr1' & fr2' & -> & -> & Heq')]; [done|].
    simpl. destruct found; [simpl; by rewrite Heq'|].
    destruct (erase_eq_board _ _ Heq') as [Hb' Hn']. rewrite <-Hb'.
    destruct (write_row (C self) (f_board fr1') r old_row) as [b'|]; simpl; [|done].
    apply IH. unfold erase, with_board. simpl. by rewrite Hn'.
Qed.

Local Arguments try_candidates : simpl never.

(** The body of [backtrack] after the timeout test. *)
Lemma node_erase rec1 rec2 r :
  (∀ fr1 fr2, erase fr1 = erase fr2 → erase_result (rec1 fr1) = erase_result (rec2 fr2)) →
  ∀ fr1 fr2, erase fr1 = erase fr2 →
    erase_result
      (index (row_poss self) r ≫= λ poss,
       filterM (is_consistent_with_partial_row (C self) (f_board fr1) r) poss ≫= λ candidates,
       match candidates with
       | [] => Ok (false, fr1)
       | _ => try_candidates self col_poss_lists rec1 r candidates fr1
       end)
    = erase_result
      (index (row_poss self) r ≫= λ poss,
       filterM (is_consistent_with_partial_row (C self) (f_board fr2) r) poss ≫= λ candidates,
       match candidates with
       | [] => Ok (false, fr2)
       | _ => try_candidates self col_poss_lists rec2 r candidates fr2
       end).
Proof using Type.
  intros Hrec fr1 fr2 Heq. destruct (erase_eq_board _ _ Heq) as [Hb _]. rewrite <-Hb.
  destruct (index (row_poss self) r) as [poss|]; simpl; [|done].
  destruct (filterM _ poss) as [[|p candidates]|]; simpl; [by rewrite Heq| |done].
  by apply try_candidates_erase.
Qed.

Lemma backtrack_from_within_limit order :
  ∀ fr1 fr2, erase fr1 = erase fr2 →
    erase_result (backtrack_from clock self (Some t) start col_poss_lists order fr1)
    = erase_result (backtrack_from clock self None start col_poss_lists order fr2).
Proof using Hclock.
  induction order as [|r order IH]; intros fr1 fr2 Heq;
    destruct (erase_eq_board _ _ Heq) as [Hb Hn]; simpl.
  - destruct (decide (t = 0)); [simpl; by rewrite Heq|].
    rewrite bool_decide_eq_false_2 by (specialize (Hclock (f_reads fr1)); lia).
    unfold erase. simpl. by rewrite Hb, Hn.
  - destruct (decide (t = 0)).
    + exact (node_erase _ _ r IH
        {| f_board := f_board fr1; f_nodes := f_nodes fr1 + 1; f_reads := f_reads fr1 |}
        {| f_board := f_board fr2; f_nodes := f_nodes fr2 + 1; f_reads := f_reads fr2 |}
        ltac:(unfold erase; simpl; by rewrite Hb, Hn)).
    + rewrite bool_decide_eq_false_2 by (specialize (Hclock (f_reads fr1)); lia).
      exact (node_erase _ _ r IH
        {| f_board := f_board fr1; f_nodes := f_nodes fr1 + 1; f_reads := S (f_reads fr1) |}
        {| f_board := f_board fr2; f_nodes := f_nodes fr2 + 1; f_reads := f_reads fr2 |}
        ltac:(unfold erase; simpl; by rewrite Hb, Hn)).
Qed.
End within_limit.

Lemma solve_limit_not_reached (clock : nat → Z) (s : Solver.NonogramSolver)
    (t : Z) (allow_partial : bool) :
  (∀ n, clock n - clock 0%nat ≤ t) →
  Solver.solve clock s (Some t) allow_partial
  = Solver.solve clock s None allow_partial.
Proof.
  intros Hclock. unfold Solver.solve, Solver.backtrack.
  destruct (negb allow_partial && _); [done|].
  pose proof (backtrack_from_within_limit clock (Solver.started s (clock 0%nat))
    t (clock 0%nat) (Solver.col_poss (Solver.started s (clock 0%nat))) Hclock
    (drop 0 (Solver.row_order (Solver.started s (clock 0%nat))))
    {| Solver.f_board := Solver.board (Solver.started s (clock 0%nat));
       Solver.f_nodes := Solver.nodes (Solver.started s (clock 0%nat));
       Solver.f_reads := 1 |} _ eq_refl) as Hsim.
  apply erase_result_eq in Hsim
    as [(e & -> & ->)|(found & fr1 & fr2 & -> & -> & Heq)]; [done|].
  simpl. destruct (erase_eq_board _ _ Heq) as [Hb Hn].
  unfold Solver.searched. by rewrite Hb, Hn.
Qed.

(** A time limit that the clock never exceeds during the call changes
    nothing: [solve] returns what it returns without time limit, the
    same answer, board and node count. *)
Theorem solve_within_limit (clock : nat → Z) (s : Solver.NonogramSolver)
    (t : Z) (allow_partial : bool) :
  (∀ n, clock n - clock 0%nat ≤ t) →
  Solver.solve clock s (Some t) allow_partial
  = Solver.solve clock s None allow_partial.
Proof. apply solve_limit_not_reached. Qed.


Lemma solve_within_limit_witness :
  Solver.solve (λ n, Z.of_nat n `min` 7) (Solver.init [[1]; [1]] [[1]; [1]]) (Some 10) true
  = Solver.solve (λ n, Z.of_nat n `min` 7) (Solver.init [[1]; [1]] [[1]; [1]]) None true.
Proof.
  apply (solve_within_limit (λ n, Z.of_nat n `min` 7)
           (Solver.init [[1]; [1]] [[1]; [1]]) 10 true).
  intros n. simpl. lia.
Defined.

(** ** Completeness from a partly filled board *)

(** The search succeeds from every board whose known cells agree with
    a grid that satisfies the clues. *)
Lemma solve_finds (clock : nat → Z) (s : Solver.NonogramSolver)
    (G : list (list Z)) (allow_partial : bool) :
  Puzzle.constructed s →
  Puzzle.satisfies (Solver.row_clues s) (Solver.col_clues s) G →
  Puzzle.agrees_with (Solver.board s) G →
  ∃ s', Solver.solve clock s None allow_partial = Ok (true, s').
Proof.
  intros Hs (Hcells & Hrow_runs & Hcol_runs) Hagree.
  assert (Solver.R s = length (Solver.row_clues s)) as HR by (by destruct Hs as (?&_)).
  assert (Solver.C s = length (Solver.col_clues s)) as HC by (by destruct Hs as (_&?&_)).
  assert (length G = Solver.R s) as HG_rows.
  { rewrite HR. by apply Forall2_length in Hrow_runs. }
  assert (Forall (λ row, length row = Solver.C s) G) as HG_cols.
  { eapply Forall_impl; [exact Hcells|]. intros row [? _]. simpl. congruence. }
  assert (∀ r row, G !! r = Some row →
    ∃ poss, Solver.row_poss s !! r = Some poss ∧ row ∈ poss) as HG_row_poss.
  { intros r row Hrow.
    destruct (Forall2_lookup_l _ _ _ _ _ Hrow_runs Hrow) as (clues & Hclues & Hruns).
    exists (line_possibilities (Z.of_nat (Solver.C s)) clues). split.
    - destruct Hs as (_ & _ & -> & _). simpl.
      by rewrite list_lookup_fmap, Hclues, <-HC.
    - rewrite <-Hruns.
      destruct (Forall_lookup_1 _ _ _ _ Hcells Hrow) as [Hlen Hbits].
      apply line_possibilities_complete; [done|congruence]. }
  assert (∀ c, (c < Solver.C s)%nat →
    ∃ poss, Solver.col_poss s !! c = Some poss ∧ Puzzle.column G c ∈ poss)
    as HG_col_poss.
  { intros c Hc.
    destruct (lookup_lt_is_Some_2 (Solver.col_clues s) c) as [clues Hclues]; [lia|].
    exists (line_possibilities (Z.of_nat (Solver.R s)) clues). split.
    - destruct Hs as (_ & _ & _ & -> & _). simpl.
      by rewrite list_lookup_fmap, Hclues, <-HR.
    - rewrite <-(Hcol_runs c clues Hclues).
      destruct (column_bits G _ c Hcells) as [Hbits Hlen]; [lia|].
      apply line_possibilities_complete; [done|]. by rewrite Hlen. }
  unfold Solver.solve.
  change (Solver.row_poss (Solver.started s (clock 0%nat))) with (Solver.row_poss s).
  change (Solver.col_poss (Solver.started s (clock 0%nat))) with (Solver.col_poss s).
  assert (Solver.some_empty (Solver.row_poss s) = false) as ->.
  { apply some_empty_false. intros poss (r & Hr)%list_elem_of_lookup ->.
    destruct (lookup_lt_is_Some_2 G r) as [row Hrow].
    { apply lookup_lt_Some in Hr. rewrite (constructed_rows s Hs) in Hr. lia. }
    destruct (HG_row_poss r row Hrow) as (poss & Hposs & Hin).
    rewrite Hr in Hposs. injection Hposs as <-. by apply elem_of_nil in Hin. }
  assert (Solver.some_empty (Solver.col_poss s) = false) as ->.
  { apply some_empty_false. intros poss (c & Hc)%list_elem_of_lookup ->.
    destruct (HG_col_poss c) as (poss & Hposs & Hin).
    { apply lookup_lt_Some in Hc. by rewrite (constructed_cols s Hs) in Hc. }
    rewrite Hc in Hposs. injection Hposs as <-. by apply elem_of_nil in Hin. }
  rewrite andb_false_r.
  destruct (backtrack_from_complete clock (Solver.started s (clock 0%nat))
    (clock 0%nat) (Solver.col_poss s) G
    (constructed_rows s Hs) (constructed_row_len s Hs)
    (constructed_cols s Hs) (constructed_col_len s Hs)
    HG_rows HG_cols HG_row_poss HG_col_poss
    (Solver.row_order s) (constructed_order_lt s Hs)
    {| Solver.f_board := Solver.board s; Solver.f_nodes := 0; Solver.f_reads := 1 |})
    as [fr' Hfr']; [done|].
  destruct (Solver.backtrack _ _ _ _ _ _ _) as [[found fr]|e] eqn:Hbt.
  - assert (Ok (found, fr) = Ok (true, fr')) as [= -> ->]
      by (rewrite <-Hbt; exact Hfr').
    simpl. eauto.
  - assert (Raise e = Ok (true, fr')) by (rewrite <-Hbt; exact Hfr'). done.
Qed.

(** Without time limit [solve] also succeeds on a solver that was used
    before: from every board whose known cells agree with some grid
    that satisfies the clues, for instance the board left by an
    earlier failed or successful call. *)
Theorem solve_complete_from_board (clock : nat → Z) (s : Solver.NonogramSolver)
    (G : list (list Z)) (allow_partial : bool) :
  Puzzle.constructed s →
  Puzzle.satisfies (Solver.row_clues s) (Solver.col_clues s) G →
  Puzzle.agrees_with (Solver.board s) G →
  ∃ s', Solver.solve clock s None allow_partial = Ok (true, s').
Proof. apply solve_finds. Qed.

Lemma solve_complete_from_board_witness :
  ∃ s', Solver.solve (λ _, 0)
          {| Solver.R := 2; Solver.C := 2;
             Solver.row_clues := [[1]; [1]]; Solver.col_clues := [[1]; [1]];
             Solver.row_poss := [[[1; 0]; [0; 1]]; [[1; 0]; [0; 1]]];
             Solver.col_poss := [[[1; 0]; [0; 1]]; [[1; 0]; [0; 1]]];
             Solver.board := [[None; None]; [Some 1; None]];
             Solver.row_order := [0; 1]%nat;
             Solver.start_time := Some 0; Solver.nodes := 2 |} None false
          = Ok (true, s').
Proof.
  apply (solve_complete_from_board (λ _, 0) _ [[0; 1]; [1; 0]] false).
  - unfold Puzzle.constructed. simpl. split_and!; try reflexivity.
    split; [reflexivity|]. repeat constructor.
  - simpl. split_and!.
    + repeat first [apply Forall_nil_2 | apply Forall_cons_2 | split
                   | reflexivity | (left; reflexivity) | (right; reflexivity)].
    + repeat constructor.
    + intros [|[|c]] clues; simpl; intros [= <-]; reflexivity.
  - simpl. unfold Puzzle.agrees_with.
    repeat first [apply Forall2_nil_2 | apply Forall2_cons_2 | by intros v [= <-] | done].
Defined.

(** When the puzzle typed into the entries has a solution and the call
    takes no more than the ten seconds that [on_solve] allows, the
    solve button paints a solution, provided saving raised nothing. *)
Theorem on_solve_complete (clock : nat → Z) (name_var : string)
    (g : Editor.fields) (f : Levels.file) (write_ok : bool)
    (saved : Levels.outcome) (rows cols : list (list Z)) (G : list (list Z)) :
  laid_out g →
  Levels.save_level name_var (Editor.row_entries g) (Editor.col_entries g) f write_ok
    = Ok saved →
  Levels.collect_clues (Editor.row_entries g) (Editor.col_entries g)
    = (Some rows, Some cols, None) →
  Puzzle.satisfies rows cols G →
  (∀ n, clock n - clock 0%nat ≤ 10) →
  ∃ cells nodes G',
    Editor.on_solve clock name_var g f write_ok
      = Ok (saved, Editor.Solution cells nodes) ∧
    Puzzle.satisfies rows cols G' ∧ cells = colours_of G'.
Proof.
  intros Hg Hsave Hclues HG Hclock.
  destruct (solve_finds clock (Solver.init rows cols) G true) as [s' Hsolve];
    [apply init_constructed|exact HG| |].
  { simpl. destruct HG as (Hcells & Hrows & _).
    rewrite <-(Forall2_length _ _ _ Hrows). apply fresh_board_agrees.
    eapply Forall_impl; [exact Hcells|]. by intros row [? _]. }
  rewrite <-(solve_limit_not_reached clock _ 10 true Hclock) in Hsolve.
  assert (Forall (Forall (Z.lt 0)) rows ∧ Forall (Forall (Z.lt 0)) cols) as [Hrpos Hcpos].
  { destruct HG as (Hcells & Hrows & Hcols). split.
    - apply Forall_lookup_2. intros r clues Hclues'.
      destruct (Forall2_lookup_r _ _ _ _ _ Hrows Hclues') as (row & _ & <-).
      apply runs_positive.
    - apply Forall_lookup_2. intros c clues Hclues'.
      rewrite <-(Hcols c clues Hclues'). apply runs_positive. }
  assert (Editor.on_solve clock name_var g f write_ok
          = Ok (saved, Editor.Solution
                  (Editor.paint (Solver.board s') (length rows) (length cols)
                     (Editor.solution_cells g)) (Solver.nodes s'))) as Hon.
  { unfold Editor.on_solve. rewrite Hsave. simpl. rewrite Hclues, Hsolve. done. }
  destruct (collect_clues_lengths _ _ _ _ Hclues) as [Hrlen Hcollen].
  destruct Hg as (Hrne & _ & Hclen & Hcrows).
  destruct (solve_true_grid clock (Solver.init rows cols) s' (Some 10) true)
    as (G' & HG' & Hboard);
    [apply init_constructed| |exact Hrpos|exact Hcpos|exact Hsolve|].
  { left. simpl. rewrite Hrlen. destruct (Editor.row_entries g); [done|simpl; lia]. }
  simpl in HG'. eexists _, _, G'. split; [exact Hon|]. split; [done|].
  rewrite Hboard. destruct HG' as (Hcells' & Hrows' & _).
  rewrite <-(Forall2_length _ _ _ Hrows').
  apply paint_grid.
  - eapply Forall_impl; [exact Hcells'|]. by intros row [? _].
  - eapply Forall_impl; [exact Hcrows|]. intros row Hrow. simpl in *. congruence.
  - rewrite (Forall2_length _ _ _ Hrows'). congruence.
Qed.

Lemma on_solve_complete_witness :
  ∃ cells nodes G',
    Editor.on_solve (λ _, 0) "x"
      {| Editor.row_entries := ["1"; "1"]; Editor.col_entries := ["1"; "1"];
         Editor.solution_cells := [[Editor.White; Editor.White];
                                   [Editor.White; Editor.White]] |}
      Levels.Missing false
      = Ok (Levels.WriteFailed, Editor.Solution cells nodes) ∧
    Puzzle.satisfies [[1]; [1]] [[1]; [1]] G' ∧ cells = colours_of G'.
Proof.
  apply (on_solve_complete (λ _, 0) "x"
    {| Editor.row_entries := ["1"; "1"]; Editor.col_entries := ["1"; "1"];
       Editor.solution_cells := [[Editor.White; Editor.White];
                                 [Editor.White; Editor.White]] |}
    Levels.Missing false Levels.WriteFailed [[1]; [1]] [[1]; [1]] [[0; 1]; [1; 0]]).
  - unfold laid_out. simpl. split_and!; try done. repeat constructor.
  - reflexivity.
  - reflexivity.
  - split_and!.
    + repeat first [apply Forall_nil_2 | apply Forall_cons_2 | split
                   | reflexivity | (left; reflexivity) | (right; reflexivity)].
    + repeat constructor.
    + intros [|[|c]] clues; simpl; intros [= <-]; reflexivity.
  - intros n. simpl. lia.
Defined.
